(** * bench: fetching rows from PostgreSQL into CSV files, three ways

    A shallow embedding of [main.go]: the three row-fetching strategies
    ([fetchWithCursor], [fetchWithCustomCursor], [fetchWithOffsetLimit]) and
    the harness of [main] that runs them as goroutines and drains one result
    channel.

    The program talks to three things outside itself: the database, the file
    system and the clock.  They are modelled as follows.
    - The table [pgbench_accounts] is a list of rows.  The three SQL
      statements the program sends are given their meaning on that list
      ([select_le], [select_between], [sql_offset], [sql_limit], [fetch]).
      In [fetchWithCursor], [fetchWithCustomCursor] and
      [fetchWithOffsetLimit] the table does not change during a run; in
      [fetchWithCustomCursorOn] and [fetchWithOffsetLimitOn], the two
      strategies that query outside a transaction, every query finds the
      table as other sessions have left it.
    - Every call that can hand back an error in the source reads its answer
      from an environment [Env]; a run is a function of the environment, so
      a statement over all environments covers every failure the calls can
      report.
    - Go's [int] is modelled by [Z]: the only arithmetic of the program is
      [offset += batchSize], which stays far below 2^63 on a table that fits
      a database.
    - The [for { ... }] loops carry a fuel argument that bounds the number of
      iterations; a run that has not left its loop when the fuel is spent is
      returned as the state of the loop at that point. *)

From Stdlib Require Import String Ascii ZArith List Bool Lia.
From Stdlib Require Import Sorted Permutation Relations.
From Stdlib Require Import DecimalString DecimalZ.
Import ListNotations.
Open Scope Z_scope.

(* ================================================================== *)
(** * Data *)

(** A row of [pgbench_accounts] as the program reads it:
    [SELECT aid, bid, abalance]. *)
Record Row : Type := mkRow { aid : Z; bid : Z; abalance : Z }.

Definition Table : Type := list Row.

(** [aid] is the table's primary key. *)
Definition primary_key (tbl : Table) : Prop := NoDup (map aid tbl).

(** Errors.  [Raw] is an error value produced outside the program (by the
    operating system, pgx or encoding/csv); [Errorf format e] is the value of
    [fmt.Errorf(format, e)], [format] being the literal of the source. *)
Inductive error : Type :=
| Raw (code : nat)
| Errorf (format : string) (e : error).

(** [type Result struct { Type string; Err error; Message string }] *)
Record Result : Type := mkResult
  { Type_ : string; Err : option error; Message : string }.

Definition set_Err (r : Result) (e : error) : Result :=
  {| Type_ := Type_ r; Err := Some e; Message := Message r |}.

Definition set_Message (r : Result) (m : string) : Result :=
  {| Type_ := Type_ r; Err := Err r; Message := m |}.

(** One CSV record, and the file as the sequence of records handed to
    [writer.Write] without error. *)
Definition record : Type := list string.
Definition Sink : Type := list record.

(** [fmt.Sprintf("%d", n)] *)
Definition fmt_d (n : Z) : string := NilZero.string_of_int (Z.to_int n).

(** Reading a decimal field back (used to state properties of the file). *)
Definition parse_d (s : string) : option Z :=
  option_map Z.of_int (NilZero.int_of_string s).

(** [record := []string{Sprintf("%d", aid), Sprintf("%d", bid),
    Sprintf("%d", abalance)}] *)
Definition record_of (r : Row) : record :=
  [fmt_d (aid r); fmt_d (bid r); fmt_d (abalance r)].

(** The primary key of a record of the file. *)
Definition record_key (rec : record) : option Z :=
  match rec with
  | k :: _ => parse_d k
  | [] => None
  end.

(** The row a record of the file stands for. *)
Definition row_of_record (rec : record) : option Row :=
  match rec with
  | [a; b; c] =>
      match parse_d a, parse_d b, parse_d c with
      | Some x, Some y, Some z => Some (mkRow x y z)
      | _, _, _ => None
      end
  | _ => None
  end.

(* ================================================================== *)
(** * The data source *)

(** [ORDER BY aid ASC] *)
Fixpoint insert_by_aid (r : Row) (l : list Row) : list Row :=
  match l with
  | [] => [r]
  | x :: t => if aid r <=? aid x then r :: l else x :: insert_by_aid r t
  end.

Definition order_by_aid (l : list Row) : list Row :=
  fold_right insert_by_aid [] l.

(** [SELECT aid, bid, abalance FROM pgbench_accounts WHERE aid <= limit
    ORDER BY aid ASC] *)
Definition select_le (limit : Z) (tbl : Table) : list Row :=
  order_by_aid (filter (fun r => aid r <=? limit) tbl).

(** [... WHERE aid > lastId AND aid <= limit ORDER BY aid ASC] *)
Definition select_between (lastId limit : Z) (tbl : Table) : list Row :=
  order_by_aid
    (filter (fun r => (lastId <? aid r) && (aid r <=? limit)) tbl).

(** [LIMIT n] and [OFFSET n].  A count that is not positive yields no row
    (whether the server also reports an error for it is the environment's
    part, see [query_err] and [stream_err]). *)
Definition sql_limit (n : Z) (l : list Row) : list Row := firstn (Z.to_nat n) l.
Definition sql_offset (n : Z) (l : list Row) : list Row := skipn (Z.to_nat n) l.

(** [FETCH n FROM my_cursor]: the next [n] rows of the cursor's result set,
    and the cursor moved past them. *)
Definition fetch (n : Z) (cur : list Row) : list Row * list Row :=
  (firstn (Z.to_nat n) cur, skipn (Z.to_nat n) cur).

(* ================================================================== *)
(** * The environment of a strategy *)

(** What each fallible call of one strategy returns.  Queries are numbered
    from 0 in the order the strategy issues them; the rows of a result are
    numbered from 0 in the order [rows.Next] delivers them. *)
Record Env : Type := mkEnv
  { create_err : option error;               (* os.Create *)
    begin_err : option error;                (* pool.Begin *)
    declare_err : option error;              (* tx.Exec(DECLARE ...) *)
    query_err : nat -> option error;         (* tx.Query / pool.Query *)
    stream_err : nat -> option (nat * error);
      (* the result of the query breaks after that many rows: rows.Next
         answers false from there on and rows.Err reports the error *)
    scan_err : nat -> nat -> option error;   (* rows.Scan *)
    write_err : nat -> nat -> option error;  (* writer.Write *)
    close_err : option error;                (* tx.Exec("CLOSE my_cursor") *)
    commit_err : option error;               (* tx.Commit *)
    seconds : string                         (* duration.Seconds() as %.2f *)
  }.

(** An environment in which no call fails. *)
Definition quiet (secs : string) : Env :=
  {| create_err := None; begin_err := None; declare_err := None;
     query_err := fun _ => None; stream_err := fun _ => None;
     scan_err := fun _ _ => None; write_err := fun _ _ => None;
     close_err := None; commit_err := None; seconds := secs |}.

(** [pgx.Rows]: the rows still to be delivered and what [rows.Err] will
    report once they are. *)
Record Rows : Type := mkRows { pending : list Row; rows_Err : option error }.

Definition open_rows (env : Env) (n : nat) (batch : list Row) : Rows :=
  match stream_err env n with
  | Some (k, e) => {| pending := firstn k batch; rows_Err := Some e |}
  | None => {| pending := batch; rows_Err := None |}
  end.

(** [rows.Next()]: [None] for false; otherwise the row now current and the
    rows after it. *)
Definition rows_Next (rs : Rows) : option (Row * Rows) :=
  match pending rs with
  | [] => None
  | r :: p => Some (r, {| pending := p; rows_Err := rows_Err rs |})
  end.

(* ================================================================== *)
(** * The strategies *)

(** What a strategy has done when it returns: the Results it has sent on
    [res], the error it returns, and its CSV file. *)
Record Run : Type := mkRun
  { sent : list Result; ret : option error; file : Sink }.

(** [result.Err = err; res <- result; return err] *)
Definition fail (result : Result) (err : error) (out : Sink) : Run :=
  {| sent := [set_Err result err]; ret := Some err; file := out |}.

(** The inner loop shared by the three strategies,
[[
    for rows.Next() {
        if err := rows.Scan(&aid, &bid, &abalance); err != nil { ... }
        record := ...
        if err := writer.Write(record); err != nil { ... }
        lastId = aid          // fetchWithCustomCursor only
    }
]]
    run on the rows still pending in result [n], the next of which has
    number [i].  [on_write] is what the strategy puts in [result.Err] when
    [writer.Write] fails.  The answer is the file, the last [aid] scanned
    and written, and the error if the loop was left by [return]. *)
Fixpoint scan_write (env : Env) (on_write : error -> error) (n i : nat)
    (pend : list Row) (out : Sink) (lastId : Z) : Sink * Z * option error :=
  match pend with
  | [] => (out, lastId, None)
  | r :: p =>
      match scan_err env n i with
      | Some e => (out, lastId, Some (Errorf "failed to scan row: %w" e))
      | None =>
          match write_err env n i with
          | Some e => (out, lastId, Some (on_write e))
          | None =>
              scan_write env on_write n (S i) p (out ++ [record_of r]) (aid r)
          end
      end
  end.

(** One batch, from the emptiness check to [rows.Err()]:
[[
    if !rows.Next() { rows.Close(); break }
    for rows.Next() { ... }
    rows.Close()
    if rows.Err() != nil { ... }
]]
    [Break] leaves the outer loop, [Abort e] returns with [e] in the Result,
    [Next_batch] goes round again. *)
Inductive batch_end : Type :=
| Break
| Abort (e : error)
| Next_batch.

Definition batch (env : Env) (on_write : error -> error) (n : nat)
    (rows : Rows) (out : Sink) (lastId : Z) : Sink * Z * batch_end :=
  match rows_Next rows with
  | None => (out, lastId, Break)
  | Some (_, rows1) =>
      match scan_write env on_write n 1 (pending rows1) out lastId with
      | (out', lastId', Some e) => (out', lastId', Abort e)
      | (out', lastId', None) =>
          match rows_Err rows1 with
          | Some e =>
              (out', lastId',
               Abort (Errorf "error occurred while iterating rows: %w" e))
          | None => (out', lastId', Next_batch)
          end
      end
  end.

(** [for { body }] with a bound on the number of iterations: the body
    answers with the next state of the loop or with the finished run. *)
Fixpoint loop {St : Type} (body : St -> St + Run) (fuel : nat) (st : St)
    : St + Run :=
  match fuel with
  | O => inl st
  | S fuel' =>
      match body st with
      | inl st' => loop body fuel' st'
      | inr run => inr run
      end
  end.

(** ** fetchWithCursor *)

(** The state of the loop: the number of the next query, the rows the
    server-side cursor has not yet handed out, the file. *)
Record CursorSt : Type := mkCursorSt
  { c_n : nat; c_cur : list Row; c_out : Sink }.

Definition cursor_result : Result :=
  {| Type_ := "cursor"; Err := None; Message := "" |}.

(** After the loop: close the cursor, commit, report. *)
Definition cursor_finish (env : Env) (out : Sink) : Run :=
  match close_err env with
  | Some e => fail cursor_result (Errorf "failed to close cursor: %w" e) out
  | None =>
      let commit := commit_err env in
      {| sent := [set_Message cursor_result
                    ("cursor done in " ++ seconds env ++ " second")%string];
         ret := commit;
         file := out |}
  end.

Definition cursor_body (env : Env) (batchSize : Z) (st : CursorSt)
    : CursorSt + Run :=
  match query_err env (c_n st) with
  | Some e =>
      inr (fail cursor_result (Errorf "failed to fetch data: %w" e) (c_out st))
  | None =>
      let (got, cur') := fetch batchSize (c_cur st) in
      let rows := open_rows env (c_n st) got in
      match batch env (Errorf "error writing record to CSV: %v")
                  (c_n st) rows (c_out st) 0 with
      | (out', _, Break) => inr (cursor_finish env out')
      | (out', _, Abort e) => inr (fail cursor_result e out')
      | (out', _, Next_batch) =>
          inl {| c_n := S (c_n st); c_cur := cur'; c_out := out' |}
      end
  end.

Definition fetchWithCursor (env : Env) (tbl : Table) (limit batchSize : Z)
    (fuel : nat) : CursorSt + Run :=
  match create_err env with
  | Some e => inr (fail cursor_result (Errorf "error creating file: %v" e) [])
  | None =>
      match begin_err env with
      | Some e =>
          inr (fail cursor_result
                 (Errorf "failed to begin transaction: %w" e) [])
      | None =>
          match declare_err env with
          | Some e =>
              inr (fail cursor_result
                     (Errorf "failed to declare cursor: %w" e) [])
          | None =>
              loop (cursor_body env batchSize) fuel
                {| c_n := 0; c_cur := select_le limit tbl; c_out := [] |}
          end
      end
  end.

(** ** fetchWithCustomCursor *)

Record CustomSt : Type := mkCustomSt
  { k_n : nat; k_lastId : Z; k_out : Sink }.

Definition custom_result : Result :=
  {| Type_ := "custom_cursor"; Err := None; Message := "" |}.

Definition custom_finish (env : Env) (out : Sink) : Run :=
  {| sent := [set_Message custom_result
                ("custom cursor done in " ++ seconds env ++ " second")%string];
     ret := None;
     file := out |}.

Definition custom_body (env : Env) (tbl : Table) (limit batchSize : Z)
    (st : CustomSt) : CustomSt + Run :=
  match query_err env (k_n st) with
  | Some e =>
      inr (fail custom_result (Errorf "failed to fetch data: %w" e) (k_out st))
  | None =>
      let got := sql_limit batchSize (select_between (k_lastId st) limit tbl) in
      let rows := open_rows env (k_n st) got in
      match batch env (Errorf "error writing record to CSV: %v\n")
                  (k_n st) rows (k_out st) (k_lastId st) with
      | (out', _, Break) => inr (custom_finish env out')
      | (out', _, Abort e) => inr (fail custom_result e out')
      | (out', lastId', Next_batch) =>
          inl {| k_n := S (k_n st); k_lastId := lastId'; k_out := out' |}
      end
  end.

(** [var lastId int] starts at Go's zero value. *)
Definition fetchWithCustomCursor (env : Env) (tbl : Table)
    (limit batchSize : Z) (fuel : nat) : CustomSt + Run :=
  match create_err env with
  | Some e => inr (fail custom_result (Errorf "error creating file: %v" e) [])
  | None =>
      loop (custom_body env tbl limit batchSize) fuel
        {| k_n := 0; k_lastId := 0; k_out := [] |}
  end.

(** ** fetchWithOffsetLimit *)

Record OffsetSt : Type := mkOffsetSt
  { o_n : nat; o_offset : Z; o_out : Sink }.

Definition offset_result : Result :=
  {| Type_ := "offset_limit"; Err := None; Message := "" |}.

Definition offset_finish (env : Env) (out : Sink) : Run :=
  {| sent := [set_Message offset_result
                ("offset limit done in " ++ seconds env ++ " second")%string];
     ret := None;
     file := out |}.

(** In this strategy the value of [fmt.Errorf] for a failed [writer.Write]
    is not assigned: [result.Err = err] stores the error of [writer.Write]
    itself. *)
Definition offset_body (env : Env) (tbl : Table) (limit batchSize : Z)
    (st : OffsetSt) : OffsetSt + Run :=
  match query_err env (o_n st) with
  | Some e =>
      inr (fail offset_result (Errorf "failed to fetch data: %w" e) (o_out st))
  | None =>
      let got :=
        sql_limit batchSize (sql_offset (o_offset st) (select_le limit tbl)) in
      let rows := open_rows env (o_n st) got in
      match batch env (fun e => e) (o_n st) rows (o_out st) 0 with
      | (out', _, Break) => inr (offset_finish env out')
      | (out', _, Abort e) => inr (fail offset_result e out')
      | (out', _, Next_batch) =>
          inl {| o_n := S (o_n st);
                 o_offset := o_offset st + batchSize;
                 o_out := out' |}
      end
  end.

Definition fetchWithOffsetLimit (env : Env) (tbl : Table)
    (limit batchSize : Z) (fuel : nat) : OffsetSt + Run :=
  match create_err env with
  | Some e => inr (fail offset_result (Errorf "error creating file: %v" e) [])
  | None =>
      loop (offset_body env tbl limit batchSize) fuel
        {| o_n := 0; o_offset := 0; o_out := [] |}
  end.

(** The file of a strategy at the point a run has reached: the records
    handed to [writer.Write] so far.  The bytes reach the file on disk when
    the buffer of the [csv.Writer] is flushed, at the latest by the deferred
    [writer.Flush()] of a run that returns; a run still in its loop has
    written to its file a beginning of these records, and so has a run that
    a failed [writer.Write] ended. *)
Definition cursor_file (o : CursorSt + Run) : Sink :=
  match o with inl st => c_out st | inr r => file r end.
Definition custom_file (o : CustomSt + Run) : Sink :=
  match o with inl st => k_out st | inr r => file r end.
Definition offset_file (o : OffsetSt + Run) : Sink :=
  match o with inl st => o_out st | inr r => file r end.

(* ================================================================== *)
(** * The harness of [main] *)

(** What a strategy goroutine does that the other goroutines can see: it
    sends on [errorChan], and its deferred [wg.Done()] runs when it returns.
    [Spin] is a goroutine inside a loop it does not leave. *)
Inductive instr : Type :=
| Send (r : Result)
| WgDone
| Spin.

Abbreviation goroutine := (list instr) (only parsing).

(** The goroutine of a run: its sends, then the deferred [wg.Done()]; a run
    still inside its loop shows nothing to the others. *)
Definition goroutine_of {St : Type} (o : St + Run) : goroutine :=
  match o with
  | inr run => map Send (sent run) ++ [WgDone]
  | inl _ => [Spin]
  end.

(** The state of the process after the three [go] statements and the
    [go func() { wg.Wait(); close(errorChan) }()]. *)
Record HState : Type := mkHState
  { gs : list goroutine;       (* the strategy goroutines *)
    wg : Z;                    (* the WaitGroup counter *)
    errorChan : list Result;   (* the buffer of the channel *)
    closed : nat;              (* how many times close(errorChan) has run *)
    waiter_done : bool;        (* the closing goroutine has finished *)
    received : list Result;    (* what main's range loop has taken out *)
    main_done : bool;          (* the range loop has ended *)
    panicked : bool }.

(** [make(chan Result, 1)] *)
Definition capacity : nat := 1.

Fixpoint set_nth {A : Type} (i : nat) (x : A) (l : list A) : list A :=
  match l, i with
  | [], _ => []
  | _ :: t, O => x :: t
  | y :: t, S j => y :: set_nth j x t
  end.

Definition panic (s : HState) : HState :=
  {| gs := gs s; wg := wg s; errorChan := errorChan s; closed := closed s;
     waiter_done := waiter_done s; received := received s;
     main_done := main_done s; panicked := true |}.

(** Who moves: strategy goroutine [i], the closing goroutine, or main. *)
Inductive action : Type :=
| Strategy (i : nat)
| Waiter
| Main.

(** One move; [None] when the mover is blocked or has finished.  A send
    needs room in the buffer and panics on a closed channel; [wg.Done()]
    panics on a counter that would go negative; [wg.Wait()] returns when the
    counter is zero; the range loop takes the next buffered Result and ends
    when the channel is closed and empty.  The model stops where main leaves
    its range loop: what follows it, the deferred [pool.Close()], is not
    part of it. *)
Definition exec (a : action) (s : HState) : option HState :=
  if panicked s then None
  else if main_done s then None
  else
    match a with
    | Strategy i =>
        match nth_error (gs s) i with
        | Some (Send r :: g) =>
            if (0 <? closed s)%nat then Some (panic s)
            else if (length (errorChan s) <? capacity)%nat then
              Some {| gs := set_nth i g (gs s); wg := wg s;
                      errorChan := errorChan s ++ [r]; closed := closed s;
                      waiter_done := waiter_done s; received := received s;
                      main_done := main_done s; panicked := panicked s |}
            else None
        | Some (WgDone :: g) =>
            if wg s <=? 0 then Some (panic s)
            else
              Some {| gs := set_nth i g (gs s); wg := wg s - 1;
                      errorChan := errorChan s; closed := closed s;
                      waiter_done := waiter_done s; received := received s;
                      main_done := main_done s; panicked := panicked s |}
        | Some (Spin :: _) => Some s
        | _ => None
        end
    | Waiter =>
        if waiter_done s then None
        else if wg s =? 0 then
          if (0 <? closed s)%nat then Some (panic s)
          else
            Some {| gs := gs s; wg := wg s; errorChan := errorChan s;
                    closed := S (closed s); waiter_done := true;
                    received := received s; main_done := main_done s;
                    panicked := panicked s |}
        else None
    | Main =>
        match errorChan s with
        | r :: q =>
            Some {| gs := gs s; wg := wg s; errorChan := q;
                    closed := closed s; waiter_done := waiter_done s;
                    received := received s ++ [r];
                    main_done := main_done s; panicked := panicked s |}
        | [] =>
            if (0 <? closed s)%nat then
              Some {| gs := gs s; wg := wg s; errorChan := [];
                      closed := closed s; waiter_done := waiter_done s;
                      received := received s; main_done := true;
                      panicked := panicked s |}
            else None
        end
    end.

Definition step (s s' : HState) : Prop := exists a, exec a s = Some s'.

Definition reachable (s0 s : HState) : Prop :=
  clos_refl_trans_1n HState step s0 s.

(** Running a schedule, as far as it can be followed. *)
Fixpoint run_schedule (sched : list action) (s : HState) : option HState :=
  match sched with
  | [] => Some s
  | a :: rest =>
      match exec a s with
      | Some s' => run_schedule rest s'
      | None => None
      end
  end.

(** [wg.Add(3)] and the [go] statements of [main], in their order. *)
Definition launch (cursor offset custom : goroutine) : HState :=
  {| gs := [cursor; offset; custom]; wg := 3; errorChan := [];
     closed := 0; waiter_done := false; received := [];
     main_done := false; panicked := false |}.

(** The process for given environments of the three strategies, each
    strategy followed for [fuel] iterations of its loop. *)
Definition main (ec eo ek : Env) (tbl : Table) (limit batchSize : Z)
    (fuel : nat) : HState :=
  launch (goroutine_of (fetchWithCursor ec tbl limit batchSize fuel))
         (goroutine_of (fetchWithOffsetLimit eo tbl limit batchSize fuel))
         (goroutine_of (fetchWithCustomCursor ek tbl limit batchSize fuel)).

(** What main prints for a Result: [result.Err] when there is one, else
    [result.Message]. *)
Definition printed (r : Result) : error + string :=
  match Err r with
  | Some e => inl e
  | None => inr (Message r)
  end.

(* ================================================================== *)
(** * Describing what a run writes *)

(** The batches a list is handed out in, [b] elements at a time, up to the
    first empty one. *)
Fixpoint batches_fuel {A : Type} (fuel b : nat) (l : list A)
    : list (list A) :=
  match fuel with
  | O => []
  | S fuel' =>
      match firstn b l with
      | [] => []
      | c => c :: batches_fuel fuel' b (skipn b l)
      end
  end.

Definition batches {A : Type} (b : Z) (l : list A) : list (list A) :=
  batches_fuel (length l) (Z.to_nat b) l.

(** Every batch without its first element. *)
Definition tails {A : Type} (bs : list (list A)) : list A :=
  concat (map (@tl A) bs).

(** The first elements of the batches. *)
Definition heads {A : Type} (bs : list (list A)) : list A :=
  concat (map (firstn 1) bs).

(** Keys strictly ascending. *)
Definition ascending (l : list Row) : Prop := StronglySorted Z.lt (map aid l).

(** What is true of the file of every run: its records are rows of the
    table within the bound, and in ascending key order when [aid] is a
    key of the table. *)
Definition sound_file (limit : Z) (tbl : Table) (out : Sink) : Prop :=
  exists ws,
    out = map record_of ws /\
    (forall r, In r ws -> In r tbl /\ aid r <= limit) /\
    (primary_key tbl -> ascending ws).

(** The keys [lo], [lo+1], ... ([n] of them). *)
Definition keys_from (lo : Z) (n : nat) : list Z :=
  map (fun i => lo + Z.of_nat i) (seq 0 n).

(** A table of [n] rows keyed [1..n], in key order, with any other fields. *)
Definition accounts (bidf balf : Z -> Z) (n : nat) : Table :=
  map (fun k => mkRow k (bidf k) (balf k)) (keys_from 1 n).

(** The table pgbench creates at scale 1 cut to [n] rows: one branch, zero
    balances. *)
Definition pgbench (n : nat) : Table := accounts (fun _ => 1) (fun _ => 0) n.

(** Whether an error is the value of a [fmt.Errorf]. *)
Definition wrapped (x : error) : Prop :=
  match x with
  | Errorf _ _ => True
  | Raw _ => False
  end.

(** The invariants of the three loops.  [ws] are the rows written so far;
    for the cursor and for offset/limit they are followed, in key order, by
    the rows still to be handed out; for the custom cursor they lie at or
    below [lastId]. *)
Definition cursor_inv (limit : Z) (tbl : Table) (st : CursorSt) : Prop :=
  exists ws,
    c_out st = map record_of ws /\
    (forall r, In r (ws ++ c_cur st) -> In r tbl /\ aid r <= limit) /\
    (primary_key tbl -> ascending (ws ++ c_cur st)).

Definition offset_inv (limit : Z) (tbl : Table) (st : OffsetSt) : Prop :=
  0 <= o_offset st /\
  exists ws,
    o_out st = map record_of ws /\
    (forall r, In r (ws ++ sql_offset (o_offset st) (select_le limit tbl)) ->
               In r tbl /\ aid r <= limit) /\
    (primary_key tbl ->
     ascending (ws ++ sql_offset (o_offset st) (select_le limit tbl))).

Definition custom_inv (limit : Z) (tbl : Table) (st : CustomSt) : Prop :=
  exists ws,
    k_out st = map record_of ws /\
    (forall r, In r ws -> In r tbl /\ aid r <= limit) /\
    (primary_key tbl ->
     ascending ws /\ forall r, In r ws -> aid r <= k_lastId st).

(** Two environments that answer alike in result [n], but perhaps for the
    scan and the write of its first row. *)
Definition alike_after_first (n : nat) (env env' : Env) : Prop :=
  stream_err env n = stream_err env' n /\
  (forall i, (1 <= i)%nat -> scan_err env n i = scan_err env' n i) /\
  (forall i, (1 <= i)%nat -> write_err env n i = write_err env' n i).

(** No query of the loop fails, no result stream breaks, no scan and no
    write fails. *)
Definition calm (env : Env) : Prop :=
  (forall n, query_err env n = None) /\
  (forall n, stream_err env n = None) /\
  (forall n i, scan_err env n i = None) /\
  (forall n i, write_err env n i = None).

(** The file, the connection and the cursor open without error. *)
Definition opens (env : Env) : Prop :=
  create_err env = None /\ begin_err env = None /\ declare_err env = None.

(** A record of a file is a row of the table whose key is within the
    bound. *)
Definition row_within (limit : Z) (tbl : Table) (rec : record) : Prop :=
  exists r,
    In r tbl /\ rec = record_of r /\
    record_key rec = Some (aid r) /\ aid r <= limit.

(** The keys read off the records of a file are strictly ascending. *)
Definition keys_ascending (out : Sink) : Prop :=
  exists ks, map record_key out = map Some ks /\ StronglySorted Z.lt ks.

(** A table whose keys start at 0. *)
Definition zero_keyed : Table := [mkRow 0 1 0; mkRow 1 1 0; mkRow 2 1 0].

(** A table of one row. *)
Definition one_row : Table := [mkRow 1 1 0].

(** The environment in which only [tx.Commit] fails. *)
Definition commit_fails (secs : string) (c : error) : Env :=
  {| create_err := None; begin_err := None; declare_err := None;
     query_err := fun _ => None; stream_err := fun _ => None;
     scan_err := fun _ _ => None; write_err := fun _ _ => None;
     close_err := None; commit_err := Some c; seconds := secs |}.

(** The environment in which only [writer.Write] fails, at row [i] of
    result [n]. *)
Definition write_fails (secs : string) (n i : nat) (c : error) : Env :=
  {| create_err := None; begin_err := None; declare_err := None;
     query_err := fun _ => None; stream_err := fun _ => None;
     scan_err := fun _ _ => None;
     write_err := fun n' i' =>
       if ((n' =? n)%nat && (i' =? i)%nat)%bool then Some c else None;
     close_err := None; commit_err := None; seconds := secs |}.

(** How a run ends: with the error [e] in its Result and as its return
    value. *)
Definition failed_with (result : Result) (e : error) (run : Run) : Prop :=
  sent run = [set_Err result e] /\ ret run = Some e.

(** How a run that returns ends: either with an error in its Result, which
    is also the value returned, or with the message of success. *)
Definition ends (result : Result) (ok : Result) (good : error -> Prop)
    (run : Run) : Prop :=
  (exists e, failed_with result e run /\ good e) \/ sent run = [ok].

Definition cursor_ok (env : Env) : Result :=
  set_Message cursor_result ("cursor done in " ++ seconds env ++ " second").
Definition custom_ok (env : Env) : Result :=
  set_Message custom_result
    ("custom cursor done in " ++ seconds env ++ " second").
Definition offset_ok (env : Env) : Result :=
  set_Message offset_result
    ("offset limit done in " ++ seconds env ++ " second").

(** An error the environment gave to [writer.Write]. *)
Definition write_error (env : Env) (e : error) : Prop :=
  exists n i, write_err env n i = Some e.

(** The goroutines the harness meets: one that has still to send and to
    signal, one that has sent, one that has signalled, one that spins. *)
Definition wf_goroutine (g : goroutine) : Prop :=
  g = [] \/ g = [WgDone] \/ (exists r, g = [Send r; WgDone]) \/ g = [Spin].

(** 1 for a goroutine that has not run its [wg.Done()]. *)
Definition live (g : goroutine) : Z :=
  match g with
  | [] => 0
  | _ => 1
  end.

Definition lives (l : list goroutine) : Z :=
  fold_right (fun g n => live g + n) 0 l.

(** The Result a goroutine has still to send. *)
Definition unsent (g : goroutine) : list Result :=
  match g with
  | Send r :: _ => [r]
  | _ => []
  end.

(** What holds in every state of the harness; [all] are the Results the
    strategies send in the whole run. *)
Definition harness_inv (all : list Result) (s : HState) : Prop :=
  Forall wf_goroutine (gs s) /\
  wg s = lives (gs s) /\
  (length (errorChan s) <= capacity)%nat /\
  closed s = (if waiter_done s then 1 else 0)%nat /\
  (waiter_done s = true -> wg s = 0) /\
  panicked s = false /\
  (main_done s = true -> waiter_done s = true /\ errorChan s = []) /\
  Permutation (received s ++ errorChan s ++ flat_map unsent (gs s)) all.

(** The steps still to be made when no goroutine spins. *)
Definition steps_left (s : HState) : nat :=
  2 * list_sum (map (@length instr) (gs s)) + length (errorChan s)
  + (if waiter_done s then 0 else 1) + (if main_done s then 0 else 1).

(** No mover can move. *)
Definition stuck (s : HState) : Prop := forall a, exec a s = None.

(** A goroutine as [main] starts it: it will send one Result and signal,
    or it spins. *)
Definition launchable (g : goroutine) : Prop :=
  g = [Spin] \/ exists r, g = [Send r; WgDone].

(** The Results the goroutines of a state have still to send. *)
Definition to_send (s : HState) : list Result := flat_map unsent (gs s).

(** A schedule in which the strategies finish one after the other. *)
Definition one_by_one : list action :=
  [Strategy 0; Main; Strategy 0; Strategy 1; Main; Strategy 1;
   Strategy 2; Main; Strategy 2; Waiter; Main].

(** A schedule in which the first two strategies finish. *)
Definition two_finish : list action :=
  [Strategy 0; Main; Strategy 0; Strategy 1; Main; Strategy 1; Strategy 2].

(* ================================================================== *)
(** * Tactics *)

(** Proves [primary_key] of a table written out. *)
Ltac distinct_keys :=
  unfold primary_key; cbn;
  repeat (constructor; [cbn; intuition congruence|]); constructor.

(** Reduces the fields of a harness state written out as a record. *)
Ltac fields :=
  cbn [gs wg errorChan closed waiter_done received main_done panicked].

(** The environment in which every result stream breaks before its first
    row (a query the server rejects when it is executed). *)
Definition stream_fails (secs : string) (c : error) : Env :=
  {| create_err := None; begin_err := None; declare_err := None;
     query_err := fun _ => None; stream_err := fun _ => Some (0%nat, c);
     scan_err := fun _ _ => None; write_err := fun _ _ => None;
     close_err := None; commit_err := None; seconds := secs |}.

(** An error one of the calls of a strategy handed back ([tx.Commit]
    apart). *)
Definition env_error (env : Env) (e : error) : Prop :=
  create_err env = Some e \/ begin_err env = Some e \/
  declare_err env = Some e \/ close_err env = Some e \/
  (exists n, query_err env n = Some e) \/
  (exists n k, stream_err env n = Some (k, e)) \/
  (exists n i, scan_err env n i = Some e) \/
  (exists n i, write_err env n i = Some e).

(** [fmt.Errorf] once around an error of the environment. *)
Definition wraps_env_error (env : Env) (e : error) : Prop :=
  exists format e0, e = Errorf format e0 /\ env_error env e0.

(** [l1] is the beginning of [l2]. *)
Definition prefix {A : Type} (l1 l2 : list A) : Prop :=
  exists rest, l2 = l1 ++ rest.

(** The environment in which only the second query fails. *)
Definition second_query_fails (secs : string) (c : error) : Env :=
  {| create_err := None; begin_err := None; declare_err := None;
     query_err := fun n => if (n =? 1)%nat then Some c else None;
     stream_err := fun _ => None;
     scan_err := fun _ _ => None; write_err := fun _ _ => None;
     close_err := None; commit_err := None; seconds := secs |}.

(** ** A table that changes during a run

    [fetchWithCustomCursor] and [fetchWithOffsetLimit] send every query on
    its own, outside any transaction, so other sessions may change
    [pgbench_accounts] between two of them: [tbls n] is the table as query
    [n] of the strategy finds it.  ([fetchWithCursor] reads the result set
    of the cursor it declared, inside its transaction.) *)
Definition custom_body_on (env : Env) (tbls : nat -> Table)
    (limit batchSize : Z) (st : CustomSt) : CustomSt + Run :=
  custom_body env (tbls (k_n st)) limit batchSize st.

Definition fetchWithCustomCursorOn (env : Env) (tbls : nat -> Table)
    (limit batchSize : Z) (fuel : nat) : CustomSt + Run :=
  match create_err env with
  | Some e => inr (fail custom_result (Errorf "error creating file: %v" e) [])
  | None =>
      loop (custom_body_on env tbls limit batchSize) fuel
        {| k_n := 0; k_lastId := 0; k_out := [] |}
  end.

Definition offset_body_on (env : Env) (tbls : nat -> Table)
    (limit batchSize : Z) (st : OffsetSt) : OffsetSt + Run :=
  offset_body env (tbls (o_n st)) limit batchSize st.

Definition fetchWithOffsetLimitOn (env : Env) (tbls : nat -> Table)
    (limit batchSize : Z) (fuel : nat) : OffsetSt + Run :=
  match create_err env with
  | Some e => inr (fail offset_result (Errorf "error creating file: %v" e) [])
  | None =>
      loop (offset_body_on env tbls limit batchSize) fuel
        {| o_n := 0; o_offset := 0; o_out := [] |}
  end.

(** Six rows keyed 1..6 at the first query; by the second another session
    has inserted the rows of keys -1 and 0. *)
Definition grown (n : nat) : Table :=
  match n with
  | O => pgbench 6
  | S _ => mkRow (-1) 1 0 :: mkRow 0 1 0 :: pgbench 6
  end.

(** The invariant of the custom cursor's loop when the table changes: the
    rows written are in ascending key order and none is above [lastId]. *)
Definition custom_order_inv (st : CustomSt) : Prop :=
  exists ws,
    k_out st = map record_of ws /\ ascending ws /\
    forall r, In r ws -> aid r <= k_lastId st.

(** The rows written when [writer.Write] fails on row [i] of batch [n]:
    the batches before [n] without their first rows, and the rows of batch
    [n] after its first and before row [i]. *)
Definition written_until {A : Type} (n i : nat) (bs : list (list A))
    : list A :=
  tails (firstn n bs) ++ firstn (i - 1) (tl (nth n bs [])).

(* ================================================================== *)
(** * Records and the rows they stand for *)

Lemma parse_fmt (z : Z) : parse_d (fmt_d z) = Some z.
Proof.
  unfold parse_d, fmt_d.
  destruct (Z.to_int z) as [u | u] eqn:E.
  - destruct u as [| | | | | | | | | |];
      try (rewrite NilZero.isi by discriminate; cbn [option_map];
           rewrite <- E, DecimalZ.of_to; reflexivity).
    rewrite NilZero.isi_posnil. cbn [option_map].
    rewrite <- (DecimalZ.of_to z), E. reflexivity.
  - destruct u as [| | | | | | | | | |];
      try (rewrite NilZero.isi by discriminate; cbn [option_map];
           rewrite <- E, DecimalZ.of_to; reflexivity).
    rewrite NilZero.isi_negnil. cbn [option_map].
    rewrite <- (DecimalZ.of_to z), E. reflexivity.
Qed.

Lemma row_of_record_of (r : Row) : row_of_record (record_of r) = Some r.
Proof.
  destruct r as [a b c]. unfold row_of_record, record_of.
  cbn [aid bid abalance].
  rewrite !parse_fmt. reflexivity.
Qed.

Lemma record_key_of (r : Row) : record_key (record_of r) = Some (aid r).
Proof. unfold record_key, record_of. apply parse_fmt. Qed.

Lemma record_of_inj (r r' : Row) : record_of r = record_of r' -> r = r'.
Proof.
  intro H. apply (f_equal row_of_record) in H.
  rewrite !row_of_record_of in H. congruence.
Qed.

Lemma map_record_of_inj (l l' : list Row) :
  map record_of l = map record_of l' -> l = l'.
Proof.
  revert l'. induction l as [|x l IH]; intros [|y l'] H; try discriminate.
  - reflexivity.
  - cbn [map] in H. f_equal.
    + apply record_of_inj. exact (f_equal (hd []) H).
    + apply IH. exact (f_equal (@tl record) H).
Qed.

(* ================================================================== *)
(** * Ascending lists of rows *)

Lemma ascending_nil : ascending [].
Proof. constructor. Qed.

Lemma ascending_cons (x : Row) (l : list Row) :
  ascending (x :: l) <->
  ascending l /\ (forall y, In y l -> aid x < aid y).
Proof.
  unfold ascending. cbn [map]. split.
  - intro H. inversion H as [|a m Hs Hf]; subst. split; [assumption|].
    intros y Hy. rewrite Forall_forall in Hf. apply Hf. now apply in_map.
  - intros [Hs Hf]. constructor; [assumption|].
    rewrite Forall_forall. intros k Hk.
    apply in_map_iff in Hk as [y [<- Hy]]. now apply Hf.
Qed.

Lemma ascending_app (l1 l2 : list Row) :
  ascending (l1 ++ l2) <->
  ascending l1 /\ ascending l2 /\
  (forall x y, In x l1 -> In y l2 -> aid x < aid y).
Proof.
  induction l1 as [|a l1 IH]; cbn [app].
  - split.
    + intro H. repeat split; [apply ascending_nil | assumption |].
      intros x y [].
    + intros (_ & H & _). assumption.
  - rewrite !ascending_cons, IH. split.
    + intros ((H1 & H2 & H3) & H4). repeat split; try assumption.
      * intros y Hy. apply H4, in_or_app. now left.
      * intros x y [<- | Hx] Hy.
        -- apply H4, in_or_app. now right.
        -- now apply H3.
    + intros ((H1 & H2) & H3 & H4). repeat split; try assumption.
      * intros x y Hx Hy. apply H4; [now right | assumption].
      * intros y Hy. apply in_app_or in Hy as [Hy | Hy].
        -- now apply H2.
        -- apply H4; [now left | assumption].
Qed.

Lemma ascending_drop_middle (l1 l2 l3 : list Row) :
  ascending (l1 ++ l2 ++ l3) -> ascending (l1 ++ l3).
Proof.
  rewrite !ascending_app. intros (H1 & (H2 & H3 & H4) & H5).
  repeat split; try assumption.
  intros x y Hx Hy. apply H5; [assumption | apply in_or_app; now right].
Qed.

Lemma ascending_app_l (l1 l2 : list Row) : ascending (l1 ++ l2) -> ascending l1.
Proof. rewrite ascending_app. tauto. Qed.

Lemma ascending_app_r (l1 l2 : list Row) : ascending (l1 ++ l2) -> ascending l2.
Proof. rewrite ascending_app. tauto. Qed.

Lemma ascending_firstn (n : nat) (l : list Row) :
  ascending l -> ascending (firstn n l).
Proof. rewrite <- (firstn_skipn n l) at 1. apply ascending_app_l. Qed.

Lemma ascending_skipn (n : nat) (l : list Row) :
  ascending l -> ascending (skipn n l).
Proof. rewrite <- (firstn_skipn n l) at 1. apply ascending_app_r. Qed.

Lemma ascending_NoDup (l : list Row) : ascending l -> NoDup (map aid l).
Proof.
  induction l as [|x l IH]; cbn [map]; intro H.
  - constructor.
  - apply ascending_cons in H as [Hs Hf]. constructor; [|now apply IH].
    intro Hin. apply in_map_iff in Hin as [y [Hk Hy]].
    specialize (Hf y Hy). lia.
Qed.

(* ================================================================== *)
(** * ORDER BY aid *)

Lemma insert_by_aid_perm (r : Row) (l : list Row) :
  Permutation (insert_by_aid r l) (r :: l).
Proof.
  induction l as [|x l IH]; cbn [insert_by_aid].
  - reflexivity.
  - destruct (aid r <=? aid x); [reflexivity|].
    rewrite IH. apply perm_swap.
Qed.

Lemma order_by_aid_perm (l : list Row) : Permutation (order_by_aid l) l.
Proof.
  induction l as [|x l IH]; cbn [order_by_aid fold_right].
  - reflexivity.
  - fold (order_by_aid l). rewrite insert_by_aid_perm. now constructor.
Qed.

Lemma order_by_aid_In (l : list Row) (r : Row) :
  In r (order_by_aid l) <-> In r l.
Proof.
  split; apply Permutation_in;
    [apply order_by_aid_perm | symmetry; apply order_by_aid_perm].
Qed.

Lemma insert_by_aid_In (r x : Row) (l : list Row) :
  In x (insert_by_aid r l) <-> x = r \/ In x l.
Proof.
  split.
  - intro H. apply (Permutation_in _ (insert_by_aid_perm r l)) in H.
    destruct H as [<- | H]; auto.
  - intro H.
    apply (Permutation_in _ (Permutation_sym (insert_by_aid_perm r l))).
    destruct H as [-> | H]; [now left | now right].
Qed.

Lemma insert_by_aid_ascending (r : Row) (l : list Row) :
  ascending l -> ~ In (aid r) (map aid l) -> ascending (insert_by_aid r l).
Proof.
  induction l as [|x l IH]; cbn [insert_by_aid map]; intros Hs Hn.
  - apply ascending_cons. split; [apply ascending_nil | intros y []].
  - destruct (aid r <=? aid x) eqn:E.
    + apply Z.leb_le in E. apply ascending_cons. split; [assumption|].
      assert (aid r < aid x) by (cbn [In] in Hn; lia).
      apply ascending_cons in Hs as [_ Hf].
      intros y [<- | Hy]; [assumption|]. specialize (Hf y Hy). lia.
    + apply Z.leb_gt in E. apply ascending_cons in Hs as [Hs Hf].
      apply ascending_cons. split.
      * apply IH; [assumption|]. intro Hin. apply Hn. now right.
      * intros y Hy. apply insert_by_aid_In in Hy as [-> | Hy];
          [assumption | now apply Hf].
Qed.

Lemma order_by_aid_ascending (l : list Row) :
  NoDup (map aid l) -> ascending (order_by_aid l).
Proof.
  induction l as [|x l IH]; cbn [order_by_aid fold_right map]; intro H.
  - apply ascending_nil.
  - fold (order_by_aid l). inversion H as [|k m Hn Hd]; subst.
    apply insert_by_aid_ascending; [now apply IH|].
    intro Hin. apply Hn. apply in_map_iff in Hin as [y [Hk Hy]].
    apply in_map_iff. exists y. split; [assumption|].
    now apply order_by_aid_In.
Qed.

Lemma insert_by_aid_least (r : Row) (l : list Row) :
  (forall y, In y l -> aid r <= aid y) -> insert_by_aid r l = r :: l.
Proof.
  destruct l as [|x l]; cbn [insert_by_aid]; intro H; [reflexivity|].
  destruct (aid r <=? aid x) eqn:E; [reflexivity|].
  apply Z.leb_gt in E. specialize (H x (or_introl eq_refl)). lia.
Qed.

Lemma order_by_aid_sorted (l : list Row) : ascending l -> order_by_aid l = l.
Proof.
  induction l as [|x l IH]; cbn [order_by_aid fold_right]; intro H.
  - reflexivity.
  - fold (order_by_aid l). apply ascending_cons in H as [Hs Hf].
    rewrite IH by assumption. apply insert_by_aid_least.
    intros y Hy. specialize (Hf y Hy). lia.
Qed.

Lemma filter_insert_by_aid (p : Row -> bool) (r : Row) (l : list Row) :
  ascending l ->
  filter p (insert_by_aid r l) =
  if p r then insert_by_aid r (filter p l) else filter p l.
Proof.
  induction l as [|x l IH]; intro Hs.
  - cbn [insert_by_aid filter]. destruct (p r); reflexivity.
  - apply ascending_cons in Hs as [Hs Hf]. cbn [insert_by_aid].
    destruct (aid r <=? aid x) eqn:E.
    + apply Z.leb_le in E. cbn [filter]. destruct (p r) eqn:Er; [|reflexivity].
      symmetry. apply insert_by_aid_least.
      intros y Hy. destruct (p x).
      * destruct Hy as [<- | Hy]; [assumption|].
        apply filter_In in Hy as [Hy _]. specialize (Hf y Hy). lia.
      * apply filter_In in Hy as [Hy _]. specialize (Hf y Hy). lia.
    + cbn [filter]. rewrite IH by assumption.
      destruct (p x) eqn:Ex, (p r) eqn:Er; try reflexivity.
      cbn [insert_by_aid]. rewrite E. reflexivity.
Qed.

Lemma filter_order_by_aid (p : Row -> bool) (l : list Row) :
  NoDup (map aid l) ->
  filter p (order_by_aid l) = order_by_aid (filter p l).
Proof.
  induction l as [|x l IH]; cbn [order_by_aid fold_right map]; intro H.
  - reflexivity.
  - fold (order_by_aid l). inversion H as [|k m Hn Hd]; subst.
    rewrite filter_insert_by_aid by now apply order_by_aid_ascending.
    cbn [filter]. destruct (p x); cbn [order_by_aid fold_right];
      rewrite IH by assumption; reflexivity.
Qed.

Lemma NoDup_map_filter (p : Row -> bool) (l : list Row) :
  NoDup (map aid l) -> NoDup (map aid (filter p l)).
Proof.
  induction l as [|x l IH]; cbn [map filter]; intro H; [constructor|].
  inversion H as [|k m Hn Hd]; subst. destruct (p x); [|now apply IH].
  cbn [map]. constructor; [|now apply IH].
  intro Hin. apply Hn. apply in_map_iff in Hin as [y [Hk Hy]].
  apply filter_In in Hy as [Hy _]. apply in_map_iff. now exists y.
Qed.

(** ** The three queries *)

Lemma select_le_In (limit : Z) (tbl : Table) (r : Row) :
  In r (select_le limit tbl) <-> In r tbl /\ aid r <= limit.
Proof.
  unfold select_le. rewrite order_by_aid_In, filter_In, Z.leb_le. tauto.
Qed.

Lemma select_le_ascending (limit : Z) (tbl : Table) :
  primary_key tbl -> ascending (select_le limit tbl).
Proof. intro H. apply order_by_aid_ascending, NoDup_map_filter, H. Qed.

Lemma select_between_In (lastId limit : Z) (tbl : Table) (r : Row) :
  In r (select_between lastId limit tbl) <->
  In r tbl /\ lastId < aid r <= limit.
Proof.
  unfold select_between.
  rewrite order_by_aid_In, filter_In, andb_true_iff, Z.leb_le, Z.ltb_lt. tauto.
Qed.

Lemma select_between_ascending (lastId limit : Z) (tbl : Table) :
  primary_key tbl -> ascending (select_between lastId limit tbl).
Proof. intro H. apply order_by_aid_ascending, NoDup_map_filter, H. Qed.

Lemma select_between_filter (lastId limit : Z) (tbl : Table) :
  primary_key tbl ->
  select_between lastId limit tbl =
  filter (fun r => lastId <? aid r) (select_le limit tbl).
Proof.
  intro H. unfold select_between, select_le.
  rewrite filter_order_by_aid by now apply NoDup_map_filter.
  f_equal. clear H. induction tbl as [|x l IH]; cbn [filter]; [reflexivity|].
  destruct (aid x <=? limit); cbn [filter andb];
    rewrite ?andb_false_r, ?andb_true_r; destruct (lastId <? aid x);
    rewrite IH; reflexivity.
Qed.

(* ================================================================== *)
(** * One batch *)

Lemma last_cons (x d : Z) (l : list Z) : last (x :: l) d = last l x.
Proof.
  revert x d. induction l as [|y l IH]; intros x d; [reflexivity|].
  change (last (x :: y :: l) d) with (last (y :: l) d).
  rewrite (IH y d), (IH y x). reflexivity.
Qed.

(** The inner loop writes a prefix of the rows pending, the whole of them
    when it is not left by [return]; [lastId] ends as the key of the last
    row written. *)
Lemma scan_write_spec (env : Env) (w : error -> error) (n : nat)
    (pend : list Row) :
  forall (i : nat) (out : Sink) (lastId : Z),
  exists p q,
    pend = p ++ q /\
    fst (fst (scan_write env w n i pend out lastId)) = out ++ map record_of p /\
    snd (fst (scan_write env w n i pend out lastId)) =
    last (map aid p) lastId /\
    (snd (scan_write env w n i pend out lastId) = None -> q = []).
Proof.
  induction pend as [|r pend IH]; intros i out lastId; cbn [scan_write].
  - exists [], []. cbn. rewrite app_nil_r. auto.
  - destruct (scan_err env n i) as [e|].
    { exists [], (r :: pend). cbn. rewrite app_nil_r.
      repeat split; auto. discriminate. }
    destruct (write_err env n i) as [e|].
    { exists [], (r :: pend). cbn. rewrite app_nil_r.
      repeat split; auto. discriminate. }
    destruct (IH (S i) (out ++ [record_of r]) (aid r))
      as (p & q & -> & Ho & Hl & Hq).
    exists (r :: p), q. repeat split.
    + rewrite Ho, <- app_assoc. reflexivity.
    + rewrite Hl. cbn [map]. now rewrite last_cons.
    + assumption.
Qed.

(** Without scan and write errors in result [n] the inner loop writes every
    pending row. *)
Lemma scan_write_quiet (env : Env) (w : error -> error) (n : nat)
    (pend : list Row) :
  (forall i, scan_err env n i = None) ->
  (forall i, write_err env n i = None) ->
  forall (i : nat) (out : Sink) (lastId : Z),
    scan_write env w n i pend out lastId =
    (out ++ map record_of pend, last (map aid pend) lastId, None).
Proof.
  intros Hs Hw. induction pend as [|r pend IH]; intros i out lastId;
    cbn [scan_write].
  - cbn. rewrite app_nil_r. reflexivity.
  - rewrite Hs, Hw, IH, <- app_assoc. cbn [map app].
    now rewrite last_cons.
Qed.

(** The rows a result stream delivers are a prefix of the rows of the
    result. *)
Lemma open_rows_prefix (env : Env) (n : nat) (got : list Row) :
  exists q, got = pending (open_rows env n got) ++ q /\
            (rows_Err (open_rows env n got) = None -> q = []).
Proof.
  unfold open_rows. destruct (stream_err env n) as [[k e]|]; cbn.
  - exists (skipn k got). split; [now rewrite firstn_skipn | discriminate].
  - exists []. now rewrite app_nil_r.
Qed.

(** One batch, whatever the environment does: either nothing was delivered
    and the loop is left by [break] with nothing written, or the first row
    delivered is dropped and a prefix of the rows after it is written. *)
Lemma batch_spec (env : Env) (w : error -> error) (n : nat)
    (got : list Row) (out : Sink) (lastId : Z) :
  let res := batch env w n (open_rows env n got) out lastId in
  (pending (open_rows env n got) = [] /\ res = (out, lastId, Break)) \/
  (exists r p q,
      got = r :: p ++ q /\
      fst (fst res) = out ++ map record_of p /\
      snd (fst res) = last (map aid p) lastId /\
      snd res <> Break /\
      (snd res = Next_batch -> q = [])).
Proof.
  cbv zeta. destruct (open_rows_prefix env n got) as (q0 & Hgot & Hq0).
  unfold batch, rows_Next.
  destruct (pending (open_rows env n got)) as [|r rest] eqn:Ep.
  - left. auto.
  - right. cbn [pending rows_Err].
    destruct (scan_write_spec env w n rest 1%nat out lastId)
      as (p & q & Hrest & Ho & Hl & Hq).
    destruct (scan_write env w n 1 rest out lastId) as [[out' lastId'] oe].
    cbn [fst snd] in Ho, Hl, Hq.
    exists r, p, (q ++ q0). split.
    { rewrite Hgot, Hrest. cbn [app]. now rewrite <- app_assoc. }
    destruct oe as [e|].
    + cbn [fst snd]. repeat split; auto; discriminate.
    + specialize (Hq eq_refl). subst q.
      destruct (rows_Err (open_rows env n got)) as [e|] eqn:Ee; cbn [fst snd].
      * repeat split; auto; discriminate.
      * repeat split; auto; try discriminate;
          try (intros _; now rewrite (Hq0 eq_refl)).
Qed.

(** In an environment without errors in result [n] the batch writes exactly
    the rows after the first. *)
Lemma batch_quiet (env : Env) (w : error -> error) (n : nat)
    (got : list Row) (out : Sink) (lastId : Z) :
  stream_err env n = None ->
  (forall i, scan_err env n i = None) ->
  (forall i, write_err env n i = None) ->
  batch env w n (open_rows env n got) out lastId =
  match got with
  | [] => (out, lastId, Break)
  | _ :: rest =>
      (out ++ map record_of rest, last (map aid rest) lastId, Next_batch)
  end.
Proof.
  intros Hst Hs Hw. unfold batch, rows_Next, open_rows. rewrite Hst.
  cbn [pending rows_Err]. destruct got as [|r rest]; [reflexivity|].
  cbn [pending rows_Err]. rewrite scan_write_quiet by assumption. reflexivity.
Qed.

(** What [rows.Scan] and [writer.Write] would answer for the first row of a
    result is never asked. *)
Lemma scan_write_alike (env env' : Env) (w : error -> error) (n : nat)
    (pend : list Row) :
  forall (i : nat) (out : Sink) (lastId : Z),
    (forall j, (i <= j)%nat -> scan_err env n j = scan_err env' n j) ->
    (forall j, (i <= j)%nat -> write_err env n j = write_err env' n j) ->
    scan_write env w n i pend out lastId =
    scan_write env' w n i pend out lastId.
Proof.
  induction pend as [|r pend IH]; intros i out lastId Hs Hw;
    cbn [scan_write]; [reflexivity|].
  rewrite <- (Hs i (Nat.le_refl i)), <- (Hw i (Nat.le_refl i)).
  destruct (scan_err env n i); [reflexivity|].
  destruct (write_err env n i); [reflexivity|].
  apply IH; intros j Hj; [apply Hs | apply Hw]; lia.
Qed.

Lemma batch_alike (env env' : Env) (w : error -> error) (n : nat)
    (got : list Row) (out : Sink) (lastId : Z) :
  alike_after_first n env env' ->
  batch env w n (open_rows env n got) out lastId =
  batch env' w n (open_rows env' n got) out lastId.
Proof.
  intros (Hst & Hs & Hw). unfold batch, open_rows, rows_Next. rewrite <- Hst.
  destruct (stream_err env n) as [[k e]|]; cbn [pending rows_Err].
  - destruct (firstn k got) as [|r rest]; [reflexivity|].
    cbn [pending rows_Err].
    now rewrite (scan_write_alike env env' w n rest 1 out lastId Hs Hw).
  - destruct got as [|r rest]; [reflexivity|]. cbn [pending rows_Err].
    now rewrite (scan_write_alike env env' w n rest 1 out lastId Hs Hw).
Qed.

(* ================================================================== *)
(** * Loops *)

Lemma loop_invariant {St : Type} (body : St -> St + Run)
    (I : St -> Prop) (Q : Run -> Prop) :
  (forall st, I st ->
     match body st with inl st' => I st' | inr run => Q run end) ->
  forall fuel st, I st ->
    match loop body fuel st with inl st' => I st' | inr run => Q run end.
Proof.
  intros Hbody. induction fuel as [|fuel IH]; intros st Hst; cbn [loop].
  - assumption.
  - specialize (Hbody st Hst). destruct (body st) as [st'|run].
    + now apply IH.
    + assumption.
Qed.

Lemma loop_more_fuel {St : Type} (body : St -> St + Run) (fuel : nat) :
  forall (st : St) (run : Run) (extra : nat),
    loop body fuel st = inr run -> loop body (fuel + extra) st = inr run.
Proof.
  induction fuel as [|fuel IH]; intros st run extra; cbn [loop Nat.add].
  - discriminate.
  - destruct (body st) as [st'|r]; [apply IH | auto].
Qed.

Lemma sound_file_nil (limit : Z) (tbl : Table) : sound_file limit tbl [].
Proof.
  exists []. split; [reflexivity|].
  split; [intros r [] | intros _; apply ascending_nil].
Qed.

Lemma last_ascending (p : list Row) (d : Z) :
  ascending p -> (forall y, In y p -> d < aid y) ->
  d <= last (map aid p) d /\ (forall y, In y p -> aid y <= last (map aid p) d).
Proof.
  revert d. induction p as [|x p IH]; intros d Hs Hd.
  - cbn. split; [lia | intros y []].
  - apply ascending_cons in Hs as [Hs Hf].
    assert (Hx : d < aid x) by (apply Hd; now left).
    destruct (IH (aid x) Hs Hf) as [H1 H2].
    cbn [map]. rewrite last_cons. split; [lia|].
    intros y [<- | Hy]; [assumption | now apply H2].
Qed.

(* ================================================================== *)
(** * What every run writes: rows of the table, within the bound, in order *)

(** Taking a batch [r :: p ++ q] off the front of [cur] and writing [p]. *)
Lemma carve_In (ws cur cur' p q : list Row) (r x : Row) :
  cur = (r :: p ++ q) ++ cur' ->
  In x ((ws ++ p) ++ cur') -> In x (ws ++ cur).
Proof.
  intros -> H. rewrite !in_app_iff in *. cbn [In].
  rewrite !in_app_iff. tauto.
Qed.

Lemma carve_ascending (ws cur cur' p q : list Row) (r : Row) :
  cur = (r :: p ++ q) ++ cur' ->
  ascending (ws ++ cur) -> ascending ((ws ++ p) ++ cur').
Proof.
  intros -> H.
  change ((r :: p ++ q) ++ cur') with ([r] ++ ((p ++ q) ++ cur')) in H.
  apply ascending_drop_middle in H.
  rewrite <- (app_assoc p q cur'), (app_assoc ws p (q ++ cur')) in H.
  now apply ascending_drop_middle in H.
Qed.

Lemma sound_file_of (limit : Z) (tbl : Table) (ws rest : list Row) :
  (forall r, In r (ws ++ rest) -> In r tbl /\ aid r <= limit) ->
  (primary_key tbl -> ascending (ws ++ rest)) ->
  sound_file limit tbl (map record_of ws).
Proof.
  intros Hin Hasc. exists ws. split; [reflexivity|]. split.
  - intros r Hr. apply Hin, in_or_app. now left.
  - intro Hpk. exact (ascending_app_l _ _ (Hasc Hpk)).
Qed.

Lemma file_cursor_finish (env : Env) (out : Sink) :
  file (cursor_finish env out) = out.
Proof. unfold cursor_finish. destruct (close_err env); reflexivity. Qed.

Lemma cursor_body_inv (env : Env) (limit batchSize : Z) (tbl : Table)
    (st : CursorSt) :
  cursor_inv limit tbl st ->
  match cursor_body env batchSize st with
  | inl st' => cursor_inv limit tbl st'
  | inr run => sound_file limit tbl (file run)
  end.
Proof.
  intros (ws & Hout & Hin & Hasc). unfold cursor_body.
  destruct (query_err env (c_n st)) as [e|].
  { cbn [file fail]. rewrite Hout. eapply sound_file_of; eassumption. }
  unfold fetch.
  pose proof (batch_spec env (Errorf "error writing record to CSV: %v")
                (c_n st) (firstn (Z.to_nat batchSize) (c_cur st))
                (c_out st) 0) as H.
  cbv zeta in H.
  destruct (batch _ _ _ _ _ _) as [[out' lastId'] be].
  destruct H as [[_ H] | (r & p & q & Hgot & Ho & _ & Hbe & Hq)].
  - injection H as -> _ ->. rewrite file_cursor_finish, Hout.
    eapply sound_file_of; eassumption.
  - cbn [fst snd] in Ho, Hbe, Hq.
    assert (Hcur : c_cur st =
                   (r :: p ++ q) ++ skipn (Z.to_nat batchSize) (c_cur st)).
    { rewrite <- Hgot. symmetry. apply firstn_skipn. }
    assert (Hin' : forall x,
               In x ((ws ++ p) ++ skipn (Z.to_nat batchSize) (c_cur st)) ->
               In x tbl /\ aid x <= limit).
    { intros x Hx. apply Hin. eapply carve_In; eassumption. }
    assert (Hasc' : primary_key tbl ->
               ascending ((ws ++ p) ++ skipn (Z.to_nat batchSize) (c_cur st))).
    { intro Hpk. eapply carve_ascending; eauto. }
    assert (Hout' : out' = map record_of (ws ++ p)).
    { rewrite Ho, Hout, map_app. reflexivity. }
    destruct be as [|e|]; [congruence | |].
    + cbn [file fail]. rewrite Hout'. eapply sound_file_of; eassumption.
    + exists (ws ++ p). cbn [c_out c_cur]. auto.
Qed.

Lemma offset_body_inv (env : Env) (limit batchSize : Z) (tbl : Table)
    (st : OffsetSt) :
  offset_inv limit tbl st ->
  match offset_body env tbl limit batchSize st with
  | inl st' => offset_inv limit tbl st'
  | inr run => sound_file limit tbl (file run)
  end.
Proof.
  intros (Hoff & ws & Hout & Hin & Hasc). unfold offset_body.
  destruct (query_err env (o_n st)) as [e|].
  { cbn [file fail]. rewrite Hout. eapply sound_file_of; eassumption. }
  set (cur := sql_offset (o_offset st) (select_le limit tbl)) in *.
  unfold sql_limit.
  pose proof (batch_spec env (fun e => e) (o_n st)
                (firstn (Z.to_nat batchSize) cur) (o_out st) 0) as H.
  cbv zeta in H.
  destruct (batch _ _ _ _ _ _) as [[out' lastId'] be].
  destruct H as [[_ H] | (r & p & q & Hgot & Ho & _ & Hbe & Hq)].
  - injection H as -> _ ->. cbn [file offset_finish]. rewrite Hout.
    eapply sound_file_of; eassumption.
  - cbn [fst snd] in Ho, Hbe, Hq.
    assert (Hcur : cur = (r :: p ++ q) ++ skipn (Z.to_nat batchSize) cur).
    { rewrite <- Hgot. symmetry. apply firstn_skipn. }
    assert (Hin' : forall x,
               In x ((ws ++ p) ++ skipn (Z.to_nat batchSize) cur) ->
               In x tbl /\ aid x <= limit).
    { intros x Hx. apply Hin. eapply carve_In; eassumption. }
    assert (Hasc' : primary_key tbl ->
               ascending ((ws ++ p) ++ skipn (Z.to_nat batchSize) cur)).
    { intro Hpk. eapply carve_ascending; eauto. }
    assert (Hout' : out' = map record_of (ws ++ p)).
    { rewrite Ho, Hout, map_app. reflexivity. }
    destruct be as [|e|]; [congruence | |].
    + cbn [file fail]. rewrite Hout'. eapply sound_file_of; eassumption.
    + assert (Hb : 0 < batchSize).
      { destruct (Z.to_nat batchSize) eqn:E; [discriminate Hgot | lia]. }
      assert (Hnext : sql_offset (o_offset st + batchSize)
                        (select_le limit tbl) =
                      skipn (Z.to_nat batchSize) cur).
      { unfold cur, sql_offset. rewrite skipn_skipn. f_equal. lia. }
      split; cbn [o_offset o_out]; [lia|].
      exists (ws ++ p). rewrite Hnext. auto.
Qed.

Lemma custom_body_inv (env : Env) (limit batchSize : Z) (tbl : Table)
    (st : CustomSt) :
  custom_inv limit tbl st ->
  match custom_body env tbl limit batchSize st with
  | inl st' => custom_inv limit tbl st'
  | inr run => sound_file limit tbl (file run)
  end.
Proof.
  intros (ws & Hout & Hin & Hasc). unfold custom_body.
  assert (Hsound : sound_file limit tbl (map record_of ws)).
  { exists ws. repeat split; try apply Hin; auto. intro Hpk. now apply Hasc. }
  destruct (query_err env (k_n st)) as [e|].
  { cbn [file fail]. now rewrite Hout. }
  set (sel := select_between (k_lastId st) limit tbl).
  unfold sql_limit.
  pose proof (batch_spec env (Errorf "error writing record to CSV: %v\n")
                (k_n st) (firstn (Z.to_nat batchSize) sel)
                (k_out st) (k_lastId st)) as H.
  cbv zeta in H.
  destruct (batch _ _ _ _ _ _) as [[out' lastId'] be].
  destruct H as [[_ H] | (r & p & q & Hgot & Ho & Hl & Hbe & Hq)].
  - injection H as -> _ ->. cbn [file custom_finish]. now rewrite Hout.
  - cbn [fst snd] in Ho, Hl, Hbe, Hq.
    assert (Hp : forall x, In x p ->
               In x tbl /\ k_lastId st < aid x <= limit).
    { intros x Hx. apply (select_between_In (k_lastId st) limit tbl).
      fold sel. rewrite <- (firstn_skipn (Z.to_nat batchSize) sel), Hgot.
      apply in_or_app. left. right. apply in_or_app. now left. }
    assert (Hpasc : primary_key tbl -> ascending p).
    { intro Hpk.
      pose proof (ascending_firstn (Z.to_nat batchSize) sel
                    (select_between_ascending _ _ _ Hpk)) as Ha.
      rewrite Hgot in Ha.
      change (r :: p ++ q) with ([r] ++ p ++ q) in Ha.
      exact (ascending_app_l _ _ (ascending_app_r _ _ Ha)). }
    assert (Hin' : forall x, In x (ws ++ p) -> In x tbl /\ aid x <= limit).
    { intros x Hx. apply in_app_or in Hx as [Hx | Hx]; [now apply Hin|].
      destruct (Hp x Hx). split; [assumption | lia]. }
    assert (Hasc' : primary_key tbl ->
               ascending (ws ++ p) /\
               forall x, In x (ws ++ p) -> aid x <= lastId').
    { intro Hpk. destruct (Hasc Hpk) as [Hws Hle].
      destruct (last_ascending p (k_lastId st) (Hpasc Hpk)) as [H1 H2].
      { intros y Hy. apply Hp. assumption. }
      rewrite <- Hl in H1, H2. split.
      - apply ascending_app. repeat split; auto.
        intros x y Hx Hy. specialize (Hle x Hx).
        destruct (Hp y Hy) as [_ ?]. lia.
      - intros x Hx. apply in_app_or in Hx as [Hx | Hx].
        + specialize (Hle x Hx). lia.
        + now apply H2. }
    assert (Hout' : out' = map record_of (ws ++ p)).
    { rewrite Ho, Hout, map_app. reflexivity. }
    destruct be as [|e|]; [congruence | |].
    + cbn [file fail]. rewrite Hout'. exists (ws ++ p).
      split; [reflexivity|]. split; [assumption|].
      intro Hpk. now apply Hasc'.
    + exists (ws ++ p). cbn [k_out k_lastId]. auto.
Qed.

(** The file of each strategy, at any point of any run. *)
Lemma cursor_file_sound (env : Env) (tbl : Table) (limit batchSize : Z)
    (fuel : nat) :
  sound_file limit tbl
    (cursor_file (fetchWithCursor env tbl limit batchSize fuel)).
Proof.
  unfold fetchWithCursor.
  destruct (create_err env); [apply sound_file_nil|].
  destruct (begin_err env); [apply sound_file_nil|].
  destruct (declare_err env); [apply sound_file_nil|].
  pose proof (loop_invariant (cursor_body env batchSize)
                (cursor_inv limit tbl)
                (fun run => sound_file limit tbl (file run))
                (cursor_body_inv env limit batchSize tbl) fuel
                {| c_n := 0; c_cur := select_le limit tbl; c_out := [] |})
    as H.
  destruct (loop _ _ _) as [st|run]; cbn [cursor_file].
  - destruct H as (ws & Hout & Hin & Hasc).
    + exists []. cbn [c_out c_cur map app]. split; [reflexivity|]. split.
      * intros r Hr. now apply select_le_In.
      * apply select_le_ascending.
    + rewrite Hout. eapply sound_file_of; eassumption.
  - apply H. exists []. cbn [c_out c_cur map app]. split; [reflexivity|]. split.
    + intros r Hr. now apply select_le_In.
    + apply select_le_ascending.
Qed.

Lemma offset_file_sound (env : Env) (tbl : Table) (limit batchSize : Z)
    (fuel : nat) :
  sound_file limit tbl
    (offset_file (fetchWithOffsetLimit env tbl limit batchSize fuel)).
Proof.
  unfold fetchWithOffsetLimit.
  destruct (create_err env); [apply sound_file_nil|].
  assert (H0 : offset_inv limit tbl
                 {| o_n := 0; o_offset := 0; o_out := [] |}).
  { split; [cbn; lia|]. exists []. cbn [o_out o_offset map app].
    split; [reflexivity|]. unfold sql_offset. cbn [Z.to_nat skipn]. split.
    - intros r Hr. now apply select_le_In.
    - apply select_le_ascending. }
  pose proof (loop_invariant (offset_body env tbl limit batchSize)
                (offset_inv limit tbl)
                (fun run => sound_file limit tbl (file run))
                (offset_body_inv env limit batchSize tbl) fuel _ H0) as H.
  destruct (loop _ _ _) as [st|run]; cbn [offset_file]; [|exact H].
  destruct H as (_ & ws & Hout & Hin & Hasc).
  rewrite Hout. eapply sound_file_of; eassumption.
Qed.

Lemma custom_file_sound (env : Env) (tbl : Table) (limit batchSize : Z)
    (fuel : nat) :
  sound_file limit tbl
    (custom_file (fetchWithCustomCursor env tbl limit batchSize fuel)).
Proof.
  unfold fetchWithCustomCursor.
  destruct (create_err env); [apply sound_file_nil|].
  assert (H0 : custom_inv limit tbl
                 {| k_n := 0; k_lastId := 0; k_out := [] |}).
  { exists []. cbn [k_out k_lastId map]. split; [reflexivity|]. split.
    - intros r [].
    - intros _. split; [apply ascending_nil | intros r []]. }
  pose proof (loop_invariant (custom_body env tbl limit batchSize)
                (custom_inv limit tbl)
                (fun run => sound_file limit tbl (file run))
                (custom_body_inv env limit batchSize tbl) fuel _ H0) as H.
  destruct (loop _ _ _) as [st|run]; cbn [custom_file]; [|exact H].
  destruct H as (ws & Hout & Hin & Hasc).
  exists ws. split; [assumption|]. split; [assumption|].
  intro Hpk. now apply Hasc.
Qed.

(* ================================================================== *)
(** * Batches *)

Lemma batches_fuel_enough {A : Type} (k : nat) :
  forall (f1 f2 : nat) (l : list A),
    (length l <= f1)%nat -> (length l <= f2)%nat ->
    batches_fuel f1 k l = batches_fuel f2 k l.
Proof.
  induction f1 as [|f1 IH]; intros f2 l H1 H2.
  - destruct l; [|cbn in H1; lia]. destruct f2; [reflexivity|].
    cbn [batches_fuel]. now rewrite firstn_nil.
  - destruct f2 as [|f2].
    + destruct l; [|cbn in H2; lia]. cbn [batches_fuel]. now rewrite firstn_nil.
    + cbn [batches_fuel]. destruct k as [|k]; [reflexivity|].
      destruct l as [|x l]; [reflexivity|]. cbn [firstn skipn]. f_equal.
      cbn [length] in H1, H2. pose proof (length_skipn k l).
      apply IH; lia.
Qed.

Lemma batches_step {A : Type} (b : Z) (l : list A) :
  batches b l =
  match firstn (Z.to_nat b) l with
  | [] => []
  | c => c :: batches b (skipn (Z.to_nat b) l)
  end.
Proof.
  unfold batches. destruct l as [|x l].
  - rewrite firstn_nil. reflexivity.
  - cbn [length batches_fuel]. destruct (Z.to_nat b) as [|k]; [reflexivity|].
    cbn [firstn skipn]. f_equal. pose proof (length_skipn k l).
    apply batches_fuel_enough; lia.
Qed.

Lemma batches_map {A B : Type} (f : A -> B) (b : Z) (l : list A) :
  batches b (map f l) = map (map f) (batches b l).
Proof.
  unfold batches. rewrite length_map. generalize (length l) as fuel.
  intro fuel. revert l. induction fuel as [|fuel IH]; intro l; [reflexivity|].
  cbn [batches_fuel]. rewrite firstn_map, skipn_map.
  destruct (firstn (Z.to_nat b) l) as [|x c] eqn:E; [reflexivity|].
  cbn [map]. f_equal. apply IH.
Qed.

Lemma tails_map {A B : Type} (f : A -> B) (bs : list (list A)) :
  tails (map (map f) bs) = map f (tails bs).
Proof.
  unfold tails. rewrite concat_map, !map_map. f_equal.
  apply map_ext. intro c. now rewrite tl_map.
Qed.

Lemma tails_cons {A : Type} (c : list A) (bs : list (list A)) :
  tails (c :: bs) = tl c ++ tails bs.
Proof. reflexivity. Qed.

(** The batches together are the whole list, when the batch size is
    positive. *)
Lemma concat_batches {A : Type} (b : Z) (l : list A) :
  0 < b -> concat (batches b l) = l.
Proof.
  intro Hb. remember (length l) as n eqn:Hn.
  revert l Hn. induction n as [n IH] using lt_wf_ind. intros l Hn.
  rewrite batches_step. destruct l as [|x l]; [now rewrite firstn_nil|].
  destruct (Z.to_nat b) as [|k] eqn:Ek; [lia|].
  cbn [firstn skipn concat].
  rewrite (IH (length (skipn k l)) ltac:(subst n; cbn [length];
             pose proof (length_skipn k l); lia) _ eq_refl).
  cbn [app]. f_equal. apply firstn_skipn.
Qed.

(** When a batch has one row, no later batch has more, and nothing is kept
    from there on. *)
Lemma single_batch_next {A : Type} (k : nat) (l : list A) (x : A) :
  firstn k l = [x] ->
  firstn k (skipn k l) = [] \/ exists y, firstn k (skipn k l) = [y].
Proof.
  destruct k as [|[|k]]; intro H.
  - discriminate.
  - destruct (skipn 1 l) as [|y t]; [now left|]. right. now exists y.
  - destruct l as [|z l]; [discriminate|]. cbn [firstn] in H.
    injection H as _ H. destruct l as [|z' l]; [|discriminate].
    left. reflexivity.
Qed.

Lemma tails_single_batch {A : Type} (k : nat) :
  forall (fuel : nat) (l : list A) (x : A),
    firstn k l = [x] -> tails (batches_fuel fuel k l) = [].
Proof.
  induction fuel as [|fuel IH]; intros l x H; [reflexivity|].
  cbn [batches_fuel]. rewrite H, tails_cons. cbn [tl app].
  destruct (single_batch_next k l x H) as [E | [y E]].
  - destruct fuel; [reflexivity|]. cbn [batches_fuel]. now rewrite E.
  - now apply (IH _ y).
Qed.

(* ================================================================== *)
(** * Runs in which the loop meets no error *)

Lemma calm_quiet (secs : string) : calm (quiet secs).
Proof. repeat split. Qed.

Lemma batch_calm (env : Env) (w : error -> error) (n : nat)
    (got : list Row) (out : Sink) (lastId : Z) :
  calm env ->
  batch env w n (open_rows env n got) out lastId =
  match got with
  | [] => (out, lastId, Break)
  | _ :: rest =>
      (out ++ map record_of rest, last (map aid rest) lastId, Next_batch)
  end.
Proof. intros (_ & Hst & Hs & Hw). apply batch_quiet; auto. Qed.

(** ** The cursor *)

Lemma cursor_loop_calm (env : Env) (batchSize : Z) :
  calm env ->
  forall (fuel : nat) (st : CursorSt),
    (length (c_cur st) < fuel)%nat ->
    loop (cursor_body env batchSize) fuel st =
    inr (cursor_finish env
           (c_out st ++ map record_of (tails (batches batchSize (c_cur st))))).
Proof.
  intro Hc. induction fuel as [|fuel IH]; intros [n cur out] Hlen; [lia|].
  cbn [c_cur c_out] in *. cbn [loop]. unfold cursor_body at 1.
  cbn [c_n c_cur c_out]. rewrite (proj1 Hc). unfold fetch.
  rewrite batch_calm by assumption. rewrite batches_step.
  destruct (firstn (Z.to_nat batchSize) cur) as [|r rest] eqn:E.
  - cbn [tails concat map]. now rewrite app_nil_r.
  - rewrite IH.
    + cbn [c_out c_cur]. rewrite tails_cons. cbn [tl].
      now rewrite map_app, app_assoc.
    + cbn [c_cur]. destruct (Z.to_nat batchSize) as [|k]; [discriminate|].
      destruct cur as [|x cur]; [discriminate|]. cbn [skipn length] in *.
      pose proof (length_skipn k cur). lia.
Qed.

(** ** Offset/limit *)

Lemma offset_loop_calm (env : Env) (tbl : Table) (limit batchSize : Z) :
  calm env ->
  forall (fuel : nat) (st : OffsetSt),
    0 <= o_offset st ->
    (length (sql_offset (o_offset st) (select_le limit tbl)) < fuel)%nat ->
    loop (offset_body env tbl limit batchSize) fuel st =
    inr (offset_finish env
           (o_out st ++
            map record_of
              (tails (batches batchSize
                        (sql_offset (o_offset st) (select_le limit tbl)))))).
Proof.
  intro Hc. induction fuel as [|fuel IH]; intros [n off out] Hoff Hlen; [lia|].
  cbn [o_offset o_out] in *. cbn [loop]. unfold offset_body at 1.
  cbn [o_n o_offset o_out]. rewrite (proj1 Hc). unfold sql_limit.
  rewrite batch_calm by assumption. rewrite batches_step.
  set (cur := sql_offset off (select_le limit tbl)) in *.
  destruct (firstn (Z.to_nat batchSize) cur) as [|r rest] eqn:E.
  - cbn [tails concat map]. now rewrite app_nil_r.
  - assert (Hb : 0 < batchSize).
    { destruct (Z.to_nat batchSize) eqn:Ek; [discriminate E | lia]. }
    assert (Hnext : sql_offset (off + batchSize) (select_le limit tbl) =
                    skipn (Z.to_nat batchSize) cur).
    { unfold cur, sql_offset. rewrite skipn_skipn. f_equal. lia. }
    rewrite IH; cbn [o_offset o_out]; rewrite ?Hnext.
    + rewrite tails_cons. cbn [tl]. now rewrite map_app, app_assoc.
    + lia.
    + destruct (Z.to_nat batchSize) as [|k]; [discriminate|].
      destruct cur as [|x cur']; [discriminate|]. cbn [skipn length] in *.
      pose proof (length_skipn k cur'). lia.
Qed.

(** ** The custom cursor *)

Lemma last_In (l : list Z) (d : Z) : In (last l d) (d :: l).
Proof.
  revert d. induction l as [|x l IH]; intro d; [now left|].
  rewrite last_cons. right. apply IH.
Qed.

Lemma last_nonempty (l : list Z) (d d' : Z) :
  l <> [] -> last l d = last l d'.
Proof.
  destruct l as [|x l]; [congruence|]. intros _. now rewrite !last_cons.
Qed.

Lemma filter_none {A : Type} (f : A -> bool) (l : list A) :
  (forall x, In x l -> f x = false) -> filter f l = [].
Proof.
  induction l as [|x l IH]; intro H; [reflexivity|]. cbn [filter].
  rewrite (H x (or_introl eq_refl)). apply IH. intros y Hy. apply H. now right.
Qed.

Lemma filter_all {A : Type} (f : A -> bool) (l : list A) :
  (forall x, In x l -> f x = true) -> filter f l = l.
Proof.
  induction l as [|x l IH]; intro H; [reflexivity|]. cbn [filter].
  rewrite (H x (or_introl eq_refl)). f_equal. apply IH.
  intros y Hy. apply H. now right.
Qed.

Lemma filter_filter_implied {A : Type} (p q : A -> bool) (l : list A) :
  (forall x, q x = true -> p x = true) ->
  filter q (filter p l) = filter q l.
Proof.
  intro H. induction l as [|x l IH]; [reflexivity|]. cbn [filter].
  destruct (p x) eqn:Ep; cbn [filter]; rewrite IH; [reflexivity|].
  destruct (q x) eqn:Eq; [|reflexivity]. rewrite (H x Eq) in Ep. discriminate.
Qed.

(** After a batch of two rows or more the next query starts where the batch
    ended. *)
Lemma select_between_advance (tbl : Table) (limit w : Z) (k : nat)
    (r : Row) (p : list Row) :
  primary_key tbl ->
  firstn k (select_between w limit tbl) = r :: p ->
  p <> [] ->
  select_between (last (map aid p) w) limit tbl =
  skipn k (select_between w limit tbl).
Proof.
  intros Hpk Hgot Hp.
  pose proof (select_between_ascending w limit tbl Hpk) as Hasc.
  set (suf := select_between w limit tbl) in *.
  assert (Hsplit : suf = (r :: p) ++ skipn k suf).
  { rewrite <- Hgot. symmetry. apply firstn_skipn. }
  rewrite Hsplit in Hasc. apply ascending_app in Hasc as (Hgp & _ & Hcross).
  apply ascending_cons in Hgp as [Hpasc Hrp].
  assert (Hw : w < aid r).
  { apply (select_between_In w limit tbl r). fold suf. rewrite Hsplit.
    now left. }
  rewrite (last_nonempty (map aid p) w (aid r))
    by (destruct p; [congruence | discriminate]).
  set (w' := last (map aid p) (aid r)).
  destruct (last_ascending p (aid r) Hpasc Hrp) as [Hrw Hpw].
  fold w' in Hrw, Hpw.
  assert (Hw'in : exists x, In x (r :: p) /\ aid x = w').
  { pose proof (last_In (map aid p) (aid r)) as Hin. fold w' in Hin.
    destruct Hin as [Hin | Hin].
    - exists r. split; [now left | assumption].
    - apply in_map_iff in Hin as [x [Hx Hxin]]. exists x.
      split; [now right | assumption]. }
  rewrite (select_between_filter w' limit tbl Hpk).
  rewrite <- (filter_filter_implied (fun x => w <? aid x)).
  2:{ intros x Hx. apply Z.ltb_lt in Hx. apply Z.ltb_lt. lia. }
  rewrite <- (select_between_filter w limit tbl Hpk). fold suf.
  rewrite Hsplit at 1. rewrite filter_app, filter_none, filter_all.
  - reflexivity.
  - intros y Hy. apply Z.ltb_lt. destruct Hw'in as (x & Hx & <-).
    now apply Hcross.
  - intros y [<- | Hy]; apply Z.ltb_ge; [assumption | now apply Hpw].
Qed.

(** On a batch of one row the custom cursor makes no progress: the row is
    taken by the emptiness check, nothing is written, [lastId] stays, and
    the same query is sent again. *)
Lemma custom_body_single (env : Env) (tbl : Table) (limit batchSize : Z)
    (st : CustomSt) (r : Row) :
  calm env ->
  sql_limit batchSize (select_between (k_lastId st) limit tbl) = [r] ->
  custom_body env tbl limit batchSize st =
  inl {| k_n := S (k_n st); k_lastId := k_lastId st; k_out := k_out st |}.
Proof.
  intros Hc H. unfold custom_body. rewrite (proj1 Hc), H.
  rewrite batch_calm by assumption. cbn [map last]. now rewrite app_nil_r.
Qed.

Lemma custom_loop_single (env : Env) (tbl : Table) (limit batchSize : Z)
    (lastId : Z) (out : Sink) (r : Row) :
  calm env ->
  sql_limit batchSize (select_between lastId limit tbl) = [r] ->
  forall (fuel n : nat),
    loop (custom_body env tbl limit batchSize) fuel
      {| k_n := n; k_lastId := lastId; k_out := out |} =
    inl {| k_n := (fuel + n)%nat; k_lastId := lastId; k_out := out |}.
Proof.
  intros Hc H. induction fuel as [|fuel IH]; intro n; [reflexivity|].
  cbn [loop].
  rewrite (custom_body_single env tbl limit batchSize
             {| k_n := n; k_lastId := lastId; k_out := out |} r Hc H).
  cbn [k_n k_lastId k_out]. rewrite IH. do 2 f_equal. lia.
Qed.

Lemma custom_loop_calm (env : Env) (tbl : Table) (limit batchSize : Z) :
  calm env -> primary_key tbl ->
  forall (fuel : nat) (st : CustomSt),
    (length (select_between (k_lastId st) limit tbl) < fuel)%nat ->
    custom_file (loop (custom_body env tbl limit batchSize) fuel st) =
    k_out st ++
    map record_of
      (tails (batches batchSize (select_between (k_lastId st) limit tbl))).
Proof.
  intros Hc Hpk. induction fuel as [|fuel IH]; intros [n w out] Hlen; [lia|].
  cbn [k_lastId k_out] in *.
  set (suf := select_between w limit tbl) in *.
  destruct (firstn (Z.to_nat batchSize) suf) as [|r [|r2 rest]] eqn:E.
  - cbn [loop]. unfold custom_body. cbn [k_n k_lastId k_out].
    rewrite (proj1 Hc). unfold sql_limit. fold suf. rewrite E.
    rewrite batch_calm by assumption. cbn [custom_file file custom_finish].
    rewrite batches_step, E. cbn. now rewrite app_nil_r.
  - rewrite (custom_loop_single env tbl limit batchSize w out r Hc E).
    cbn [custom_file k_out]. unfold batches.
    rewrite (tails_single_batch _ _ _ r E). cbn. now rewrite app_nil_r.
  - cbn [loop]. unfold custom_body at 1. cbn [k_n k_lastId k_out].
    rewrite (proj1 Hc). unfold sql_limit. fold suf. rewrite E.
    rewrite batch_calm by assumption.
    pose proof (select_between_advance tbl limit w (Z.to_nat batchSize)
                  r (r2 :: rest) Hpk E ltac:(discriminate)) as Hadv.
    fold suf in Hadv.
    rewrite IH; cbn [k_lastId k_out]; rewrite Hadv.
    + rewrite (batches_step batchSize suf), E, tails_cons. cbn [tl].
      now rewrite map_app, app_assoc.
    + destruct (Z.to_nat batchSize) as [|k]; [discriminate|].
      destruct suf as [|x suf']; [discriminate|]. cbn [skipn length] in *.
      pose proof (length_skipn k suf'). lia.
Qed.

(** ** Whole runs *)

Lemma fetchWithCursor_calm (env : Env) (tbl : Table) (limit batchSize : Z)
    (fuel : nat) :
  calm env -> opens env ->
  (length (select_le limit tbl) < fuel)%nat ->
  fetchWithCursor env tbl limit batchSize fuel =
  inr (cursor_finish env
         (map record_of (tails (batches batchSize (select_le limit tbl))))).
Proof.
  intros Hc (H1 & H2 & H3) Hlen. unfold fetchWithCursor.
  rewrite H1, H2, H3. now rewrite cursor_loop_calm.
Qed.

Lemma fetchWithOffsetLimit_calm (env : Env) (tbl : Table)
    (limit batchSize : Z) (fuel : nat) :
  calm env -> opens env ->
  (length (select_le limit tbl) < fuel)%nat ->
  fetchWithOffsetLimit env tbl limit batchSize fuel =
  inr (offset_finish env
         (map record_of (tails (batches batchSize (select_le limit tbl))))).
Proof.
  intros Hc (H1 & _) Hlen. unfold fetchWithOffsetLimit. rewrite H1.
  rewrite (offset_loop_calm env tbl limit batchSize Hc);
    cbn [o_offset o_out]; [reflexivity | lia | assumption].
Qed.

Lemma select_between_length (lastId limit : Z) (tbl : Table) :
  (length (select_between lastId limit tbl) <=
   length (select_le limit tbl))%nat.
Proof.
  unfold select_between, select_le.
  rewrite (Permutation_length (order_by_aid_perm _)).
  rewrite (Permutation_length (order_by_aid_perm _)).
  induction tbl as [|x l IH]; cbn [filter]; [lia|].
  destruct (aid x <=? limit), (lastId <? aid x); cbn [andb length]; lia.
Qed.

Lemma fetchWithCustomCursor_calm (env : Env) (tbl : Table)
    (limit batchSize : Z) (fuel : nat) :
  calm env -> opens env -> primary_key tbl ->
  (length (select_le limit tbl) < fuel)%nat ->
  custom_file (fetchWithCustomCursor env tbl limit batchSize fuel) =
  map record_of (tails (batches batchSize (select_between 0 limit tbl))).
Proof.
  intros Hc (H1 & _) Hpk Hlen. unfold fetchWithCustomCursor. rewrite H1.
  rewrite (custom_loop_calm env tbl limit batchSize Hc Hpk);
    cbn [k_lastId k_out]; [reflexivity|].
  pose proof (select_between_length 0 limit tbl). lia.
Qed.

(** With every key of the table positive the custom cursor's first query
    selects what the other strategies select. *)
Lemma select_between_0 (limit : Z) (tbl : Table) :
  (forall r, In r tbl -> 0 < aid r) ->
  select_between 0 limit tbl = select_le limit tbl.
Proof.
  intro H. unfold select_between, select_le. f_equal.
  apply filter_ext_in. intros r Hr.
  destruct (Z.ltb_spec 0 (aid r)); [reflexivity|]. specialize (H r Hr). lia.
Qed.

(** ** Heads and tails of batches *)

Lemma heads_tails_perm {A : Type} (bs : list (list A)) :
  Permutation (heads bs ++ tails bs) (concat bs).
Proof.
  induction bs as [|c bs IH]; [reflexivity|].
  unfold heads, tails in *. cbn [map concat].
  rewrite <- app_assoc.
  rewrite (Permutation_app_swap_app (concat (map (firstn 1) bs))).
  rewrite !app_assoc, <- app_assoc.
  apply Permutation_app; [|exact IH].
  destruct c; reflexivity.
Qed.

Lemma heads_xor_tails (bs : list (list Row)) (r : Row) :
  ascending (concat bs) -> In r (concat bs) ->
  (In r (tails bs) <-> ~ In r (heads bs)).
Proof.
  intros Hasc Hin.
  assert (Hnd : NoDup (heads bs ++ tails bs)).
  { apply (Permutation_NoDup (Permutation_sym (heads_tails_perm bs))).
    apply (NoDup_map_inv aid), ascending_NoDup, Hasc. }
  apply (Permutation_in _ (Permutation_sym (heads_tails_perm bs))) in Hin.
  apply in_app_or in Hin. split.
  - intros Ht Hh. apply NoDup_app_remove_r in Hnd as Hnd'.
    revert Hnd Ht Hh. clear. induction (heads bs) as [|h hs IH]; cbn.
    + intros _ _ [].
    + intros Hnd Ht [<- | Hh].
      * inversion Hnd as [|? ? Hn _]; subst. apply Hn, in_or_app. now right.
      * inversion Hnd; subst. now apply IH.
  - tauto.
Qed.

Lemma In_map_record_of (r : Row) (ws : list Row) :
  In (record_of r) (map record_of ws) <-> In r ws.
Proof.
  split; [|apply in_map]. intro H. apply in_map_iff in H as [x [Hx Hin]].
  apply record_of_inj in Hx. now subst.
Qed.

Lemma map_record_key (ws : list Row) :
  map record_key (map record_of ws) = map Some (map aid ws).
Proof.
  rewrite !map_map. apply map_ext. intro r. apply record_key_of.
Qed.

Lemma sound_file_within (limit : Z) (tbl : Table) (out : Sink) :
  sound_file limit tbl out -> Forall (row_within limit tbl) out.
Proof.
  intros (ws & -> & Hin & _). apply Forall_forall. intros rec Hrec.
  apply in_map_iff in Hrec as [r [<- Hr]]. destruct (Hin r Hr).
  exists r. repeat split; auto. apply record_key_of.
Qed.

Lemma sound_file_ascending (limit : Z) (tbl : Table) (out : Sink) :
  primary_key tbl -> sound_file limit tbl out -> keys_ascending out.
Proof.
  intros Hpk (ws & -> & _ & Hasc). exists (map aid ws).
  split; [apply map_record_key | exact (Hasc Hpk)].
Qed.

(* ================================================================== *)
(** * The bound and the order of the rows written *)

(** C8.  In every run of every strategy (whatever fails, and at every point
    of the run) each record of the file is a row of the table whose primary
    key is at most [limit]. *)
Theorem C8_written_keys_within_limit (ec eo ek : Env) (tbl : Table)
    (limit batchSize : Z) (fuel : nat) :
  Forall (row_within limit tbl)
    (cursor_file (fetchWithCursor ec tbl limit batchSize fuel)) /\
  Forall (row_within limit tbl)
    (offset_file (fetchWithOffsetLimit eo tbl limit batchSize fuel)) /\
  Forall (row_within limit tbl)
    (custom_file (fetchWithCustomCursor ek tbl limit batchSize fuel)).
Proof.
  repeat split; apply sound_file_within;
    [apply cursor_file_sound | apply offset_file_sound
     | apply custom_file_sound].
Qed.

(* ================================================================== *)
(** * The first row of every batch *)

(** C10.  In each of the three strategies the first row of every batch the
    data source delivers is taken by the emptiness check and is neither
    scanned nor written:
    - in any environment, a batch that delivers [r :: rest] adds to the file
      records of a prefix of [rest] only, and what the scan and the write
      of [r] would have answered makes no difference;
    - in a run without errors the file of the cursor and of offset/limit is
      the tails of the batches of the selected rows, the file of the custom
      cursor the tails of the batches of the rows it selects from key 1 on,
      so that of the rows delivered exactly the first of each batch are
      absent from the file;
    - a one-row batch leaves the custom cursor's [lastId] and file as they
      were. *)
Theorem C10_first_row_of_every_batch_dropped (secs : string) (tbl : Table)
    (limit batchSize : Z) (fuel : nat)
    (Hpk : primary_key tbl)
    (Hfuel : (length (select_le limit tbl) < fuel)%nat) :
  let sel := batches batchSize (select_le limit tbl) in
  let sel1 := batches batchSize (select_between 0 limit tbl) in
  let fc :=
    cursor_file (fetchWithCursor (quiet secs) tbl limit batchSize fuel) in
  let fo :=
    offset_file (fetchWithOffsetLimit (quiet secs) tbl limit batchSize fuel) in
  let fk :=
    custom_file (fetchWithCustomCursor (quiet secs) tbl limit batchSize fuel) in
  (forall env w n got out lastId r rest,
      pending (open_rows env n got) = r :: rest ->
      exists p q,
        rest = p ++ q /\
        fst (fst (batch env w n (open_rows env n got) out lastId)) =
        out ++ map record_of p) /\
  (forall env env' w n got out lastId,
      alike_after_first n env env' ->
      batch env w n (open_rows env n got) out lastId =
      batch env' w n (open_rows env' n got) out lastId) /\
  (fc = map record_of (tails sel) /\
   fo = map record_of (tails sel) /\
   fk = map record_of (tails sel1)) /\
  (0 < batchSize ->
   concat sel = select_le limit tbl /\
   concat sel1 = select_between 0 limit tbl) /\
  (forall r, In r (concat sel) ->
     (In (record_of r) fc <-> ~ In r (heads sel)) /\
     (In (record_of r) fo <-> ~ In r (heads sel))) /\
  (forall r, In r (concat sel1) ->
     (In (record_of r) fk <-> ~ In r (heads sel1))) /\
  (forall env st r,
      calm env ->
      sql_limit batchSize (select_between (k_lastId st) limit tbl) = [r] ->
      custom_body env tbl limit batchSize st =
      inl {| k_n := S (k_n st); k_lastId := k_lastId st;
             k_out := k_out st |}).
Proof.
  intros sel sel1 fc fo fk.
  assert (Hq : calm (quiet secs)) by apply calm_quiet.
  assert (Ho : opens (quiet secs)) by (repeat split).
  assert (Efc : fc = map record_of (tails sel)).
  { unfold fc. rewrite fetchWithCursor_calm by assumption.
    cbn [cursor_file]. apply file_cursor_finish. }
  assert (Efo : fo = map record_of (tails sel)).
  { unfold fo. now rewrite fetchWithOffsetLimit_calm. }
  assert (Efk : fk = map record_of (tails sel1)).
  { unfold fk. now rewrite fetchWithCustomCursor_calm. }
  split; [|split; [|split; [|split; [|split; [|split]]]]].
  - intros env w n got out lastId r rest Hpend.
    pose proof (batch_spec env w n got out lastId) as H. cbv zeta in H.
    destruct H as [[H _] | (r' & p & q & Hgot & Hout & _)]; [congruence|].
    destruct (open_rows_prefix env n got) as (q0 & Hq0 & _).
    rewrite Hpend, Hgot in Hq0. cbn [app] in Hq0. injection Hq0 as _ Hq0.
    unfold batch, rows_Next in *. rewrite Hpend in *.
    cbn [pending rows_Err] in *.
    destruct (scan_write_spec env w n rest 1%nat out lastId)
      as (p1 & q1 & Hrest & Hw & _).
    exists p1, q1. split; [assumption|].
    destruct (scan_write env w n 1 rest out lastId) as [[o l] [e|]];
      cbn [fst snd] in *; [assumption|].
    destruct (rows_Err (open_rows env n got)); assumption.
  - intros env env' w n got out lastId. apply batch_alike.
  - auto.
  - intro Hb. split; apply concat_batches; assumption.
  - intros r Hr. rewrite Efc, Efo, In_map_record_of.
    assert (Hasc : ascending (concat sel)).
    { destruct (Z.ltb_spec 0 batchSize) as [Hb | Hb].
      - unfold sel. rewrite concat_batches by assumption.
        now apply select_le_ascending.
      - unfold sel, batches. replace (Z.to_nat batchSize) with 0%nat by lia.
        destruct (length (select_le limit tbl)); apply ascending_nil. }
    split; now apply heads_xor_tails.
  - intros r Hr. rewrite Efk, In_map_record_of.
    assert (Hasc : ascending (concat sel1)).
    { destruct (Z.ltb_spec 0 batchSize) as [Hb | Hb].
      - unfold sel1. rewrite concat_batches by assumption.
        now apply select_between_ascending.
      - unfold sel1, batches. replace (Z.to_nat batchSize) with 0%nat by lia.
        destruct (length (select_between 0 limit tbl)); apply ascending_nil. }
    now apply heads_xor_tails.
  - intros env st r Hc Hone.
    now apply (custom_body_single env tbl limit batchSize st r).
Qed.

(** The dropped first rows on a table of seven rows, limit 6, batch size 3. *)
Lemma C10_witness :
  primary_key (pgbench 7) /\
  (length (select_le 6 (pgbench 7)) < 9)%nat /\
  cursor_file (fetchWithCursor (quiet "0.01") (pgbench 7) 6 3 9) =
  map record_of (tails (batches 3 (select_le 6 (pgbench 7)))).
Proof.
  assert (Hpk : primary_key (pgbench 7)) by distinct_keys.
  assert (Hlen : (length (select_le 6 (pgbench 7)) < 9)%nat)
    by (vm_compute; lia).
  split; [exact Hpk|]. split; [exact Hlen|].
  pose proof (C10_first_row_of_every_batch_dropped
                "0.01" (pgbench 7) 6 3 9 Hpk Hlen) as H.
  cbv zeta in H. exact (proj1 (proj1 (proj2 (proj2 H)))).
Defined.

(* ================================================================== *)
(** * The three strategies against each other *)

(** The three files of runs without errors are the same when every key of
    the table is positive. *)
Lemma same_files (secs : string) (tbl : Table) (limit batchSize : Z)
    (fuel : nat) :
  primary_key tbl ->
  (forall r, In r tbl -> 0 < aid r) ->
  (length (select_le limit tbl) < fuel)%nat ->
  let expected :=
    map record_of (tails (batches batchSize (select_le limit tbl))) in
  cursor_file (fetchWithCursor (quiet secs) tbl limit batchSize fuel) =
  expected /\
  offset_file (fetchWithOffsetLimit (quiet secs) tbl limit batchSize fuel) =
  expected /\
  custom_file (fetchWithCustomCursor (quiet secs) tbl limit batchSize fuel) =
  expected.
Proof.
  intros Hpk Hpos Hfuel expected.
  assert (Hq : calm (quiet secs)) by apply calm_quiet.
  assert (Ho : opens (quiet secs)) by (repeat split).
  repeat split.
  - rewrite fetchWithCursor_calm by assumption.
    cbn [cursor_file]. apply file_cursor_finish.
  - now rewrite fetchWithOffsetLimit_calm.
  - rewrite fetchWithCustomCursor_calm by assumption.
    now rewrite select_between_0.
Qed.

(** C3, as the claim states it, fails: on a table with a row of key 0, with
    limit 2 and batch size 3, the cursor strategy and the custom cursor both
    return without error, the first having written two rows and the second
    one. *)
Lemma C3_files_differ_on_key_zero :
  primary_key zero_keyed /\
  exists rc rk,
    fetchWithCursor (quiet "0.00") zero_keyed 2 3 5 = inr rc /\
    fetchWithCustomCursor (quiet "0.00") zero_keyed 2 3 5 = inr rk /\
    Err (hd cursor_result (sent rc)) = None /\
    Err (hd custom_result (sent rk)) = None /\
    file rc = [record_of (mkRow 1 1 0); record_of (mkRow 2 1 0)] /\
    file rk = [record_of (mkRow 2 1 0)] /\
    file rc <> file rk.
Proof.
  split; [distinct_keys|].
  eexists. eexists.
  split; [vm_compute; reflexivity|]. split; [vm_compute; reflexivity|].
  cbn [file sent hd Err set_Message].
  repeat split. vm_compute. discriminate.
Qed.

(** C3, amended.  For every limit and batch size and every unchanging table
    whose primary keys are all positive, when the three strategies are run
    without errors and all three return, they have written the same records
    in the same order: the files of the cursor strategy, of offset/limit
    and of the custom cursor are equal.  (The cursor strategy and
    offset/limit always return; the hypothesis is that the custom cursor
    does.) *)
Theorem C3_same_rows_when_all_return (secs : string) (tbl : Table)
    (limit batchSize : Z) (fuel : nat) (rk : Run)
    (Hpk : primary_key tbl)
    (Hpos : forall r, In r tbl -> 0 < aid r)
    (Hfuel : (length (select_le limit tbl) < fuel)%nat)
    (Hk : fetchWithCustomCursor (quiet secs) tbl limit batchSize fuel =
          inr rk) :
  exists rc ro,
    fetchWithCursor (quiet secs) tbl limit batchSize fuel = inr rc /\
    fetchWithOffsetLimit (quiet secs) tbl limit batchSize fuel = inr ro /\
    file rc = file ro /\ file ro = file rk.
Proof.
  destruct (same_files secs tbl limit batchSize fuel Hpk Hpos Hfuel)
    as (H1 & H2 & H3).
  assert (Hq : calm (quiet secs)) by apply calm_quiet.
  assert (Ho : opens (quiet secs)) by (repeat split).
  rewrite fetchWithCursor_calm in H1 |- * by assumption.
  rewrite fetchWithOffsetLimit_calm in H2 |- * by assumption.
  rewrite Hk in H3. cbn [cursor_file offset_file custom_file] in H1, H2, H3.
  eexists. eexists. split; [reflexivity|]. split; [reflexivity|].
  split; congruence.
Qed.

(** The three files on a table of seven rows, limit 6, batch size 3: the
    custom cursor is given two batches of three rows and returns. *)
Lemma C3_witness :
  primary_key (pgbench 7) /\
  (forall r, In r (pgbench 7) -> 0 < aid r) /\
  (length (select_le 6 (pgbench 7)) < 9)%nat /\
  exists rk,
    fetchWithCustomCursor (quiet "0.01") (pgbench 7) 6 3 9 = inr rk /\
    exists rc ro,
      fetchWithCursor (quiet "0.01") (pgbench 7) 6 3 9 = inr rc /\
      fetchWithOffsetLimit (quiet "0.01") (pgbench 7) 6 3 9 = inr ro /\
      file rc = file ro /\ file ro = file rk.
Proof.
  assert (Hpk : primary_key (pgbench 7)) by distinct_keys.
  assert (Hpos : forall r, In r (pgbench 7) -> 0 < aid r).
  { intros r Hr. vm_compute in Hr.
    repeat (destruct Hr as [<- | Hr]; [reflexivity|]). destruct Hr. }
  assert (Hlen : (length (select_le 6 (pgbench 7)) < 9)%nat)
    by (vm_compute; lia).
  split; [exact Hpk|]. split; [exact Hpos|]. split; [exact Hlen|].
  eexists. refine (conj eq_refl _).
  apply (C3_same_rows_when_all_return
           "0.01" (pgbench 7) 6 3 9 _ Hpk Hpos Hlen eq_refl).
Defined.

(* ================================================================== *)
(** * The table of the scenario *)

Lemma keys_from_S (lo : Z) (n : nat) :
  keys_from lo (S n) = lo :: keys_from (lo + 1) n.
Proof.
  unfold keys_from. cbn [seq map]. f_equal; [lia|].
  rewrite <- seq_shift, map_map. apply map_ext. intro i. lia.
Qed.

Lemma keys_from_ge (n : nat) :
  forall (lo k : Z), In k (keys_from lo n) -> lo <= k.
Proof.
  intros lo k H. unfold keys_from in H.
  apply in_map_iff in H as [i [<- _]]. lia.
Qed.

Lemma keys_from_sorted (n : nat) :
  forall lo : Z, StronglySorted Z.lt (keys_from lo n).
Proof.
  induction n as [|n IH]; intro lo; [constructor|].
  rewrite keys_from_S. constructor; [apply IH|].
  apply Forall_forall. intros k Hk. apply keys_from_ge in Hk. lia.
Qed.

Lemma length_keys_from (lo : Z) (n : nat) : length (keys_from lo n) = n.
Proof. unfold keys_from. now rewrite length_map, length_seq. Qed.

Lemma aid_accounts (bidf balf : Z -> Z) (n : nat) :
  map aid (accounts bidf balf n) = keys_from 1 n.
Proof.
  unfold accounts. rewrite map_map. cbn [aid]. apply map_id.
Qed.

Lemma accounts_ascending (bidf balf : Z -> Z) (n : nat) :
  ascending (accounts bidf balf n).
Proof. unfold ascending. rewrite aid_accounts. apply keys_from_sorted. Qed.

Lemma accounts_primary_key (bidf balf : Z -> Z) (n : nat) :
  primary_key (accounts bidf balf n).
Proof. apply ascending_NoDup, accounts_ascending. Qed.

Lemma accounts_positive (bidf balf : Z -> Z) (n : nat) (r : Row) :
  In r (accounts bidf balf n) -> 0 < aid r.
Proof.
  intro H. apply (in_map aid) in H. rewrite aid_accounts in H.
  apply keys_from_ge in H. lia.
Qed.

(** Selecting up to [limit] from the table keyed [1..n] gives the table
    keyed [1..m], [m] being the number of keys up to [limit]. *)
Lemma select_le_accounts (bidf balf : Z -> Z) (limit : Z) (n m : nat) :
  filter (fun k => k <=? limit) (keys_from 1 n) = keys_from 1 m ->
  select_le limit (accounts bidf balf n) = accounts bidf balf m.
Proof.
  intro H. unfold select_le.
  assert (E : filter (fun r => aid r <=? limit) (accounts bidf balf n) =
              accounts bidf balf m).
  { unfold accounts. rewrite filter_map_swap. cbn [aid]. now rewrite H. }
  rewrite E. apply order_by_aid_sorted, accounts_ascending.
Qed.

(** C1.  What the three strategies write in the scenario of the claim
    (limit 5000, batch size 500, 10000 rows keyed 1..10000 with any values
    in the other fields, no error during the run): the same 4990 records,
    those of the keys 1..5000 that are not first in a batch of 500, with the
    fields of their rows; the rows of keys 1, 501, ..., 4501 are absent. *)
Theorem C1_scenario_writes_4990_rows (bidf balf : Z -> Z) (secs : string)
    (extra : nat) :
  let tbl := accounts bidf balf (Z.to_nat 10000) in
  let fuel := (Z.to_nat 5001 + extra)%nat in
  let row := fun k => mkRow k (bidf k) (balf k) in
  let written :=
    map row (filter (fun k => negb (k mod 500 =? 1))
               (keys_from 1 (Z.to_nat 5000))) in
  cursor_file (fetchWithCursor (quiet secs) tbl 5000 500 fuel) =
  map record_of written /\
  offset_file (fetchWithOffsetLimit (quiet secs) tbl 5000 500 fuel) =
  map record_of written /\
  custom_file (fetchWithCustomCursor (quiet secs) tbl 5000 500 fuel) =
  map record_of written /\
  length (map record_of written) = Z.to_nat 4990 /\
  (forall k, In (record_of (row k)) (map record_of written) <->
             1 <= k <= 5000 /\ k mod 500 <> 1).
Proof.
  intros tbl fuel row written.
  assert (Hsel : select_le 5000 tbl = accounts bidf balf (Z.to_nat 5000)).
  { apply select_le_accounts. vm_compute. reflexivity. }
  assert (Hlen : (length (select_le 5000 tbl) < fuel)%nat).
  { rewrite Hsel. unfold accounts. rewrite length_map, length_keys_from.
    unfold fuel. lia. }
  assert (Hw : map record_of (tails (batches 500 (select_le 5000 tbl))) =
               map record_of written).
  { rewrite Hsel. unfold accounts, written. fold row.
    rewrite batches_map, tails_map.
    apply (f_equal (fun ks => map record_of (map row ks))).
    vm_compute. reflexivity. }
  destruct (same_files secs tbl 5000 500 fuel
              (accounts_primary_key bidf balf (Z.to_nat 10000))
              (accounts_positive bidf balf (Z.to_nat 10000)) Hlen)
    as (H1 & H2 & H3).
  cbv zeta in H1, H2, H3. rewrite Hw in H1, H2, H3.
  split; [exact H1|]. split; [exact H2|]. split; [exact H3|]. split.
  - unfold written. rewrite !length_map. vm_compute. reflexivity.
  - intro k. rewrite In_map_record_of. unfold written.
    rewrite in_map_iff. split.
    + intros (k' & Hk' & Hin). injection Hk' as -> _ _.
      apply filter_In in Hin as [Hin Hmod].
      apply negb_true_iff, Z.eqb_neq in Hmod. split; [|assumption].
      unfold keys_from in Hin. apply in_map_iff in Hin as (i & <- & Hi).
      apply in_seq in Hi. lia.
    + intros [Hk Hmod]. exists k. split; [reflexivity|].
      apply filter_In. split.
      * unfold keys_from. apply in_map_iff. exists (Z.to_nat (k - 1)).
        split; [lia|]. apply in_seq. lia.
      * apply negb_true_iff, Z.eqb_neq. assumption.
Qed.

(* ================================================================== *)
(** * Batch size 1 *)

Lemma tails_batches_one {A : Type} (l : list A) : tails (batches 1 l) = [].
Proof.
  unfold batches. destruct l as [|x l]; [reflexivity|].
  apply (tails_single_batch _ _ _ x). reflexivity.
Qed.

(** With batch size 1 offset/limit ends and has written nothing. *)
Lemma offset_batch_size_one (env : Env) (tbl : Table) (limit : Z)
    (fuel : nat) :
  calm env -> opens env ->
  (length (select_le limit tbl) < fuel)%nat ->
  fetchWithOffsetLimit env tbl limit 1 fuel = inr (offset_finish env []).
Proof.
  intros Hc Ho Hlen. rewrite fetchWithOffsetLimit_calm by assumption.
  now rewrite tails_batches_one.
Qed.

(** With batch size 1 and a row to select, the custom cursor never leaves
    its loop and never writes. *)
Lemma custom_batch_size_one (env : Env) (tbl : Table) (limit : Z) (r : Row) :
  calm env -> create_err env = None ->
  In r tbl -> 0 < aid r <= limit ->
  forall fuel : nat,
    fetchWithCustomCursor env tbl limit 1 fuel =
    inl {| k_n := fuel; k_lastId := 0; k_out := [] |}.
Proof.
  intros Hc Hcr Hin Hr fuel. unfold fetchWithCustomCursor. rewrite Hcr.
  assert (Hsel : In r (select_between 0 limit tbl))
    by (apply select_between_In; auto).
  destruct (select_between 0 limit tbl) as [|x sel] eqn:E; [destruct Hsel|].
  rewrite (custom_loop_single env tbl limit 1 0 [] x Hc).
  - do 2 f_equal. lia.
  - unfold sql_limit. rewrite E. reflexivity.
Qed.

(** C4.  With batch size 1 on the table of one row (key 1, limit 1): the
    row is selected, yet offset/limit ends with an empty file, and the
    custom cursor is still in its loop after any number of rounds, with
    [lastId] 0 and an empty file. *)
Theorem C4_batch_size_one_on_one_row (secs : string) (fuel : nat) :
  select_le 1 one_row = [mkRow 1 1 0] /\
  fetchWithOffsetLimit (quiet secs) one_row 1 1 (2 + fuel) =
  inr {| sent := [{| Type_ := "offset_limit"; Err := None;
                     Message := ("offset limit done in " ++ secs
                                 ++ " second")%string |}];
         ret := None; file := [] |} /\
  fetchWithCustomCursor (quiet secs) one_row 1 1 fuel =
  inl {| k_n := fuel; k_lastId := 0; k_out := [] |}.
Proof.
  split; [reflexivity|]. split.
  - rewrite offset_batch_size_one;
      [reflexivity | apply calm_quiet | repeat split | cbn; lia].
  - apply (custom_batch_size_one (quiet secs) one_row 1 (mkRow 1 1 0));
      [apply calm_quiet | reflexivity | now left | cbn; lia].
Qed.

(* ================================================================== *)
(** * How runs end *)

Lemma loop_measure {St : Type} (body : St -> St + Run)
    (I : St -> Prop) (mu : St -> nat) :
  (forall st, I st ->
     match body st with
     | inl st' => I st' /\ (mu st' < mu st)%nat
     | inr _ => True
     end) ->
  forall fuel st, I st -> (mu st < fuel)%nat ->
    exists run, loop body fuel st = inr run.
Proof.
  intro Hbody. induction fuel as [|fuel IH]; intros st Hst Hmu; [lia|].
  cbn [loop]. specialize (Hbody st Hst). destruct (body st) as [st'|run].
  - destruct Hbody as [HI Hlt]. apply IH; [assumption | lia].
  - now exists run.
Qed.

Lemma scan_write_err (env : Env) (w : error -> error) (n : nat)
    (pend : list Row) :
  forall (i : nat) (out : Sink) (lastId : Z) (e : error),
    snd (scan_write env w n i pend out lastId) = Some e ->
    (exists j e0, scan_err env n j = Some e0 /\
                  e = Errorf "failed to scan row: %w" e0) \/
    (exists j e0, write_err env n j = Some e0 /\ e = w e0).
Proof.
  induction pend as [|r pend IH]; intros i out lastId e; cbn [scan_write].
  - discriminate.
  - destruct (scan_err env n i) as [e0|] eqn:Es.
    { cbn. intros [= <-]. left. now exists i, e0. }
    destruct (write_err env n i) as [e0|] eqn:Ew.
    { cbn. intros [= <-]. right. now exists i, e0. }
    apply IH.
Qed.

(** Why a batch aborts: a scan failed, a write failed, or the result
    stream broke after a first row had been delivered. *)
Lemma batch_err (env : Env) (w : error -> error) (n : nat)
    (got : list Row) (out : Sink) (lastId : Z) (e : error) :
  snd (batch env w n (open_rows env n got) out lastId) = Abort e ->
  (exists j e0, scan_err env n j = Some e0 /\
                e = Errorf "failed to scan row: %w" e0) \/
  (exists j e0, write_err env n j = Some e0 /\ e = w e0) \/
  (exists k e0, stream_err env n = Some (k, e0) /\
                e = Errorf "error occurred while iterating rows: %w" e0).
Proof.
  unfold batch, rows_Next.
  destruct (pending (open_rows env n got)) as [|r rest]; [discriminate|].
  cbn [pending rows_Err].
  pose proof (scan_write_err env w n rest 1%nat out lastId) as H.
  destruct (scan_write env w n 1 rest out lastId) as [[o l] [e1|]];
    cbn [fst snd] in *.
  - intros [= <-]. destruct (H e1 eq_refl) as [H1 | H1]; auto.
  - unfold open_rows. destruct (stream_err env n) as [[k e0]|];
      cbn [rows_Err]; [|discriminate].
    intros [= <-]. right. right. now exists k, e0.
Qed.

(** A batch that is followed by another delivered a row. *)
Lemma batch_next (env : Env) (w : error -> error) (n : nat)
    (got : list Row) (out : Sink) (lastId : Z) :
  snd (batch env w n (open_rows env n got) out lastId) = Next_batch ->
  got <> [].
Proof.
  intro H. pose proof (batch_spec env w n got out lastId) as S.
  cbv zeta in S. destruct S as [[_ S] | (r & p & q & -> & _)];
    [rewrite S in H; discriminate | discriminate].
Qed.

Lemma skipn_shorter {A : Type} (k : nat) (l : list A) :
  firstn k l <> [] -> (length (skipn k l) < length l)%nat.
Proof.
  destruct k as [|k]; [cbn; congruence|].
  destruct l as [|x l]; [cbn; congruence|].
  intros _. cbn [skipn length]. pose proof (length_skipn k l). lia.
Qed.


Lemma cursor_body_ends (env : Env) (batchSize : Z) (st : CursorSt) :
  match cursor_body env batchSize st with
  | inl st' =>
      c_cur st' = skipn (Z.to_nat batchSize) (c_cur st) /\
      (length (c_cur st') < length (c_cur st))%nat
  | inr run =>
      ends cursor_result (cursor_ok env) wrapped run /\
      (sent run = [cursor_ok env] ->
       close_err env = None /\ ret run = commit_err env)
  end.
Proof.
  unfold cursor_body. destruct (query_err env (c_n st)) as [e|].
  { split; [left; eexists; repeat split | discriminate]. }
  unfold fetch.
  pose proof (batch_err env (Errorf "error writing record to CSV: %v")
                (c_n st) (firstn (Z.to_nat batchSize) (c_cur st))
                (c_out st) 0) as Herr.
  pose proof (batch_next env (Errorf "error writing record to CSV: %v")
                (c_n st) (firstn (Z.to_nat batchSize) (c_cur st))
                (c_out st) 0) as Hnext.
  destruct (batch _ _ _ _ _ _) as [[out' lastId'] [|e|]]; cbn [snd] in *.
  - unfold cursor_finish. destruct (close_err env) as [e|].
    + split; [left; eexists; repeat split | discriminate].
    + split; [now right | auto].
  - split; [|discriminate]. left. exists e. split; [split; reflexivity|].
    destruct (Herr e eq_refl) as [(j & e0 & _ & ->) | [(j & e0 & _ & ->)
                                 | (k & e0 & _ & ->)]]; exact I.
  - cbn [c_cur]. split; [reflexivity|]. apply skipn_shorter. auto.
Qed.

Lemma custom_body_ends (env : Env) (tbl : Table) (limit batchSize : Z)
    (st : CustomSt) :
  match custom_body env tbl limit batchSize st with
  | inl _ => True
  | inr run => ends custom_result (custom_ok env) wrapped run /\
               (sent run = [custom_ok env] -> ret run = None)
  end.
Proof.
  unfold custom_body. destruct (query_err env (k_n st)) as [e|].
  { split; [left; eexists; repeat split | discriminate]. }
  pose proof (batch_err env (Errorf "error writing record to CSV: %v\n")
                (k_n st)
                (sql_limit batchSize (select_between (k_lastId st) limit tbl))
                (k_out st) (k_lastId st)) as Herr.
  destruct (batch _ _ _ _ _ _) as [[out' lastId'] [|e|]]; cbn [snd] in *.
  - split; [now right | reflexivity].
  - split; [|discriminate]. left. exists e. split; [split; reflexivity|].
    destruct (Herr e eq_refl) as [(j & e0 & _ & ->) | [(j & e0 & _ & ->)
                                 | (k & e0 & _ & ->)]]; exact I.
  - exact I.
Qed.

Lemma offset_body_ends (env : Env) (tbl : Table) (limit batchSize : Z)
    (st : OffsetSt) :
  0 <= o_offset st ->
  match offset_body env tbl limit batchSize st with
  | inl st' =>
      0 <= o_offset st' /\
      (length (sql_offset (o_offset st') (select_le limit tbl)) <
       length (sql_offset (o_offset st) (select_le limit tbl)))%nat
  | inr run =>
      ends offset_result (offset_ok env)
        (fun e => wrapped e \/ write_error env e) run /\
      (sent run = [offset_ok env] -> ret run = None)
  end.
Proof.
  intro Hoff. unfold offset_body. destruct (query_err env (o_n st)) as [e|].
  { split; [left; eexists; repeat split; now left | discriminate]. }
  set (cur := sql_offset (o_offset st) (select_le limit tbl)).
  pose proof (batch_err env (fun e => e) (o_n st)
                (sql_limit batchSize cur) (o_out st) 0) as Herr.
  pose proof (batch_next env (fun e => e) (o_n st)
                (sql_limit batchSize cur) (o_out st) 0) as Hnext.
  destruct (batch _ _ _ _ _ _) as [[out' lastId'] [|e|]]; cbn [snd] in *.
  - split; [now right | reflexivity].
  - split; [|discriminate]. left. exists e. split; [split; reflexivity|].
    destruct (Herr e eq_refl) as [(j & e0 & _ & ->) | [(j & e0 & He0 & ->)
                                 | (k & e0 & _ & ->)]];
      [left; exact I | right; now exists (o_n st), j | left; exact I].
  - cbn [o_offset]. specialize (Hnext eq_refl). unfold sql_limit in Hnext.
    assert (Hb : 0 < batchSize).
    { destruct (Z.to_nat batchSize) eqn:E; [now destruct Hnext | lia]. }
    split; [lia|].
    replace (sql_offset (o_offset st + batchSize) (select_le limit tbl))
      with (skipn (Z.to_nat batchSize) cur).
    + now apply skipn_shorter.
    + unfold cur, sql_offset. rewrite skipn_skipn. f_equal. lia.
Qed.

(** The cursor strategy and offset/limit return, whatever fails. *)
Lemma fetchWithCursor_returns (env : Env) (tbl : Table) (limit batchSize : Z)
    (fuel : nat) :
  (length (select_le limit tbl) < fuel)%nat ->
  exists run, fetchWithCursor env tbl limit batchSize fuel = inr run.
Proof.
  intro Hlen. unfold fetchWithCursor.
  destruct (create_err env); [eexists; reflexivity|].
  destruct (begin_err env); [eexists; reflexivity|].
  destruct (declare_err env); [eexists; reflexivity|].
  apply (loop_measure _ (fun _ => True) (fun st => length (c_cur st)));
    [|exact I|exact Hlen].
  intros st _. pose proof (cursor_body_ends env batchSize st) as H.
  destruct (cursor_body env batchSize st); [|exact I].
  split; [exact I | apply H].
Qed.

Lemma fetchWithOffsetLimit_returns (env : Env) (tbl : Table)
    (limit batchSize : Z) (fuel : nat) :
  (length (select_le limit tbl) < fuel)%nat ->
  exists run, fetchWithOffsetLimit env tbl limit batchSize fuel = inr run.
Proof.
  intro Hlen. unfold fetchWithOffsetLimit.
  destruct (create_err env); [eexists; reflexivity|].
  apply (loop_measure _ (fun st => 0 <= o_offset st)
           (fun st => length (sql_offset (o_offset st)
                                (select_le limit tbl))));
    [|cbn; lia|exact Hlen].
  intros st Hst.
  pose proof (offset_body_ends env tbl limit batchSize st Hst) as H.
  destruct (offset_body env tbl limit batchSize st); [exact H | exact I].
Qed.

(** How the runs that return end. *)
Lemma fetchWithCursor_ends (env : Env) (tbl : Table) (limit batchSize : Z)
    (fuel : nat) (run : Run) :
  fetchWithCursor env tbl limit batchSize fuel = inr run ->
  ends cursor_result (cursor_ok env) wrapped run /\
  (sent run = [cursor_ok env] ->
   close_err env = None /\ ret run = commit_err env).
Proof.
  unfold fetchWithCursor.
  destruct (create_err env).
  { intros [= <-]. split; [left; eexists; repeat split | discriminate]. }
  destruct (begin_err env).
  { intros [= <-]. split; [left; eexists; repeat split | discriminate]. }
  destruct (declare_err env).
  { intros [= <-]. split; [left; eexists; repeat split | discriminate]. }
  intro H.
  assert (Hbody : forall st, True ->
            match cursor_body env batchSize st with
            | inl _ => True
            | inr run =>
                ends cursor_result (cursor_ok env) wrapped run /\
                (sent run = [cursor_ok env] ->
                 close_err env = None /\ ret run = commit_err env)
            end).
  { intros st _. pose proof (cursor_body_ends env batchSize st) as B.
    destruct (cursor_body env batchSize st); [exact I | exact B]. }
  pose proof (loop_invariant _ (fun _ => True) _ Hbody fuel
                {| c_n := 0; c_cur := select_le limit tbl; c_out := [] |} I)
    as L.
  rewrite H in L. exact L.
Qed.

Lemma fetchWithCustomCursor_ends (env : Env) (tbl : Table)
    (limit batchSize : Z) (fuel : nat) (run : Run) :
  fetchWithCustomCursor env tbl limit batchSize fuel = inr run ->
  ends custom_result (custom_ok env) wrapped run /\
  (sent run = [custom_ok env] -> ret run = None).
Proof.
  unfold fetchWithCustomCursor.
  destruct (create_err env).
  { intros [= <-]. split; [left; eexists; repeat split | discriminate]. }
  intro H.
  pose proof (loop_invariant _ (fun _ => True) _
                (fun st _ => custom_body_ends env tbl limit batchSize st)
                fuel {| k_n := 0; k_lastId := 0; k_out := [] |} I) as L.
  rewrite H in L. exact L.
Qed.

Lemma fetchWithOffsetLimit_ends (env : Env) (tbl : Table)
    (limit batchSize : Z) (fuel : nat) (run : Run) :
  fetchWithOffsetLimit env tbl limit batchSize fuel = inr run ->
  ends offset_result (offset_ok env)
    (fun e => wrapped e \/ write_error env e) run /\
  (sent run = [offset_ok env] -> ret run = None).
Proof.
  unfold fetchWithOffsetLimit.
  destruct (create_err env).
  { intros [= <-]. split; [|discriminate].
    left; eexists; repeat split. now left. }
  intro H.
  assert (Hbody : forall st, 0 <= o_offset st ->
            match offset_body env tbl limit batchSize st with
            | inl st' => 0 <= o_offset st'
            | inr run =>
                ends offset_result (offset_ok env)
                  (fun e => wrapped e \/ write_error env e) run /\
                (sent run = [offset_ok env] -> ret run = None)
            end).
  { intros st Hst.
    pose proof (offset_body_ends env tbl limit batchSize st Hst) as B.
    destruct (offset_body env tbl limit batchSize st); [apply B | exact B]. }
  pose proof (loop_invariant _ (fun st => 0 <= o_offset st) _ Hbody fuel
                {| o_n := 0; o_offset := 0; o_out := [] |}
                ltac:(cbn; lia)) as L.
  rewrite H in L. exact L.
Qed.

(** A run that returns has sent exactly one Result. *)
Lemma ends_sends_once (result ok : Result) (good : error -> Prop)
    (run : Run) :
  ends result ok good run -> length (sent run) = 1%nat.
Proof. intros [(e & [-> _] & _) | ->]; reflexivity. Qed.

(* ================================================================== *)
(** * Errors that do not reach the Result as the others do *)

(** C6.  With [tx.Commit] failing and nothing else, the cursor strategy
    sends a Result without error and with the message of success; the error
    of the commit is the value the function returns, which the [go]
    statement discards. *)
Theorem C6_commit_error_not_in_result (secs : string) (c : error)
    (tbl : Table) (limit batchSize : Z) (extra : nat) :
  fetchWithCursor (commit_fails secs c) tbl limit batchSize
    (S (length (select_le limit tbl)) + extra) =
  inr {| sent := [{| Type_ := "cursor"; Err := None;
                     Message := ("cursor done in " ++ secs
                                 ++ " second")%string |}];
         ret := Some c;
         file := map record_of
                   (tails (batches batchSize (select_le limit tbl))) |}.
Proof.
  rewrite fetchWithCursor_calm; [reflexivity | | | lia]; repeat split.
Qed.

(* ================================================================== *)
(** * The harness: what holds in every state *)

Lemma live_range (g : goroutine) : 0 <= live g <= 1.
Proof. destruct g; cbn; lia. Qed.

Lemma lives_nonneg (l : list goroutine) : 0 <= lives l.
Proof.
  induction l as [|g l IH]; cbn [lives fold_right]; [lia|].
  fold (lives l). pose proof (live_range g). lia.
Qed.

Lemma lives_nth (l : list goroutine) :
  forall (i : nat) (g : goroutine),
    nth_error l i = Some g -> live g <= lives l.
Proof.
  induction l as [|x l IH]; intros [|i] g H; cbn in H; try discriminate.
  - injection H as ->. cbn [lives fold_right]. fold (lives l).
    pose proof (lives_nonneg l). lia.
  - cbn [lives fold_right]. fold (lives l). specialize (IH i g H).
    pose proof (live_range x). lia.
Qed.

Lemma lives_set_nth (l : list goroutine) :
  forall (i : nat) (g g' : goroutine),
    nth_error l i = Some g ->
    lives (set_nth i g' l) = lives l - live g + live g'.
Proof.
  induction l as [|x l IH]; intros [|i] g g' H; cbn in H; try discriminate.
  - injection H as ->. cbn [set_nth lives fold_right]. lia.
  - cbn [set_nth lives fold_right]. fold (lives l) (lives (set_nth i g' l)).
    rewrite (IH i g g' H). lia.
Qed.

Lemma unsent_set_nth (l : list goroutine) :
  forall (i : nat) (g g' : goroutine),
    nth_error l i = Some g ->
    Permutation (unsent g ++ flat_map unsent (set_nth i g' l))
                (unsent g' ++ flat_map unsent l).
Proof.
  induction l as [|x l IH]; intros [|i] g g' H; cbn in H; try discriminate.
  - injection H as ->. cbn [set_nth flat_map]. apply Permutation_app_swap_app.
  - cbn [set_nth flat_map]. rewrite Permutation_app_swap_app.
    rewrite (IH i g g' H). apply Permutation_app_swap_app.
Qed.

Lemma Forall_set_nth {A : Type} (P : A -> Prop) (l : list A) :
  forall (i : nat) (x : A), Forall P l -> P x -> Forall P (set_nth i x l).
Proof.
  induction l as [|y l IH]; intros [|i] x Hl Hx; cbn [set_nth];
    try constructor; inversion Hl; subst; auto.
Qed.

Lemma nth_error_set_nth_other {A : Type} (l : list A) :
  forall (i j : nat) (x : A),
    i <> j -> nth_error (set_nth i x l) j = nth_error l j.
Proof.
  induction l as [|y l IH]; intros [|i] [|j] x H; cbn; try reflexivity;
    try congruence.
  apply IH. congruence.
Qed.

Lemma length_set_nth (l : list goroutine) :
  forall (i : nat) (g g' : goroutine),
    nth_error l i = Some g ->
    (list_sum (map (@length instr) (set_nth i g' l)) + length g =
     list_sum (map (@length instr) l) + length g')%nat.
Proof.
  induction l as [|x l IH]; intros [|i] g g' H; cbn in H; try discriminate.
  - injection H as ->. simpl. lia.
  - specialize (IH i g g' H). simpl. lia.
Qed.

(** Every move keeps the invariant; in particular no move panics. *)
Lemma exec_inv (all : list Result) (a : action) (s s' : HState) :
  harness_inv all s -> exec a s = Some s' -> harness_inv all s'.
Proof.
  intros (Hwf & Hwg & Hcap & Hcl & Hwd & Hp & Hmd & Hperm). unfold exec.
  rewrite Hp. destruct (main_done s) eqn:Emd; [discriminate|].
  destruct a as [i| |].
  - destruct (nth_error (gs s) i) as [g|] eqn:Eg; [|discriminate].
    assert (Hg : wf_goroutine g).
    { rewrite Forall_forall in Hwf. apply Hwf. eapply nth_error_In, Eg. }
    pose proof (lives_nth _ _ _ Eg) as Hlive.
    assert (Hopen : g <> [] -> waiter_done s = false).
    { intro Hne. destruct (waiter_done s); [|reflexivity].
      specialize (Hwd eq_refl). destruct g; [congruence | cbn in Hlive; lia]. }
    destruct Hg as [-> | [-> | [[r ->] | ->]]]; [discriminate | | |].
    + (* wg.Done() *)
      cbn [live] in Hlive.
      destruct (Z.leb_spec (wg s) 0) as [Hle | Hgt]; [lia|].
      intros [= <-]. unfold harness_inv; fields.
      rewrite (lives_set_nth _ _ _ [] Eg). cbn [live].
      rewrite Hopen in * by discriminate.
      repeat split; try assumption; try lia; try discriminate.
      * apply Forall_set_nth; [assumption | now left].
      * rewrite <- Hperm. do 2 apply Permutation_app_head.
        exact (unsent_set_nth _ _ _ [] Eg).
    + (* res <- result *)
      rewrite Hcl, (Hopen ltac:(discriminate)).
      change (0 <? 0)%nat with false. cbv iota.
      destruct (Nat.ltb_spec (length (errorChan s)) capacity)
        as [Hroom | Hfull];
        [|discriminate].
      intros [= <-]. unfold harness_inv; fields.
      rewrite (lives_set_nth _ _ _ [WgDone] Eg). cbn [live].
      rewrite (Hopen ltac:(discriminate)) in *.
      repeat split; try assumption; try lia; try discriminate.
      * apply Forall_set_nth; [assumption | right; now left].
      * rewrite length_app. cbn [length]. unfold capacity in *. lia.
      * rewrite <- Hperm.
        pose proof (unsent_set_nth _ _ _ [WgDone] Eg) as Hu.
        cbn [unsent app] in Hu. apply Permutation_app_head.
        rewrite <- app_assoc. apply Permutation_app_head.
        cbn [app]. exact Hu.
    + (* inside a loop *)
      intros [= <-]. unfold harness_inv. rewrite Hp, Emd. auto 10.
  - (* wg.Wait(); close(errorChan) *)
    destruct (waiter_done s) eqn:Ewd; [discriminate|].
    destruct (Z.eqb_spec (wg s) 0) as [Hz | Hnz]; [|discriminate].
    rewrite Hcl. change (0 <? 0)%nat with false. cbv iota.
    intros [= <-]. unfold harness_inv; fields.
    repeat split; try assumption; try lia; try discriminate.
  - (* the range loop of main *)
    destruct (errorChan s) as [|r q] eqn:Ech.
    + destruct (Nat.ltb_spec 0 (closed s)) as [Hc | Hc]; [|discriminate].
      intros [= <-]. unfold harness_inv; fields.
      destruct (waiter_done s); [|lia].
      repeat split; try assumption; try lia; auto.
    + intros [= <-]. unfold harness_inv; fields.
      repeat split; try assumption; try discriminate.
      * cbn [length] in Hcap. lia.
      * rewrite <- Hperm, <- app_assoc. reflexivity.
Qed.

Lemma reachable_inv (all : list Result) (s0 s : HState) :
  harness_inv all s0 -> reachable s0 s -> harness_inv all s.
Proof.
  intros H0 Hr. induction Hr as [|x y z [a Ha] _ IH]; [assumption|].
  apply IH. eapply exec_inv; eassumption.
Qed.

Lemma run_schedule_reachable (sched : list action) :
  forall s s', run_schedule sched s = Some s' -> reachable s s'.
Proof.
  induction sched as [|a sched IH]; intros s s'; cbn [run_schedule].
  - intros [= <-]. constructor.
  - destruct (exec a s) as [s1|] eqn:E; [|discriminate].
    intro H. econstructor 2; [exists a; exact E | now apply IH].
Qed.

(** When main has left its loop every goroutine has finished and main has
    received every Result. *)
Lemma lives_zero (l : list goroutine) :
  lives l = 0 -> Forall (fun g => g = []) l.
Proof.
  induction l as [|g l IH]; cbn [lives fold_right]; [constructor|].
  fold (lives l). intro H. pose proof (live_range g).
  pose proof (lives_nonneg l).
  constructor; [destruct g; [reflexivity | cbn [live] in H; lia]
               | apply IH; lia].
Qed.

Lemma unsent_finished (l : list goroutine) :
  Forall (fun g => g = []) l -> flat_map unsent l = [].
Proof.
  induction 1 as [|g l -> _ IH]; [reflexivity|]. cbn [flat_map unsent app].
  exact IH.
Qed.

Lemma main_done_received (all : list Result) (s : HState) :
  harness_inv all s -> main_done s = true ->
  Forall (fun g => g = []) (gs s) /\ closed s = 1%nat /\
  Permutation (received s) all.
Proof.
  intros (Hwf & Hwg & Hcap & Hcl & Hwd & Hp & Hmd & Hperm) Hdone.
  destruct (Hmd Hdone) as [Hw Hch]. rewrite Hw in Hcl.
  specialize (Hwd Hw). rewrite Hwg in Hwd.
  pose proof (lives_zero _ Hwd) as Hfin.
  rewrite Hch, (unsent_finished _ Hfin), app_nil_r in Hperm. cbn [app] in Hperm.
  auto.
Qed.

(** A goroutine that spins keeps the channel open and main in its loop. *)
Lemma exec_spins (a : action) (s s' : HState) (j : nat) :
  nth_error (gs s) j = Some [Spin] -> exec a s = Some s' ->
  nth_error (gs s') j = Some [Spin].
Proof.
  intros Hj. unfold exec.
  destruct (panicked s); [discriminate|].
  destruct (main_done s); [discriminate|].
  destruct a as [i| |].
  - destruct (nth_error (gs s) i) as [[|[r| |] g]|] eqn:Eg; try discriminate.
    + destruct (0 <? closed s)%nat; [intros [= <-]; exact Hj|].
      destruct (length (errorChan s) <? capacity)%nat; [|discriminate].
      intros [= <-]. cbn [gs]. rewrite nth_error_set_nth_other; [exact Hj|].
      intros ->. congruence.
    + destruct (wg s <=? 0); intros [= <-]; [exact Hj|]. cbn [gs].
      rewrite nth_error_set_nth_other; [exact Hj|]. intros ->. congruence.
    + intros [= <-]. exact Hj.
  - destruct (waiter_done s); [discriminate|].
    destruct (wg s =? 0); [|discriminate].
    destruct (0 <? closed s)%nat; intros [= <-]; exact Hj.
  - destruct (errorChan s); [|intros [= <-]; exact Hj].
    destruct (0 <? closed s)%nat; [|discriminate]. intros [= <-]. exact Hj.
Qed.

Lemma reachable_spins (s0 s : HState) (j : nat) :
  nth_error (gs s0) j = Some [Spin] -> reachable s0 s ->
  nth_error (gs s) j = Some [Spin].
Proof.
  intros H0 Hr. induction Hr as [|x y z [a Ha] _ IH]; [assumption|].
  apply IH. eapply exec_spins; eassumption.
Qed.

Lemma spinning_never_done (all : list Result) (s : HState) (j : nat) :
  harness_inv all s -> nth_error (gs s) j = Some [Spin] ->
  closed s = 0%nat /\ main_done s = false /\
  (length (received s) <= length all)%nat.
Proof.
  intros (Hwf & Hwg & Hcap & Hcl & Hwd & Hp & Hmd & Hperm) Hj.
  pose proof (lives_nth _ _ _ Hj) as Hlive. cbn [live] in Hlive.
  assert (Hw : waiter_done s = false).
  { destruct (waiter_done s); [|reflexivity]. specialize (Hwd eq_refl). lia. }
  rewrite Hw in Hcl. repeat split; [assumption | |].
  - destruct (main_done s); [|reflexivity].
    destruct (Hmd eq_refl). congruence.
  - rewrite <- (Permutation_length Hperm), length_app. lia.
Qed.


(* ================================================================== *)
(** * The harness: it ends when every strategy returns *)

Lemma first_unfinished (l : list goroutine) :
  Forall (fun g => g = []) l \/
  exists i g, nth_error l i = Some g /\ g <> [].
Proof.
  induction l as [|x l [IH | (i & g & Hi & Hg)]].
  - left. constructor.
  - destruct x as [|a x].
    + left. now constructor.
    + right. exists 0%nat, (a :: x). split; [reflexivity | discriminate].
  - right. exists (S i), g. auto.
Qed.

(** Unless a goroutine spins, somebody can move until main is done. *)
Lemma progress (all : list Result) (s : HState) :
  harness_inv all s ->
  Forall (fun g => g <> [Spin]) (gs s) ->
  main_done s = false ->
  exists a s', exec a s = Some s'.
Proof.
  intros (Hwf & Hwg & Hcap & Hcl & Hwd & Hp & Hmd & Hperm) Hns Hdone.
  destruct (errorChan s) as [|r q] eqn:Ech.
  2:{ exists Main. unfold exec. rewrite Hp, Hdone, Ech. eauto. }
  destruct (first_unfinished (gs s)) as [Hfin | (i & g & Hi & Hg)].
  - assert (Hz : wg s = 0).
    { rewrite Hwg. clear -Hfin.
      induction Hfin as [|g l -> _ IH]; [reflexivity|].
      cbn [lives fold_right live]. fold (lives l). lia. }
    destruct (waiter_done s) eqn:Ew.
    + exists Main. unfold exec. rewrite Hp, Hdone, Ech, Hcl. cbn. eauto.
    + exists Waiter. unfold exec. rewrite Hp, Hdone, Ew, Hz, Hcl. cbn. eauto.
  - exists (Strategy i). unfold exec. rewrite Hp, Hdone, Hi.
    assert (Hgw : wf_goroutine g).
    { rewrite Forall_forall in Hwf. apply Hwf. eapply nth_error_In, Hi. }
    assert (Hgs : g <> [Spin]).
    { rewrite Forall_forall in Hns. apply Hns. eapply nth_error_In, Hi. }
    pose proof (lives_nth _ _ _ Hi) as Hlive.
    assert (Hw : waiter_done s = false).
    { destruct (waiter_done s); [|reflexivity]. specialize (Hwd eq_refl).
      destruct g; [congruence | cbn [live] in Hlive; lia]. }
    destruct Hgw as [-> | [-> | [[r ->] | ->]]]; try congruence.
    + cbn [live] in Hlive.
      destruct (Z.leb_spec (wg s) 0); [lia | eauto].
    + rewrite Hcl, Hw, Ech. cbn. eauto.
Qed.

Lemma exec_no_spin (all : list Result) (a : action) (s s' : HState) :
  harness_inv all s ->
  Forall (fun g => g <> [Spin]) (gs s) -> exec a s = Some s' ->
  Forall (fun g => g <> [Spin]) (gs s').
Proof.
  intros Hinv Hns. unfold exec.
  destruct (panicked s); [discriminate|].
  destruct (main_done s); [discriminate|].
  destruct a as [i| |].
  - destruct (nth_error (gs s) i) as [g|] eqn:Eg; [|discriminate].
    assert (Hgw : wf_goroutine g).
    { destruct Hinv as [Hwf _]. rewrite Forall_forall in Hwf.
      apply Hwf. eapply nth_error_In, Eg. }
    destruct Hgw as [-> | [-> | [[r ->] | ->]]]; [discriminate | | |].
    + destruct (wg s <=? 0); intros [= <-]; [exact Hns|].
      apply Forall_set_nth; [exact Hns | discriminate].
    + destruct (0 <? closed s)%nat; [intros [= <-]; exact Hns|].
      destruct (length (errorChan s) <? capacity)%nat; [|discriminate].
      intros [= <-]. apply Forall_set_nth; [exact Hns | discriminate].
    + intros [= <-]. exact Hns.
  - destruct (waiter_done s); [discriminate|].
    destruct (wg s =? 0); [|discriminate].
    destruct (0 <? closed s)%nat; intros [= <-]; exact Hns.
  - destruct (errorChan s); [|intros [= <-]; exact Hns].
    destruct (0 <? closed s)%nat; [|discriminate]. intros [= <-]. exact Hns.
Qed.

(** Unless a goroutine spins, every move takes the harness nearer its
    end. *)
Lemma exec_steps_left (all : list Result) (a : action) (s s' : HState) :
  harness_inv all s ->
  Forall (fun g => g <> [Spin]) (gs s) -> exec a s = Some s' ->
  (steps_left s' < steps_left s)%nat.
Proof.
  intros Hinv Hns He. pose proof (exec_inv all a s s' Hinv He) as Hinv'.
  destruct Hinv' as (_ & _ & _ & _ & _ & Hp' & _).
  revert He Hp'. unfold exec, steps_left.
  destruct (panicked s); [discriminate|].
  destruct (main_done s) eqn:Emd; [discriminate|].
  destruct a as [i| |].
  - destruct (nth_error (gs s) i) as [[|[r| |] g]|] eqn:Eg; try discriminate.
    + destruct (0 <? closed s)%nat; [intros [= <-]; discriminate|].
      destruct (length (errorChan s) <? capacity)%nat; [|discriminate].
      intros [= <-] _. fields.
      pose proof (length_set_nth _ _ _ g Eg) as Hl. rewrite length_app.
      cbn [length] in *. lia.
    + destruct (wg s <=? 0); intros [= <-]; [discriminate|]. intros _. fields.
      pose proof (length_set_nth _ _ _ g Eg) as Hl.
      cbn [length] in *. lia.
    + intros _ _. exfalso. rewrite Forall_forall in Hns.
      destruct Hinv as [Hwf _]. rewrite Forall_forall in Hwf.
      pose proof (nth_error_In _ _ Eg) as Hin.
      destruct (Hwf _ Hin) as [H | [H | [[r H] | H]]]; try discriminate.
      exact (Hns _ Hin H).
  - destruct (waiter_done s); [discriminate|].
    destruct (wg s =? 0); [|discriminate].
    destruct (0 <? closed s)%nat; intros [= <-]; [discriminate|].
    intros _. fields. lia.
  - destruct (errorChan s) as [|r q].
    + destruct (0 <? closed s)%nat; [|discriminate]. intros [= <-] _. fields.
      cbn [length]. lia.
    + intros [= <-] _. fields. cbn [length]. lia.
Qed.

(** No schedule is longer than [steps_left] of the state it starts in. *)
Lemma schedules_bounded (all : list Result) (sched : list action) :
  forall s s',
    harness_inv all s -> Forall (fun g => g <> [Spin]) (gs s) ->
    run_schedule sched s = Some s' ->
    (length sched + steps_left s' <= steps_left s)%nat.
Proof.
  induction sched as [|a sched IH]; intros s s' Hinv Hns; cbn [run_schedule].
  - intros [= <-]. cbn [length]. lia.
  - destruct (exec a s) as [s1|] eqn:E; [|discriminate]. intro H.
    pose proof (exec_steps_left all a s s1 Hinv Hns E).
    specialize (IH s1 s' (exec_inv all a s s1 Hinv E)
                  (exec_no_spin all a s s1 Hinv Hns E) H).
    cbn [length]. lia.
Qed.

Lemma reachable_no_spin (all : list Result) (s0 s : HState) :
  harness_inv all s0 -> Forall (fun g => g <> [Spin]) (gs s0) ->
  reachable s0 s -> Forall (fun g => g <> [Spin]) (gs s).
Proof.
  intros H0 Hns Hr. induction Hr as [|x y z [a Ha] _ IH]; [assumption|].
  apply IH; [eapply exec_inv | eapply exec_no_spin]; eassumption.
Qed.

(** Where nobody can move, main has left its loop with every Result. *)
Lemma stuck_done (all : list Result) (s0 s : HState) :
  harness_inv all s0 -> Forall (fun g => g <> [Spin]) (gs s0) ->
  reachable s0 s -> stuck s ->
  main_done s = true /\ closed s = 1%nat /\ Permutation (received s) all.
Proof.
  intros H0 Hns Hr Hstuck.
  pose proof (reachable_inv all s0 s H0 Hr) as Hinv.
  pose proof (reachable_no_spin all s0 s H0 Hns Hr) as Hns'.
  destruct (main_done s) eqn:Hd.
  - split; [reflexivity|]. now apply (main_done_received all s Hinv).
  - destruct (progress all s Hinv Hns' Hd) as (a & s' & He).
    rewrite (Hstuck a) in He. discriminate.
Qed.

(** ** The states [main] starts in *)

Lemma launch_inv (g1 g2 g3 : goroutine) :
  launchable g1 -> launchable g2 -> launchable g3 ->
  harness_inv (to_send (launch g1 g2 g3)) (launch g1 g2 g3).
Proof.
  intros H1 H2 H3. unfold harness_inv, to_send, launch. fields.
  assert (W : forall g, launchable g -> wf_goroutine g /\ live g = 1).
  { intros g [-> | [r ->]]; split; try reflexivity;
      [right; right; now right | right; right; left; now exists r]. }
  destruct (W _ H1) as [W1 L1], (W _ H2) as [W2 L2], (W _ H3) as [W3 L3].
  repeat split; try discriminate; auto.
  - cbn [lives fold_right]. lia.
  - cbn. lia.
Qed.

Lemma goroutine_of_launchable {St : Type} (o : St + Run) :
  (forall run, o = inr run -> length (sent run) = 1%nat) ->
  launchable (goroutine_of o).
Proof.
  intro H. destruct o as [st|run]; [now left|]. right.
  specialize (H run eq_refl). cbn [goroutine_of].
  destruct (sent run) as [|r [|r' l]]; try discriminate. now exists r.
Qed.

Lemma main_inv (ec eo ek : Env) (tbl : Table) (limit batchSize : Z)
    (fuel : nat) :
  harness_inv (to_send (main ec eo ek tbl limit batchSize fuel))
    (main ec eo ek tbl limit batchSize fuel).
Proof.
  unfold main. apply launch_inv; apply goroutine_of_launchable; intros run H.
  - eapply ends_sends_once, fetchWithCursor_ends, H.
  - eapply ends_sends_once, fetchWithOffsetLimit_ends, H.
  - eapply ends_sends_once, fetchWithCustomCursor_ends, H.
Qed.


Lemma to_send_launch (g1 g2 g3 : goroutine) :
  to_send (launch g1 g2 g3) = unsent g1 ++ unsent g2 ++ unsent g3.
Proof. unfold to_send, launch. cbn. now rewrite app_nil_r. Qed.

Lemma unsent_goroutine_of {St : Type} (o : St + Run) :
  launchable (goroutine_of o) ->
  unsent (goroutine_of o) =
  match o with inl _ => [] | inr run => sent run end.
Proof.
  destruct o as [st|run]; [reflexivity|]. cbn [goroutine_of].
  intros [H | [r H]].
  - destruct (sent run) as [|r [|r' l]]; discriminate.
  - destruct (sent run) as [|r0 [|r' l]]; try discriminate.
    cbn in H. injection H as <-. reflexivity.
Qed.

(** When the three strategies return, every schedule of the harness is at
    most 14 moves long, and where nobody can move any more main has left
    its loop, the channel has been closed once, and main has received the
    three Results. *)
Lemma main_completes (ec eo ek : Env) (tbl : Table) (limit batchSize : Z)
    (fuel : nat) (rc ro rk : Run) :
  fetchWithCursor ec tbl limit batchSize fuel = inr rc ->
  fetchWithOffsetLimit eo tbl limit batchSize fuel = inr ro ->
  fetchWithCustomCursor ek tbl limit batchSize fuel = inr rk ->
  let s0 := main ec eo ek tbl limit batchSize fuel in
  (forall sched s, run_schedule sched s0 = Some s ->
                   (length sched <= 14)%nat) /\
  (forall s, reachable s0 s -> stuck s ->
     main_done s = true /\ closed s = 1%nat /\
     Permutation (received s) (sent rc ++ sent ro ++ sent rk) /\
     length (received s) = 3%nat).
Proof.
  intros Hc Ho Hk s0.
  pose proof (main_inv ec eo ek tbl limit batchSize fuel) as Hinv.
  fold s0 in Hinv.
  pose proof (ends_sends_once _ _ _ _
                (proj1 (fetchWithCursor_ends _ _ _ _ _ _ Hc))) as Lc.
  pose proof (ends_sends_once _ _ _ _
                (proj1 (fetchWithOffsetLimit_ends _ _ _ _ _ _ Ho))) as Lo.
  pose proof (ends_sends_once _ _ _ _
                (proj1 (fetchWithCustomCursor_ends _ _ _ _ _ _ Hk))) as Lk.
  destruct (sent rc) as [|r1 [|? ?]] eqn:Ec; try discriminate.
  destruct (sent ro) as [|r2 [|? ?]] eqn:Eo; try discriminate.
  destruct (sent rk) as [|r3 [|? ?]] eqn:Ek; try discriminate.
  assert (Egs : gs s0 = [[Send r1; WgDone]; [Send r2; WgDone];
                         [Send r3; WgDone]]).
  { unfold s0, main, launch. cbn [gs]. rewrite Hc, Ho, Hk.
    cbn [goroutine_of]. now rewrite Ec, Eo, Ek. }
  assert (Hns : Forall (fun g => g <> [Spin]) (gs s0)).
  { rewrite Egs. repeat constructor; discriminate. }
  assert (Hall : to_send s0 = [r1; r2; r3]).
  { unfold to_send. now rewrite Egs. }
  split.
  - intros sched s Hrun.
    pose proof (schedules_bounded _ sched s0 s Hinv Hns Hrun) as B.
    assert (steps_left s0 = 14%nat).
    { unfold steps_left. rewrite Egs. reflexivity. }
    lia.
  - intros s Hr Hstuck.
    destruct (stuck_done _ s0 s Hinv Hns Hr Hstuck) as (Hd & Hcl & Hperm).
    rewrite Hall in Hperm. repeat split; try assumption.
    now rewrite (Permutation_length Hperm).
Qed.

(* ================================================================== *)
(** * What [main] launches and collects *)

(** C2, as the claim states it, fails: [main] starts three strategy
    goroutines, not four; in a run without errors that has come to its end
    main has received three Results, those of the cursor, of offset/limit
    and of the custom cursor. *)
Lemma C2_three_goroutines_not_four :
  let s0 := main (quiet "0.01") (quiet "0.02") (quiet "0.03")
                 (pgbench 4) 4 2 5 in
  length (gs s0) = 3%nat /\ wg s0 = 3 /\ length (gs s0) <> 4%nat /\
  exists s,
    run_schedule one_by_one s0 = Some s /\
    stuck s /\ main_done s = true /\
    map Type_ (received s) = ["cursor"; "offset_limit"; "custom_cursor"]%string.
Proof.
  cbv zeta. split; [reflexivity|]. split; [reflexivity|].
  split; [discriminate|]. eexists. split; [vm_compute; reflexivity|].
  split; [|split; reflexivity]. intros [i| |]; reflexivity.
Qed.

(** C2, amended.  [main] starts three goroutines, one for each of
    [fetchWithCursor], [fetchWithOffsetLimit] and [fetchWithCustomCursor]
    (there is no fourth strategy), and what they send is collected through
    the one channel: in every state the process can reach nothing has
    panicked, the Results received by main, those in the buffer and those
    still to be sent are together the Results of the three goroutines; main
    can take a buffered Result whenever there is one; and once main has
    left its loop the buffer is empty, nothing is left to send and main has
    received three Results. *)
Theorem C2_three_strategies_results_collected (ec eo ek : Env) (tbl : Table)
    (limit batchSize : Z) (fuel : nat) (s : HState)
    (Hreach : reachable (main ec eo ek tbl limit batchSize fuel) s) :
  let s0 := main ec eo ek tbl limit batchSize fuel in
  gs s0 = [goroutine_of (fetchWithCursor ec tbl limit batchSize fuel);
           goroutine_of (fetchWithOffsetLimit eo tbl limit batchSize fuel);
           goroutine_of (fetchWithCustomCursor ek tbl limit batchSize fuel)] /\
  wg s0 = 3 /\
  panicked s = false /\
  Permutation (received s ++ errorChan s ++ to_send s) (to_send s0) /\
  (forall r q, errorChan s = r :: q ->
     exists s', exec Main s = Some s' /\ received s' = received s ++ [r]) /\
  (main_done s = true ->
     errorChan s = [] /\ to_send s = [] /\
     Permutation (received s) (to_send s0) /\
     length (received s) = 3%nat).
Proof.
  intro s0.
  pose proof (main_inv ec eo ek tbl limit batchSize fuel) as Hinv0.
  fold s0 in Hinv0.
  pose proof (reachable_inv _ s0 s Hinv0 Hreach) as Hinv.
  pose proof Hinv as (Hwf & Hwg & Hcap & Hcl & Hwd & Hp & Hmd & Hperm).
  split; [reflexivity|]. split; [reflexivity|]. split; [assumption|].
  split; [exact Hperm|]. split.
  - intros r q Hch. unfold exec. rewrite Hp.
    destruct (main_done s) eqn:Hd.
    + destruct (Hmd eq_refl) as [_ He]. congruence.
    + rewrite Hch. eexists. split; reflexivity.
  - intro Hd. destruct (main_done_received _ s Hinv Hd) as (Hfin & _ & Hr).
    destruct (Hmd Hd) as [_ Hch].
    split; [assumption|]. split; [now apply unsent_finished|].
    split; [assumption|]. rewrite (Permutation_length Hr).
    assert (Hsp : forall j, nth_error (gs s0) j <> Some [Spin]).
    { intros j Hj.
      pose proof (reachable_spins s0 s j Hj Hreach) as Hj'.
      destruct (spinning_never_done _ s j Hinv Hj') as (_ & Hnd & _).
      congruence. }
    assert (L : forall g, launchable g -> g <> [Spin] ->
                          length (unsent g) = 1%nat).
    { intros g [-> | [r ->]] Hg; [congruence | reflexivity]. }
    unfold s0, main. rewrite to_send_launch, !length_app.
    rewrite !L; try reflexivity.
    + apply goroutine_of_launchable. intros run H.
      eapply ends_sends_once, fetchWithCustomCursor_ends, H.
    + intro H. apply (Hsp 2%nat). unfold s0, main, launch. cbn. now rewrite H.
    + apply goroutine_of_launchable. intros run H.
      eapply ends_sends_once, fetchWithOffsetLimit_ends, H.
    + intro H. apply (Hsp 1%nat). unfold s0, main, launch. cbn. now rewrite H.
    + apply goroutine_of_launchable. intros run H.
      eapply ends_sends_once, fetchWithCursor_ends, H.
    + intro H. apply (Hsp 0%nat). unfold s0, main, launch. cbn. now rewrite H.
Qed.

(** A run of the harness to its end, the strategies finishing one after the
    other. *)
Lemma C2_witness :
  exists s,
    reachable (main (quiet "0.01") (quiet "0.02") (quiet "0.03")
                    (pgbench 4) 4 2 5) s /\
    main_done s = true /\
    panicked s = false /\
    length (received s) = 3%nat.
Proof.
  assert (R : { s | run_schedule one_by_one
                      (main (quiet "0.01") (quiet "0.02") (quiet "0.03")
                            (pgbench 4) 4 2 5) = Some s
                    /\ main_done s = true }).
  { eexists. split; [vm_compute; reflexivity | reflexivity]. }
  destruct R as (s & Hrun & Hd). exists s.
  pose proof (run_schedule_reachable _ _ _ Hrun) as Hreach.
  pose proof (C2_three_strategies_results_collected
                (quiet "0.01") (quiet "0.02") (quiet "0.03")
                (pgbench 4) 4 2 5 s Hreach) as H.
  cbv zeta in H. destruct H as (_ & _ & Hp & _ & _ & Hfin).
  split; [exact Hreach|]. split; [exact Hd|]. split; [exact Hp|].
  apply Hfin, Hd.
Defined.

(* ================================================================== *)
(** * One Result per strategy *)

(** Every run that returns has sent exactly one Result, and the cursor
    strategy and offset/limit return whatever fails. *)
Lemma one_result_per_return (env : Env) (tbl : Table) (limit batchSize : Z)
    (fuel : nat) :
  (forall run, fetchWithCursor env tbl limit batchSize fuel = inr run ->
               length (sent run) = 1%nat) /\
  (forall run, fetchWithOffsetLimit env tbl limit batchSize fuel = inr run ->
               length (sent run) = 1%nat) /\
  (forall run, fetchWithCustomCursor env tbl limit batchSize fuel = inr run ->
               length (sent run) = 1%nat) /\
  ((length (select_le limit tbl) < fuel)%nat ->
   (exists run, fetchWithCursor env tbl limit batchSize fuel = inr run) /\
   (exists run, fetchWithOffsetLimit env tbl limit batchSize fuel = inr run)).
Proof.
  repeat split.
  - intros run H. eapply ends_sends_once, fetchWithCursor_ends, H.
  - intros run H. eapply ends_sends_once, fetchWithOffsetLimit_ends, H.
  - intros run H. eapply ends_sends_once, fetchWithCustomCursor_ends, H.
  - now apply fetchWithCursor_returns.
  - now apply fetchWithOffsetLimit_returns.
Qed.

(** C5.  On the table of one row with limit 1 and batch size 1, in a run
    without errors, the custom cursor is still in its loop after any number
    of rounds and has sent no Result; so in every state the process can
    reach its goroutine spins, the channel has not been closed, main is
    still in its range loop, and main has received at most two Results. *)
Theorem C5_custom_cursor_sends_no_result (secs : string) (fuel : nat)
    (s : HState)
    (Hreach : reachable (main (quiet secs) (quiet secs) (quiet secs)
                              one_row 1 1 fuel) s) :
  fetchWithCustomCursor (quiet secs) one_row 1 1 fuel =
  inl {| k_n := fuel; k_lastId := 0; k_out := [] |} /\
  nth_error (gs s) 2 = Some [Spin] /\
  closed s = 0%nat /\ main_done s = false /\
  (length (received s) <= 2)%nat.
Proof.
  assert (Hk : fetchWithCustomCursor (quiet secs) one_row 1 1 fuel =
               inl {| k_n := fuel; k_lastId := 0; k_out := [] |}).
  { apply (custom_batch_size_one (quiet secs) one_row 1 (mkRow 1 1 0));
      [apply calm_quiet | reflexivity | now left | cbn; lia]. }
  set (s0 := main (quiet secs) (quiet secs) (quiet secs) one_row 1 1 fuel)
    in *.
  assert (Hj : nth_error (gs s0) 2 = Some [Spin]).
  { unfold s0, main, launch. cbn [gs nth_error]. now rewrite Hk. }
  pose proof (main_inv (quiet secs) (quiet secs) (quiet secs)
                one_row 1 1 fuel) as Hinv0. fold s0 in Hinv0.
  pose proof (reachable_inv _ s0 s Hinv0 Hreach) as Hinv.
  pose proof (reachable_spins s0 s 2 Hj Hreach) as Hj'.
  destruct (spinning_never_done _ s 2 Hinv Hj') as (Hcl & Hd & Hlen).
  split; [exact Hk|]. split; [exact Hj'|]. split; [exact Hcl|].
  split; [exact Hd|].
  assert (L : forall g : goroutine, (length (unsent g) <= 1)%nat).
  { intros [|[r| |] g]; cbn; lia. }
  unfold s0, main in Hlen. rewrite to_send_launch, !length_app, Hk in Hlen.
  cbn [goroutine_of unsent length] in Hlen.
  pose proof (L (goroutine_of
                   (fetchWithCursor (quiet secs) one_row 1 1 fuel))).
  pose proof (L (goroutine_of
                   (fetchWithOffsetLimit (quiet secs) one_row 1 1 fuel))).
  lia.
Qed.

(** A run of the harness in which the first two strategies have finished
    and the custom cursor spins. *)
Lemma C5_witness :
  exists s,
    reachable (main (quiet "0.01") (quiet "0.01") (quiet "0.01")
                    one_row 1 1 3) s /\
    length (received s) = 2%nat /\
    main_done s = false /\ closed s = 0%nat.
Proof.
  assert (R : { s | run_schedule two_finish
                      (main (quiet "0.01") (quiet "0.01") (quiet "0.01")
                            one_row 1 1 3) = Some s
                    /\ length (received s) = 2%nat }).
  { eexists. split; [vm_compute; reflexivity | reflexivity]. }
  destruct R as (s & Hrun & Hlen). exists s.
  pose proof (run_schedule_reachable _ _ _ Hrun) as Hreach.
  destruct (C5_custom_cursor_sends_no_result "0.01" 3 s Hreach)
    as (_ & _ & Hcl & Hd & _).
  auto.
Defined.

(* ================================================================== *)
(** * An error met by the emptiness check *)

(** When a result stream breaks before its first row, [rows.Next()] answers
    false in the emptiness check, the loop is left by [break] without a look
    at [rows.Err()], and the strategy reports success. *)
Lemma stream_error_before_first_row (secs : string) (c : error)
    (tbl : Table) (limit batchSize : Z) (fuel : nat) :
  let env := stream_fails secs c in
  fetchWithCursor env tbl limit batchSize (S fuel) =
  inr (cursor_finish env []) /\
  fetchWithOffsetLimit env tbl limit batchSize (S fuel) =
  inr (offset_finish env []) /\
  fetchWithCustomCursor env tbl limit batchSize (S fuel) =
  inr (custom_finish env []).
Proof. repeat split. Qed.


(* ================================================================== *)
(** * More on how the strategies end *)

Lemma fetchWithCursor_more_fuel (env : Env) (tbl : Table)
    (limit batchSize : Z) (fuel extra : nat) (run : Run) :
  fetchWithCursor env tbl limit batchSize fuel = inr run ->
  fetchWithCursor env tbl limit batchSize (fuel + extra) = inr run.
Proof.
  unfold fetchWithCursor.
  destruct (create_err env); [auto|]. destruct (begin_err env); [auto|].
  destruct (declare_err env); [auto|]. apply loop_more_fuel.
Qed.

Lemma fetchWithOffsetLimit_more_fuel (env : Env) (tbl : Table)
    (limit batchSize : Z) (fuel extra : nat) (run : Run) :
  fetchWithOffsetLimit env tbl limit batchSize fuel = inr run ->
  fetchWithOffsetLimit env tbl limit batchSize (fuel + extra) = inr run.
Proof.
  unfold fetchWithOffsetLimit.
  destruct (create_err env); [auto|]. apply loop_more_fuel.
Qed.

Lemma fetchWithCustomCursor_more_fuel (env : Env) (tbl : Table)
    (limit batchSize : Z) (fuel extra : nat) (run : Run) :
  fetchWithCustomCursor env tbl limit batchSize fuel = inr run ->
  fetchWithCustomCursor env tbl limit batchSize (fuel + extra) = inr run.
Proof.
  unfold fetchWithCustomCursor.
  destruct (create_err env); [auto|]. apply loop_more_fuel.
Qed.

(** X1.  Whatever the calls of [fetchWithCursor] answer, its loop is left
    after at most one round per selected row and one more, and the function
    returns having sent exactly one Result. *)
Theorem X1_cursor_returns_with_one_result (env : Env) (tbl : Table)
    (limit batchSize : Z) :
  exists run,
    (forall extra,
        fetchWithCursor env tbl limit batchSize
          (S (length (select_le limit tbl)) + extra) = inr run) /\
    length (sent run) = 1%nat.
Proof.
  destruct (fetchWithCursor_returns env tbl limit batchSize
              (S (length (select_le limit tbl))) (Nat.lt_succ_diag_r _))
    as [run H].
  exists run. split.
  - intro extra. now apply fetchWithCursor_more_fuel.
  - eapply ends_sends_once, fetchWithCursor_ends, H.
Qed.

(** X2.  Whatever the calls of [fetchWithOffsetLimit] answer, its loop is
    left after at most one round per selected row and one more, and the
    function returns having sent exactly one Result. *)
Theorem X2_offset_returns_with_one_result (env : Env) (tbl : Table)
    (limit batchSize : Z) :
  exists run,
    (forall extra,
        fetchWithOffsetLimit env tbl limit batchSize
          (S (length (select_le limit tbl)) + extra) = inr run) /\
    length (sent run) = 1%nat.
Proof.
  destruct (fetchWithOffsetLimit_returns env tbl limit batchSize
              (S (length (select_le limit tbl))) (Nat.lt_succ_diag_r _))
    as [run H].
  exists run. split.
  - intro extra. now apply fetchWithOffsetLimit_more_fuel.
  - eapply ends_sends_once, fetchWithOffsetLimit_ends, H.
Qed.

(** X3.  The value a strategy returns against the Result it has sent:
    [fetchWithCustomCursor] and [fetchWithOffsetLimit] return the error of
    their Result (nil with a Result of success); [fetchWithCursor] returns
    the error of its Result when there is one, and with a Result of success
    it returns what [tx.Commit] answered, the cursor having been closed
    without error. *)
Theorem X3_returned_error_and_result (env : Env) (tbl : Table)
    (limit batchSize : Z) (fuel : nat) (run : Run) :
  (fetchWithCustomCursor env tbl limit batchSize fuel = inr run ->
   exists r, sent run = [r] /\ ret run = Err r) /\
  (fetchWithOffsetLimit env tbl limit batchSize fuel = inr run ->
   exists r, sent run = [r] /\ ret run = Err r) /\
  (fetchWithCursor env tbl limit batchSize fuel = inr run ->
   exists r, sent run = [r] /\
     match Err r with
     | Some e => ret run = Some e
     | None => ret run = commit_err env /\ close_err env = None
     end).
Proof.
  split; [|split]; intro H.
  - destruct (fetchWithCustomCursor_ends _ _ _ _ _ _ H)
      as [[(e & [Hs Hr] & _) | Hs] Hok].
    + eexists. split; [exact Hs | exact Hr].
    + eexists. split; [exact Hs | exact (Hok Hs)].
  - destruct (fetchWithOffsetLimit_ends _ _ _ _ _ _ H)
      as [[(e & [Hs Hr] & _) | Hs] Hok].
    + eexists. split; [exact Hs | exact Hr].
    + eexists. split; [exact Hs | exact (Hok Hs)].
  - destruct (fetchWithCursor_ends _ _ _ _ _ _ H)
      as [[(e & [Hs Hr] & _) | Hs] Hok].
    + eexists. split; [exact Hs | exact Hr].
    + eexists. split; [exact Hs|]. cbn [Err cursor_ok set_Message
                                         cursor_result].
      destruct (Hok Hs). auto.
Qed.

(** X4.  The Result of a strategy names the strategy in [Type], and carries
    either an error and no message, or no error and the message
    "... done in <seconds> second": main always has one of the two to
    print. *)
Theorem X4_result_names_strategy_error_or_message (env : Env) (tbl : Table)
    (limit batchSize : Z) (fuel : nat) (run : Run) :
  let shape := fun (name line : string) (r : Result) =>
    Type_ r = name /\
    ((exists e, Err r = Some e /\ Message r = ""%string) \/
     (Err r = None /\
      Message r = (line ++ " done in " ++ seconds env ++ " second")%string)) in
  (fetchWithCursor env tbl limit batchSize fuel = inr run ->
   exists r, sent run = [r] /\ shape "cursor"%string "cursor"%string r) /\
  (fetchWithCustomCursor env tbl limit batchSize fuel = inr run ->
   exists r, sent run = [r] /\
             shape "custom_cursor"%string "custom cursor"%string r) /\
  (fetchWithOffsetLimit env tbl limit batchSize fuel = inr run ->
   exists r, sent run = [r] /\
             shape "offset_limit"%string "offset limit"%string r).
Proof.
  intro shape. split; [|split]; intro H.
  - destruct (fetchWithCursor_ends _ _ _ _ _ _ H)
      as [[(e & [Hs _] & _) | Hs] _]; eexists; (split; [exact Hs|]);
      (split; [reflexivity|]); [left; now exists e | right; now split].
  - destruct (fetchWithCustomCursor_ends _ _ _ _ _ _ H)
      as [[(e & [Hs _] & _) | Hs] _]; eexists; (split; [exact Hs|]);
      (split; [reflexivity|]); [left; now exists e | right; now split].
  - destruct (fetchWithOffsetLimit_ends _ _ _ _ _ _ H)
      as [[(e & [Hs _] & _) | Hs] _]; eexists; (split; [exact Hs|]);
      (split; [reflexivity|]); [left; now exists e | right; now split].
Qed.

(* ================================================================== *)
(** * Where the error of a Result comes from *)

Lemma batch_cause (env : Env) (w : error -> error) (n : nat)
    (got : list Row) (out : Sink) (lastId : Z) (e : error) :
  snd (batch env w n (open_rows env n got) out lastId) = Abort e ->
  wraps_env_error env e \/ (exists e0, write_error env e0 /\ e = w e0).
Proof.
  intro H.
  destruct (batch_err env w n got out lastId e H)
    as [(j & e0 & He0 & ->) | [(j & e0 & He0 & ->) | (k & e0 & He0 & ->)]].
  - left. exists "failed to scan row: %w"%string, e0. split; [reflexivity|].
    unfold env_error. do 6 right. left. now exists n, j.
  - right. exists e0. split; [now exists n, j | reflexivity].
  - left. exists "error occurred while iterating rows: %w"%string, e0.
    split; [reflexivity|]. unfold env_error. do 5 right. left. now exists n, k.
Qed.

Lemma write_error_env (env : Env) (e : error) :
  write_error env e -> env_error env e.
Proof. intro H. unfold env_error. do 7 right. exact H. Qed.

Lemma cursor_body_cause (env : Env) (batchSize : Z) (st : CursorSt) :
  match cursor_body env batchSize st with
  | inl _ => True
  | inr run => ends cursor_result (cursor_ok env) (wraps_env_error env) run
  end.
Proof.
  unfold cursor_body. destruct (query_err env (c_n st)) as [e|] eqn:Eq.
  { left. eexists. split; [split; reflexivity|].
    exists "failed to fetch data: %w"%string, e. split; [reflexivity|].
    unfold env_error. do 4 right. left. now exists (c_n st). }
  unfold fetch.
  pose proof (batch_cause env (Errorf "error writing record to CSV: %v")
                (c_n st) (firstn (Z.to_nat batchSize) (c_cur st))
                (c_out st) 0) as Hc.
  destruct (batch _ _ _ _ _ _) as [[out' lastId'] [|e|]]; cbn [snd] in *.
  - unfold cursor_finish. destruct (close_err env) as [e|] eqn:Ec.
    + left. eexists. split; [split; reflexivity|].
      exists "failed to close cursor: %w"%string, e. split; [reflexivity|].
      unfold env_error. do 3 right. now left.
    + now right.
  - left. exists e. split; [split; reflexivity|].
    destruct (Hc e eq_refl) as [H | (e0 & Hw & ->)]; [exact H|].
    exists "error writing record to CSV: %v"%string, e0.
    split; [reflexivity | now apply write_error_env].
  - exact I.
Qed.

Lemma custom_body_cause (env : Env) (tbl : Table) (limit batchSize : Z)
    (st : CustomSt) :
  match custom_body env tbl limit batchSize st with
  | inl _ => True
  | inr run => ends custom_result (custom_ok env) (wraps_env_error env) run
  end.
Proof.
  unfold custom_body. destruct (query_err env (k_n st)) as [e|] eqn:Eq.
  { left. eexists. split; [split; reflexivity|].
    exists "failed to fetch data: %w"%string, e. split; [reflexivity|].
    unfold env_error. do 4 right. left. now exists (k_n st). }
  pose proof (batch_cause env (Errorf "error writing record to CSV: %v\n")
                (k_n st)
                (sql_limit batchSize (select_between (k_lastId st) limit tbl))
                (k_out st) (k_lastId st)) as Hc.
  destruct (batch _ _ _ _ _ _) as [[out' lastId'] [|e|]]; cbn [snd] in *.
  - now right.
  - left. exists e. split; [split; reflexivity|].
    destruct (Hc e eq_refl) as [H | (e0 & Hw & ->)]; [exact H|].
    exists "error writing record to CSV: %v\n"%string, e0.
    split; [reflexivity | now apply write_error_env].
  - exact I.
Qed.

Lemma offset_body_cause (env : Env) (tbl : Table) (limit batchSize : Z)
    (st : OffsetSt) :
  match offset_body env tbl limit batchSize st with
  | inl _ => True
  | inr run =>
      ends offset_result (offset_ok env)
        (fun e => wraps_env_error env e \/ write_error env e) run
  end.
Proof.
  unfold offset_body. destruct (query_err env (o_n st)) as [e|] eqn:Eq.
  { left. eexists. split; [split; reflexivity|]. left.
    exists "failed to fetch data: %w"%string, e. split; [reflexivity|].
    unfold env_error. do 4 right. left. now exists (o_n st). }
  pose proof (batch_cause env (fun e => e) (o_n st)
                (sql_limit batchSize
                   (sql_offset (o_offset st) (select_le limit tbl)))
                (o_out st) 0) as Hc.
  destruct (batch _ _ _ _ _ _) as [[out' lastId'] [|e|]]; cbn [snd] in *.
  - now right.
  - left. exists e. split; [split; reflexivity|].
    destruct (Hc e eq_refl) as [H | (e0 & Hw & ->)]; [now left | now right].
  - exact I.
Qed.

Lemma ends_Err (result ok : Result) (good : error -> Prop) (run : Run)
    (r : Result) (e : error) :
  Err ok = None ->
  ends result ok good run -> In r (sent run) -> Err r = Some e -> good e.
Proof.
  intros Hok [(e' & [Hs _] & Hg) | Hs] Hin He; rewrite Hs in Hin;
    destruct Hin as [<- | []].
  - cbn in He. now injection He as <-.
  - congruence.
Qed.

(** X5.  The error in a Result is an error one of the strategy's calls
    handed back, inside one [fmt.Errorf]; only in [fetchWithOffsetLimit] can
    it also be the bare error of [writer.Write].  The error of [tx.Commit]
    is not among them. *)
Theorem X5_result_error_is_a_wrapped_call_error (env : Env) (tbl : Table)
    (limit batchSize : Z) (fuel : nat) (run : Run) (r : Result) (e : error)
    (Hin : In r (sent run)) (He : Err r = Some e) :
  (fetchWithCursor env tbl limit batchSize fuel = inr run ->
   wraps_env_error env e) /\
  (fetchWithCustomCursor env tbl limit batchSize fuel = inr run ->
   wraps_env_error env e) /\
  (fetchWithOffsetLimit env tbl limit batchSize fuel = inr run ->
   wraps_env_error env e \/ write_error env e).
Proof.
  split; [|split]; intro H.
  - refine (ends_Err cursor_result (cursor_ok env) _ run r e eq_refl _ Hin He).
    revert H. unfold fetchWithCursor.
    destruct (create_err env) as [c|] eqn:E1.
    { intros [= <-]. left. eexists. split; [split; reflexivity|].
      exists "error creating file: %v"%string, c. split; [reflexivity|].
      now left. }
    destruct (begin_err env) as [c|] eqn:E2.
    { intros [= <-]. left. eexists. split; [split; reflexivity|].
      exists "failed to begin transaction: %w"%string, c.
      split; [reflexivity|]. right. now left. }
    destruct (declare_err env) as [c|] eqn:E3.
    { intros [= <-]. left. eexists. split; [split; reflexivity|].
      exists "failed to declare cursor: %w"%string, c.
      split; [reflexivity|]. do 2 right. now left. }
    intro H.
    pose proof (loop_invariant _ (fun _ => True) _
                  (fun st _ => cursor_body_cause env batchSize st) fuel
                  {| c_n := 0; c_cur := select_le limit tbl; c_out := [] |} I)
      as L.
    rewrite H in L. exact L.
  - refine (ends_Err custom_result (custom_ok env) _ run r e eq_refl _ Hin He).
    revert H. unfold fetchWithCustomCursor.
    destruct (create_err env) as [c|] eqn:E1.
    { intros [= <-]. left. eexists. split; [split; reflexivity|].
      exists "error creating file: %v"%string, c. split; [reflexivity|].
      now left. }
    intro H.
    pose proof (loop_invariant _ (fun _ => True) _
                  (fun st _ => custom_body_cause env tbl limit batchSize st)
                  fuel {| k_n := 0; k_lastId := 0; k_out := [] |} I) as L.
    rewrite H in L. exact L.
  - refine (ends_Err offset_result (offset_ok env)
              (fun x => wraps_env_error env x \/ write_error env x)
              run r e eq_refl _ Hin He).
    revert H. unfold fetchWithOffsetLimit.
    destruct (create_err env) as [c|] eqn:E1.
    { intros [= <-]. left. eexists. split; [split; reflexivity|]. left.
      exists "error creating file: %v"%string, c. split; [reflexivity|].
      now left. }
    intro H.
    pose proof (loop_invariant _ (fun _ => True) _
                  (fun st _ => offset_body_cause env tbl limit batchSize st)
                  fuel {| o_n := 0; o_offset := 0; o_out := [] |} I) as L.
    rewrite H in L. exact L.
Qed.

(** The second query of the cursor strategy fails on a table of four rows
    fetched two at a time. *)
Lemma X5_witness :
  let env := second_query_fails "0.01" (Raw 7) in
  let r := set_Err cursor_result (Errorf "failed to fetch data: %w" (Raw 7)) in
  fetchWithCursor env (pgbench 4) 4 2 5 =
  inr (fail cursor_result (Errorf "failed to fetch data: %w" (Raw 7))
         [record_of (mkRow 2 1 0)]) /\
  wraps_env_error env (Errorf "failed to fetch data: %w" (Raw 7)).
Proof.
  cbv zeta. split; [reflexivity|].
  refine (proj1 (X5_result_error_is_a_wrapped_call_error
           (second_query_fails "0.01" (Raw 7)) (pgbench 4) 4 2 5
           (fail cursor_result (Errorf "failed to fetch data: %w" (Raw 7))
              [record_of (mkRow 2 1 0)])
           (set_Err cursor_result (Errorf "failed to fetch data: %w" (Raw 7)))
           (Errorf "failed to fetch data: %w" (Raw 7))
           (or_introl eq_refl) eq_refl) _).
  reflexivity.
Defined.


(* ================================================================== *)
(** * The file of a run with errors against the file of the run without *)

Lemma prefix_refl {A : Type} (l : list A) : prefix l l.
Proof. exists []. now rewrite app_nil_r. Qed.

Lemma prefix_nil {A : Type} (l : list A) : prefix [] l.
Proof. now exists l. Qed.

Lemma prefix_app {A : Type} (l t : list A) : prefix l (l ++ t).
Proof. now exists t. Qed.

Lemma prefix_trans {A : Type} (l1 l2 l3 : list A) :
  prefix l1 l2 -> prefix l2 l3 -> prefix l1 l3.
Proof. intros [a ->] [b ->]. exists (a ++ b). now rewrite app_assoc. Qed.

Lemma prefix_map {A B : Type} (f : A -> B) (l1 l2 : list A) :
  prefix l1 l2 -> prefix (map f l1) (map f l2).
Proof. intros [t ->]. exists (map f t). now rewrite map_app. Qed.

Lemma prefix_In {A : Type} (l1 l2 : list A) (x : A) :
  prefix l1 l2 -> In x l1 -> In x l2.
Proof. intros [t ->] H. apply in_or_app. now left. Qed.

(** A loop state from which the rows [pre] have been written and the run
    without errors would go on to write the tails of the batches of [cur]:
    one round keeps this, and a run that ends has written a prefix. *)
Lemma batch_round (env : Env) (w : error -> error) (n : nat) (b : Z)
    (cur pre full : list Row) (out : Sink) (lastId : Z) :
  out = map record_of pre ->
  pre ++ tails (batches b cur) = full ->
  let res := batch env w n (open_rows env n (firstn (Z.to_nat b) cur))
               out lastId in
  prefix (fst (fst res)) (map record_of full) /\
  (snd res = Next_batch ->
   exists r p,
     firstn (Z.to_nat b) cur = r :: p /\
     snd (fst res) = last (map aid p) lastId /\
     fst (fst res) = map record_of (pre ++ p) /\
     (pre ++ p) ++ tails (batches b (skipn (Z.to_nat b) cur)) = full).
Proof.
  intros Hout Hfull res.
  pose proof (batch_spec env w n (firstn (Z.to_nat b) cur) out lastId) as H.
  cbv zeta in H. fold res in H.
  destruct H as [[_ H] | (r & p & q & Hgot & Ho & Hl & Hbe & Hq)].
  - rewrite H. cbn [fst snd]. split; [|discriminate].
    rewrite Hout, <- Hfull. apply prefix_map, prefix_app.
  - assert (Hf : full = (pre ++ p) ++ q ++
                        tails (batches b (skipn (Z.to_nat b) cur))).
    { rewrite <- Hfull, (batches_step b cur), Hgot, tails_cons. cbn [tl].
      now rewrite <- !app_assoc. }
    split.
    + rewrite Ho, Hout, <- map_app, Hf. apply prefix_map, prefix_app.
    + intro Hn. specialize (Hq Hn). subst q. exists r, p.
      rewrite app_nil_r in Hgot. cbn [app] in Hf.
      rewrite Ho, Hout, map_app. auto.
Qed.

Lemma cursor_body_prefix (env : Env) (batchSize : Z) (full : list Row)
    (st : CursorSt) :
  (exists pre, c_out st = map record_of pre /\
               pre ++ tails (batches batchSize (c_cur st)) = full) ->
  match cursor_body env batchSize st with
  | inl st' =>
      exists pre, c_out st' = map record_of pre /\
                  pre ++ tails (batches batchSize (c_cur st')) = full
  | inr run => prefix (file run) (map record_of full)
  end.
Proof.
  intros (pre & Hout & Hfull). unfold cursor_body.
  destruct (query_err env (c_n st)) as [e|].
  { cbn [file fail]. rewrite Hout, <- Hfull. apply prefix_map, prefix_app. }
  unfold fetch.
  pose proof (batch_round env (Errorf "error writing record to CSV: %v")
                (c_n st) batchSize (c_cur st) pre full (c_out st) 0
                Hout Hfull) as [Hp Hn].
  destruct (batch _ _ _ _ _ _) as [[out' lastId'] [|e|]]; cbn [fst snd] in *.
  - now rewrite file_cursor_finish.
  - exact Hp.
  - destruct (Hn eq_refl) as (r & p & _ & _ & Ho & Hf).
    exists (pre ++ p). cbn [c_out c_cur]. auto.
Qed.

Lemma offset_body_prefix (env : Env) (tbl : Table) (limit batchSize : Z)
    (full : list Row) (st : OffsetSt) :
  (0 <= o_offset st /\
   exists pre, o_out st = map record_of pre /\
     pre ++ tails (batches batchSize
                     (sql_offset (o_offset st) (select_le limit tbl))) =
     full) ->
  match offset_body env tbl limit batchSize st with
  | inl st' =>
      0 <= o_offset st' /\
      exists pre, o_out st' = map record_of pre /\
        pre ++ tails (batches batchSize
                        (sql_offset (o_offset st') (select_le limit tbl))) =
        full
  | inr run => prefix (file run) (map record_of full)
  end.
Proof.
  intros (Hoff & pre & Hout & Hfull). unfold offset_body.
  destruct (query_err env (o_n st)) as [e|].
  { cbn [file fail]. rewrite Hout, <- Hfull. apply prefix_map, prefix_app. }
  set (cur := sql_offset (o_offset st) (select_le limit tbl)) in *.
  unfold sql_limit.
  pose proof (batch_round env (fun e => e) (o_n st) batchSize cur pre full
                (o_out st) 0 Hout Hfull) as [Hp Hn].
  destruct (batch _ _ _ _ _ _) as [[out' lastId'] [|e|]]; cbn [fst snd] in *.
  - exact Hp.
  - exact Hp.
  - destruct (Hn eq_refl) as (r & p & Hgot & _ & Ho & Hf).
    assert (Hb : 0 < batchSize).
    { destruct (Z.to_nat batchSize) eqn:E; [discriminate Hgot | lia]. }
    cbn [o_offset o_out]. split; [lia|]. exists (pre ++ p).
    split; [assumption|].
    replace (sql_offset (o_offset st + batchSize) (select_le limit tbl))
      with (skipn (Z.to_nat batchSize) cur); [assumption|].
    unfold cur, sql_offset. rewrite skipn_skipn. f_equal. lia.
Qed.

Lemma custom_body_prefix (env : Env) (tbl : Table) (limit batchSize : Z)
    (full : list Row) (st : CustomSt) :
  primary_key tbl ->
  (exists pre, k_out st = map record_of pre /\
     pre ++ tails (batches batchSize
                     (select_between (k_lastId st) limit tbl)) = full) ->
  match custom_body env tbl limit batchSize st with
  | inl st' =>
      exists pre, k_out st' = map record_of pre /\
        pre ++ tails (batches batchSize
                        (select_between (k_lastId st') limit tbl)) = full
  | inr run => prefix (file run) (map record_of full)
  end.
Proof.
  intros Hpk (pre & Hout & Hfull). unfold custom_body.
  destruct (query_err env (k_n st)) as [e|].
  { cbn [file fail]. rewrite Hout, <- Hfull. apply prefix_map, prefix_app. }
  set (sel := select_between (k_lastId st) limit tbl) in *.
  unfold sql_limit.
  pose proof (batch_round env (Errorf "error writing record to CSV: %v\n")
                (k_n st) batchSize sel pre full (k_out st) (k_lastId st)
                Hout Hfull) as [Hp Hn].
  destruct (batch _ _ _ _ _ _) as [[out' lastId'] [|e|]]; cbn [fst snd] in *.
  - exact Hp.
  - exact Hp.
  - destruct (Hn eq_refl) as (r & p & Hgot & Hl & Ho & Hf).
    cbn [k_out k_lastId]. destruct p as [|r2 p].
    + exists pre. cbn [map last] in Hl. subst lastId'. fold sel.
      rewrite app_nil_r in Ho. split; assumption.
    + exists (pre ++ r2 :: p). split; [assumption|]. subst lastId'.
      rewrite (select_between_advance tbl limit (k_lastId st)
                 (Z.to_nat batchSize) r (r2 :: p) Hpk Hgot
                 ltac:(discriminate)).
      exact Hf.
Qed.

(** The files of the three strategies in any environment. *)
Lemma cursor_file_prefix (env : Env) (tbl : Table) (limit batchSize : Z)
    (fuel : nat) :
  prefix (cursor_file (fetchWithCursor env tbl limit batchSize fuel))
    (map record_of (tails (batches batchSize (select_le limit tbl)))).
Proof.
  unfold fetchWithCursor.
  destruct (create_err env); [apply prefix_nil|].
  destruct (begin_err env); [apply prefix_nil|].
  destruct (declare_err env); [apply prefix_nil|].
  pose proof (loop_invariant _ _ _
                (cursor_body_prefix env batchSize
                   (tails (batches batchSize (select_le limit tbl))))
                fuel
                {| c_n := 0; c_cur := select_le limit tbl; c_out := [] |})
    as L.
  destruct (loop _ _ _) as [st|run]; cbn [cursor_file].
  - destruct L as (pre & Ho & Hf); [now exists []|].
    rewrite Ho, <- Hf. apply prefix_map, prefix_app.
  - apply L. now exists [].
Qed.

Lemma offset_file_prefix (env : Env) (tbl : Table) (limit batchSize : Z)
    (fuel : nat) :
  prefix (offset_file (fetchWithOffsetLimit env tbl limit batchSize fuel))
    (map record_of (tails (batches batchSize (select_le limit tbl)))).
Proof.
  unfold fetchWithOffsetLimit.
  destruct (create_err env); [apply prefix_nil|].
  pose proof (loop_invariant _ _ _
                (offset_body_prefix env tbl limit batchSize
                   (tails (batches batchSize (select_le limit tbl))))
                fuel {| o_n := 0; o_offset := 0; o_out := [] |}) as L.
  destruct (loop _ _ _) as [st|run]; cbn [offset_file].
  - destruct L as (_ & pre & Ho & Hf).
    { split; [cbn; lia|]. now exists []. }
    rewrite Ho, <- Hf. apply prefix_map, prefix_app.
  - apply L. split; [cbn; lia|]. now exists [].
Qed.

Lemma custom_file_prefix (env : Env) (tbl : Table) (limit batchSize : Z)
    (fuel : nat) :
  primary_key tbl ->
  prefix (custom_file (fetchWithCustomCursor env tbl limit batchSize fuel))
    (map record_of
       (tails (batches batchSize (select_between 0 limit tbl)))).
Proof.
  intro Hpk. unfold fetchWithCustomCursor.
  destruct (create_err env); [apply prefix_nil|].
  pose proof (loop_invariant _ _ _
                (fun st => custom_body_prefix env tbl limit batchSize
                   (tails (batches batchSize (select_between 0 limit tbl)))
                   st Hpk)
                fuel {| k_n := 0; k_lastId := 0; k_out := [] |}) as L.
  destruct (loop _ _ _) as [st|run]; cbn [custom_file].
  - destruct L as (pre & Ho & Hf); [now exists []|].
    rewrite Ho, <- Hf. apply prefix_map, prefix_app.
  - apply L. now exists [].
Qed.

(** X6.  Whatever fails, the file of a strategy is a beginning of the file
    the strategy writes in the run without errors: a failure cuts the output
    short and never adds, drops or reorders a record.  ([aid] being the
    primary key of the table, which the custom cursor relies on.) *)
Theorem X6_file_is_prefix_of_error_free_file (ec eo ek : Env) (tbl : Table)
    (limit batchSize : Z) (fuel : nat) (Hpk : primary_key tbl) :
  prefix (cursor_file (fetchWithCursor ec tbl limit batchSize fuel))
    (map record_of (tails (batches batchSize (select_le limit tbl)))) /\
  prefix (offset_file (fetchWithOffsetLimit eo tbl limit batchSize fuel))
    (map record_of (tails (batches batchSize (select_le limit tbl)))) /\
  prefix (custom_file (fetchWithCustomCursor ek tbl limit batchSize fuel))
    (map record_of
       (tails (batches batchSize (select_between 0 limit tbl)))).
Proof.
  split; [apply cursor_file_prefix|].
  split; [apply offset_file_prefix | now apply custom_file_prefix].
Qed.

(** On a table of seven rows fetched three at a time, with the second query
    of each strategy failing. *)
Lemma X6_witness :
  let env := second_query_fails "0.01" (Raw 7) in
  primary_key (pgbench 7) /\
  cursor_file (fetchWithCursor env (pgbench 7) 7 3 9) =
  [record_of (mkRow 2 1 0); record_of (mkRow 3 1 0)] /\
  prefix (cursor_file (fetchWithCursor env (pgbench 7) 7 3 9))
    (map record_of (tails (batches 3 (select_le 7 (pgbench 7))))).
Proof.
  cbv zeta. assert (Hpk : primary_key (pgbench 7)) by distinct_keys.
  split; [exact Hpk|]. split; [reflexivity|].
  exact (proj1 (X6_file_is_prefix_of_error_free_file
                  (second_query_fails "0.01" (Raw 7))
                  (second_query_fails "0.01" (Raw 7))
                  (second_query_fails "0.01" (Raw 7))
                  (pgbench 7) 7 3 9 Hpk)).
Defined.

(** X7.  No strategy ever writes the row with the least key among the rows
    it selects, whatever the batch size and whatever fails. *)
Theorem X7_least_selected_row_never_written (ec eo ek : Env) (tbl : Table)
    (limit batchSize : Z) (fuel : nat) (Hpk : primary_key tbl) :
  (forall r rest, select_le limit tbl = r :: rest ->
     ~ In (record_of r)
          (cursor_file (fetchWithCursor ec tbl limit batchSize fuel)) /\
     ~ In (record_of r)
          (offset_file (fetchWithOffsetLimit eo tbl limit batchSize fuel))) /\
  (forall r rest, select_between 0 limit tbl = r :: rest ->
     ~ In (record_of r)
          (custom_file (fetchWithCustomCursor ek tbl limit batchSize fuel))).
Proof.
  pose proof (cursor_file_prefix ec tbl limit batchSize fuel) as Pc.
  pose proof (offset_file_prefix eo tbl limit batchSize fuel) as Po.
  pose proof (custom_file_prefix ek tbl limit batchSize fuel Hpk) as Pk.
  assert (K : forall (l : list Row) r rest,
             ascending l -> l = r :: rest ->
             ~ In (record_of r) (map record_of (tails (batches batchSize l)))).
  { intros l r rest Hasc Hl. rewrite In_map_record_of.
    destruct (Z.ltb_spec 0 batchSize) as [Hb | Hb].
    - pose proof (concat_batches batchSize l Hb) as Hc.
      intro Hin.
      apply (heads_xor_tails (batches batchSize l) r) in Hin.
      + apply Hin. rewrite batches_step, Hl.
        destruct (Z.to_nat batchSize) eqn:E; [lia|]. cbn. now left.
      + now rewrite Hc.
      + rewrite Hc, Hl. now left.
    - unfold batches. replace (Z.to_nat batchSize) with 0%nat by lia.
      destruct (length l); cbn; intro H; exact H. }
  split.
  - intros r rest Hs.
    pose proof (K _ r rest (select_le_ascending limit tbl Hpk) Hs) as Hn.
    split; intro Hin; apply Hn;
      [exact (prefix_In _ _ _ Pc Hin) | exact (prefix_In _ _ _ Po Hin)].
  - intros r rest Hs.
    pose proof (K _ r rest (select_between_ascending 0 limit tbl Hpk) Hs)
      as Hn.
    intro Hin. apply Hn. exact (prefix_In _ _ _ Pk Hin).
Qed.

(** On a table of seven rows fetched three at a time, all of them selected:
    the row of key 1 is in no file. *)
Lemma X7_witness :
  primary_key (pgbench 7) /\
  select_le 7 (pgbench 7) = mkRow 1 1 0 :: tl (pgbench 7) /\
  ~ In (record_of (mkRow 1 1 0))
       (cursor_file (fetchWithCursor (quiet "0.01") (pgbench 7) 7 3 9)).
Proof.
  assert (Hpk : primary_key (pgbench 7)) by distinct_keys.
  split; [exact Hpk|]. split; [reflexivity|].
  exact (proj1 (proj1 (X7_least_selected_row_never_written
                         (quiet "0.01") (quiet "0.01") (quiet "0.01")
                         (pgbench 7) 7 3 9 Hpk)
                  (mkRow 1 1 0) (tl (pgbench 7)) eq_refl)).
Defined.


(* ================================================================== *)
(** * The file only grows *)

Lemma loop_add {St : Type} (body : St -> St + Run) (f k : nat) :
  forall st : St,
    loop body (f + k) st =
    match loop body f st with
    | inl st' => loop body k st'
    | inr run => inr run
    end.
Proof.
  induction f as [|f IH]; intro st; [reflexivity|]. cbn [Nat.add loop].
  destruct (body st) as [st'|run]; [apply IH | reflexivity].
Qed.

Lemma loop_grows {St : Type} (body : St -> St + Run) (out : St -> Sink) :
  (forall st, match body st with
              | inl st' => prefix (out st) (out st')
              | inr run => prefix (out st) (file run)
              end) ->
  forall fuel st,
    prefix (out st)
      (match loop body fuel st with
       | inl st' => out st'
       | inr run => file run
       end).
Proof.
  intro Hbody. induction fuel as [|fuel IH]; intro st; cbn [loop].
  - apply prefix_refl.
  - specialize (Hbody st). destruct (body st) as [st'|run]; [|exact Hbody].
    exact (prefix_trans _ _ _ Hbody (IH st')).
Qed.

Lemma batch_grows (env : Env) (w : error -> error) (n : nat)
    (got : list Row) (out : Sink) (lastId : Z) :
  prefix out (fst (fst (batch env w n (open_rows env n got) out lastId))).
Proof.
  pose proof (batch_spec env w n got out lastId) as H. cbv zeta in H.
  destruct H as [[_ ->] | (r & p & q & _ & -> & _)];
    [apply prefix_refl | apply prefix_app].
Qed.

Lemma cursor_body_grows (env : Env) (batchSize : Z) (st : CursorSt) :
  match cursor_body env batchSize st with
  | inl st' => prefix (c_out st) (c_out st')
  | inr run => prefix (c_out st) (file run)
  end.
Proof.
  unfold cursor_body. destruct (query_err env (c_n st)); [apply prefix_refl|].
  unfold fetch.
  pose proof (batch_grows env (Errorf "error writing record to CSV: %v")
                (c_n st) (firstn (Z.to_nat batchSize) (c_cur st))
                (c_out st) 0) as H.
  destruct (batch _ _ _ _ _ _) as [[out' l'] [|e|]]; cbn [fst] in H;
    [now rewrite file_cursor_finish | exact H | exact H].
Qed.

Lemma offset_body_grows (env : Env) (tbl : Table) (limit batchSize : Z)
    (st : OffsetSt) :
  match offset_body env tbl limit batchSize st with
  | inl st' => prefix (o_out st) (o_out st')
  | inr run => prefix (o_out st) (file run)
  end.
Proof.
  unfold offset_body. destruct (query_err env (o_n st)); [apply prefix_refl|].
  pose proof (batch_grows env (fun e => e) (o_n st)
                (sql_limit batchSize
                   (sql_offset (o_offset st) (select_le limit tbl)))
                (o_out st) 0) as H.
  destruct (batch _ _ _ _ _ _) as [[out' l'] [|e|]]; exact H.
Qed.

Lemma custom_body_grows (env : Env) (tbl : Table) (limit batchSize : Z)
    (st : CustomSt) :
  match custom_body env tbl limit batchSize st with
  | inl st' => prefix (k_out st) (k_out st')
  | inr run => prefix (k_out st) (file run)
  end.
Proof.
  unfold custom_body. destruct (query_err env (k_n st)); [apply prefix_refl|].
  pose proof (batch_grows env (Errorf "error writing record to CSV: %v\n")
                (k_n st)
                (sql_limit batchSize (select_between (k_lastId st) limit tbl))
                (k_out st) (k_lastId st)) as H.
  destruct (batch _ _ _ _ _ _) as [[out' l'] [|e|]]; exact H.
Qed.

(** X8.  The file of a strategy is only ever appended to: what it holds
    after some rounds of the loop is a beginning of what it holds after
    more rounds, whatever fails. *)
Theorem X8_file_only_grows (env : Env) (tbl : Table) (limit batchSize : Z)
    (fuel more : nat) :
  prefix (cursor_file (fetchWithCursor env tbl limit batchSize fuel))
    (cursor_file (fetchWithCursor env tbl limit batchSize (fuel + more))) /\
  prefix (offset_file (fetchWithOffsetLimit env tbl limit batchSize fuel))
    (offset_file (fetchWithOffsetLimit env tbl limit batchSize
                    (fuel + more))) /\
  prefix (custom_file (fetchWithCustomCursor env tbl limit batchSize fuel))
    (custom_file (fetchWithCustomCursor env tbl limit batchSize
                    (fuel + more))).
Proof.
  split; [|split].
  - unfold fetchWithCursor.
    destruct (create_err env); [apply prefix_refl|].
    destruct (begin_err env); [apply prefix_refl|].
    destruct (declare_err env); [apply prefix_refl|].
    rewrite loop_add. destruct (loop _ fuel _) as [st|run];
      [|apply prefix_refl].
    exact (loop_grows _ c_out (cursor_body_grows env batchSize) more st).
  - unfold fetchWithOffsetLimit.
    destruct (create_err env); [apply prefix_refl|].
    rewrite loop_add. destruct (loop _ fuel _) as [st|run];
      [|apply prefix_refl].
    exact (loop_grows _ o_out
             (offset_body_grows env tbl limit batchSize) more st).
  - unfold fetchWithCustomCursor.
    destruct (create_err env); [apply prefix_refl|].
    rewrite loop_add. destruct (loop _ fuel _) as [st|run];
      [|apply prefix_refl].
    exact (loop_grows _ k_out
             (custom_body_grows env tbl limit batchSize) more st).
Qed.

(* ================================================================== *)
(** * How many queries, how many records *)

Lemma batches_nonempty {A : Type} (b : Z) (l : list A) :
  Forall (fun c => c <> []) (batches b l).
Proof.
  remember (length l) as n eqn:Hn. revert l Hn.
  induction n as [n IH] using lt_wf_ind. intros l Hn.
  rewrite batches_step.
  destruct (firstn (Z.to_nat b) l) as [|x c] eqn:E; constructor;
    [discriminate|].
  apply (IH (length (skipn (Z.to_nat b) l))); [|reflexivity].
  subst n. apply skipn_shorter. rewrite E. discriminate.
Qed.

Lemma length_tails {A : Type} (bs : list (list A)) :
  Forall (fun c => c <> []) bs ->
  (length (tails bs) + length bs = length (concat bs))%nat.
Proof.
  induction 1 as [|c bs Hc _ IH]; [reflexivity|].
  rewrite tails_cons. cbn [concat length]. rewrite !length_app.
  destruct c as [|x c]; [congruence|]. cbn [tl length]. lia.
Qed.

(** The number of batches: the number of rows over the batch size, rounded
    up. *)
Lemma length_batches {A : Type} (b : Z) (l : list A) :
  0 < b ->
  length (batches b l) =
  ((length l + Z.to_nat b - 1) / Z.to_nat b)%nat.
Proof.
  intro Hb. remember (length l) as n eqn:Hn. revert l Hn.
  induction n as [n IH] using lt_wf_ind. intros l Hn.
  rewrite batches_step.
  destruct (Z.to_nat b) as [|k] eqn:Ek; [lia|].
  destruct l as [|x l].
  - cbn [firstn length] in *. subst n. cbn [length].
    symmetry. apply Nat.div_small. lia.
  - cbn [firstn skipn length] in *. rewrite <- Ek.
    rewrite (IH (length (skipn k l))
               ltac:(subst n; pose proof (length_skipn k l); lia)
               _ eq_refl).
    rewrite Ek, length_skipn. subst n.
    destruct (Nat.le_gt_cases (S k) (S (length l))) as [Hge | Hlt].
    + replace (S (length l) + S k - 1)%nat
        with ((length l - k + S k - 1) + 1 * S k)%nat by lia.
      rewrite Nat.div_add by lia. lia.
    + replace (length l - k)%nat with 0%nat by lia.
      rewrite (Nat.div_small (0 + S k - 1) (S k)) by lia.
      apply (Nat.div_unique _ _ 1 (length l)); lia.
Qed.

(** In a run without errors the loop of the cursor makes one round for each
    batch and then the one that finds no row. *)
Lemma cursor_loop_rounds (env : Env) (batchSize : Z) :
  calm env ->
  forall (fuel : nat) (st : CursorSt),
    (exists run, loop (cursor_body env batchSize) fuel st = inr run) <->
    (length (batches batchSize (c_cur st)) < fuel)%nat.
Proof.
  intro Hc. induction fuel as [|fuel IH]; intros [n cur out].
  - cbn [loop]. split; [intros [run H]; discriminate | lia].
  - cbn [loop c_cur]. unfold cursor_body at 1. cbn [c_n c_cur c_out].
    rewrite (proj1 Hc). unfold fetch. rewrite batch_calm by assumption.
    rewrite batches_step.
    destruct (firstn (Z.to_nat batchSize) cur) as [|r rest] eqn:E.
    + split; [cbn; lia | eauto].
    + rewrite IH. cbn [c_cur length]. lia.
Qed.

Lemma offset_loop_rounds (env : Env) (tbl : Table) (limit batchSize : Z) :
  calm env ->
  forall (fuel : nat) (st : OffsetSt),
    0 <= o_offset st ->
    ((exists run,
         loop (offset_body env tbl limit batchSize) fuel st = inr run) <->
     (length (batches batchSize
                (sql_offset (o_offset st) (select_le limit tbl))) < fuel)%nat).
Proof.
  intro Hc. induction fuel as [|fuel IH]; intros [n off out] Hoff.
  - cbn [loop]. split; [intros [run H]; discriminate | lia].
  - cbn [o_offset] in *. cbn [loop]. unfold offset_body at 1.
    cbn [o_n o_offset o_out]. rewrite (proj1 Hc). unfold sql_limit.
    rewrite batch_calm by assumption. rewrite batches_step.
    set (cur := sql_offset off (select_le limit tbl)) in *.
    destruct (firstn (Z.to_nat batchSize) cur) as [|r rest] eqn:E.
    + split; [cbn; lia | eauto].
    + assert (Hb : 0 < batchSize).
      { destruct (Z.to_nat batchSize) eqn:Ek; [discriminate E | lia]. }
      rewrite IH by (cbn [o_offset]; lia). cbn [o_offset length].
      replace (sql_offset (off + batchSize) (select_le limit tbl))
        with (skipn (Z.to_nat batchSize) cur); [lia|].
      unfold cur, sql_offset. rewrite skipn_skipn. f_equal. lia.
Qed.

(** X9.  In a run without errors and with a positive batch size,
    [fetchWithCursor] and [fetchWithOffsetLimit] each send as many queries
    as the number of selected rows over the batch size, rounded up, and one
    more (the one that comes back empty): the loop has been left after
    that many rounds and not before. *)
Theorem X9_queries_of_a_run (env : Env) (tbl : Table) (limit batchSize : Z)
    (fuel : nat) (Hcalm : calm env) (Hopen : opens env)
    (Hb : 0 < batchSize) :
  let rounds :=
    ((length (select_le limit tbl) + Z.to_nat batchSize - 1)
     / Z.to_nat batchSize)%nat in
  ((exists run, fetchWithCursor env tbl limit batchSize fuel = inr run) <->
   (rounds < fuel)%nat) /\
  ((exists run, fetchWithOffsetLimit env tbl limit batchSize fuel = inr run)
   <-> (rounds < fuel)%nat).
Proof.
  intro rounds. destruct Hopen as (H1 & H2 & H3).
  unfold rounds. rewrite <- (length_batches batchSize _ Hb). split.
  - unfold fetchWithCursor. rewrite H1, H2, H3.
    apply (cursor_loop_rounds env batchSize Hcalm fuel
             {| c_n := 0; c_cur := select_le limit tbl; c_out := [] |}).
  - unfold fetchWithOffsetLimit. rewrite H1.
    apply (offset_loop_rounds env tbl limit batchSize Hcalm fuel
             {| o_n := 0; o_offset := 0; o_out := [] |}). cbn. lia.
Qed.

(** Seven rows selected, three at a time: three batches, four queries. *)
Lemma X9_witness :
  calm (quiet "0.01") /\ opens (quiet "0.01") /\ 0 < 3 /\
  (exists run, fetchWithCursor (quiet "0.01") (pgbench 7) 7 3 4 = inr run) /\
  ~ (exists run, fetchWithCursor (quiet "0.01") (pgbench 7) 7 3 3 = inr run).
Proof.
  assert (Hc : calm (quiet "0.01")) by apply calm_quiet.
  assert (Ho : opens (quiet "0.01")) by (repeat split).
  assert (Hb : 0 < 3) by lia.
  split; [exact Hc|]. split; [exact Ho|]. split; [exact Hb|]. split.
  - apply (proj1 (X9_queries_of_a_run (quiet "0.01") (pgbench 7) 7 3 4
                    Hc Ho Hb)).
    vm_compute. lia.
  - intro H.
    apply (proj1 (X9_queries_of_a_run (quiet "0.01") (pgbench 7) 7 3 3
                    Hc Ho Hb)) in H.
    vm_compute in H. lia.
Defined.

(** X10.  In a run without errors and with a positive batch size, the file
    of [fetchWithCursor] and of [fetchWithOffsetLimit] holds as many records
    as there are selected rows less the number of batches: of [m] selected
    rows, [m] over the batch size, rounded up, are not written. *)
Theorem X10_records_of_a_run (env : Env) (tbl : Table) (limit batchSize : Z)
    (fuel : nat) (Hcalm : calm env) (Hopen : opens env)
    (Hb : 0 < batchSize)
    (Hfuel : (length (select_le limit tbl) < fuel)%nat) :
  let m := length (select_le limit tbl) in
  let lost := ((m + Z.to_nat batchSize - 1) / Z.to_nat batchSize)%nat in
  (length (cursor_file (fetchWithCursor env tbl limit batchSize fuel)) + lost
   = m)%nat /\
  (length (offset_file (fetchWithOffsetLimit env tbl limit batchSize fuel))
   + lost = m)%nat.
Proof.
  intros m lost.
  rewrite fetchWithCursor_calm, fetchWithOffsetLimit_calm by assumption.
  cbn [cursor_file offset_file offset_finish file].
  rewrite file_cursor_finish, length_map.
  unfold lost, m. rewrite <- (length_batches batchSize _ Hb).
  rewrite (length_tails _ (batches_nonempty batchSize _)).
  rewrite concat_batches by assumption. auto.
Qed.

(** Seven rows selected, three at a time: four records. *)
Lemma X10_witness :
  calm (quiet "0.01") /\ opens (quiet "0.01") /\ 0 < 3 /\
  (length (select_le 7 (pgbench 7)) < 9)%nat /\
  (length (cursor_file (fetchWithCursor (quiet "0.01") (pgbench 7) 7 3 9))
   + 3 = 7)%nat.
Proof.
  assert (Hc : calm (quiet "0.01")) by apply calm_quiet.
  assert (Ho : opens (quiet "0.01")) by (repeat split).
  assert (Hb : 0 < 3) by lia.
  assert (Hf : (length (select_le 7 (pgbench 7)) < 9)%nat)
    by (vm_compute; lia).
  split; [exact Hc|]. split; [exact Ho|]. split; [exact Hb|].
  split; [exact Hf|].
  exact (proj1 (X10_records_of_a_run (quiet "0.01") (pgbench 7) 7 3 9
                  Hc Ho Hb Hf)).
Defined.


(* ================================================================== *)
(** * When the custom cursor returns *)

Lemma single_or_none {A : Type} (bs : list (list A)) :
  Forall (fun c => length c <> 1%nat) bs \/
  Exists (fun c => length c = 1%nat) bs.
Proof.
  induction bs as [|c bs [IH | IH]].
  - left. constructor.
  - destruct (Nat.eq_dec (length c) 1) as [E | E].
    + right. now left.
    + left. now constructor.
  - right. now right.
Qed.

Lemma custom_loop_returns (env : Env) (tbl : Table) (limit batchSize : Z) :
  calm env -> primary_key tbl ->
  forall (fuel : nat) (st : CustomSt),
    Forall (fun c => length c <> 1%nat)
      (batches batchSize (select_between (k_lastId st) limit tbl)) ->
    (length (batches batchSize (select_between (k_lastId st) limit tbl))
     < fuel)%nat ->
    exists run, loop (custom_body env tbl limit batchSize) fuel st = inr run.
Proof.
  intros Hc Hpk. induction fuel as [|fuel IH]; intros [n w out] Hall Hlen;
    [lia|].
  cbn [k_lastId] in *. cbn [loop]. unfold custom_body at 1.
  cbn [k_n k_lastId k_out]. rewrite (proj1 Hc). unfold sql_limit.
  rewrite batch_calm by assumption.
  rewrite batches_step in Hall, Hlen.
  set (sel := select_between w limit tbl) in *.
  destruct (firstn (Z.to_nat batchSize) sel) as [|r [|r2 rest]] eqn:E.
  - eauto.
  - inversion Hall as [|? ? H1 _]; subst. now destruct H1.
  - inversion Hall as [|? ? _ Htl]; subst. cbn [length] in Hlen.
    apply IH; cbn [k_lastId];
      rewrite (select_between_advance tbl limit w (Z.to_nat batchSize)
                 r (r2 :: rest) Hpk E ltac:(discriminate));
      fold sel; [assumption | lia].
Qed.

Lemma custom_loop_spins (env : Env) (tbl : Table) (limit batchSize : Z) :
  calm env -> primary_key tbl ->
  forall (fuel : nat) (st : CustomSt),
    Exists (fun c => length c = 1%nat)
      (batches batchSize (select_between (k_lastId st) limit tbl)) ->
    exists st', loop (custom_body env tbl limit batchSize) fuel st = inl st'.
Proof.
  intros Hc Hpk. induction fuel as [|fuel IH]; intros [n w out] Hex;
    [cbn; eauto|].
  cbn [k_lastId] in *. rewrite batches_step in Hex.
  set (sel := select_between w limit tbl) in *.
  destruct (firstn (Z.to_nat batchSize) sel) as [|r [|r2 rest]] eqn:E.
  - inversion Hex.
  - rewrite (custom_loop_single env tbl limit batchSize w out r Hc E). eauto.
  - cbn [loop]. unfold custom_body at 1. cbn [k_n k_lastId k_out].
    rewrite (proj1 Hc). unfold sql_limit. fold sel. rewrite E.
    rewrite batch_calm by assumption.
    apply IH. cbn [k_lastId].
    rewrite (select_between_advance tbl limit w (Z.to_nat batchSize)
               r (r2 :: rest) Hpk E ltac:(discriminate)).
    fold sel. inversion Hex as [? ? H1 | ? ? H1]; subst;
      [cbn in H1; lia | assumption].
Qed.

(** Some batch has one row exactly when a row is left over alone after the
    full batches (batch size 2 or more), or when there is a row at all
    (batch size 1). *)
Lemma single_batch_mod {A : Type} (b : Z) (l : list A) :
  2 <= b ->
  (Exists (fun c => length c = 1%nat) (batches b l) <->
   (length l mod Z.to_nat b = 1)%nat).
Proof.
  intro Hb. remember (length l) as n eqn:Hn. revert l Hn.
  induction n as [n IH] using lt_wf_ind. intros l Hn.
  rewrite batches_step.
  destruct (Z.to_nat b) as [|[|k]] eqn:Ek; [lia | lia |].
  destruct l as [|x l].
  - cbn [firstn length] in *. subst n. rewrite Nat.Div0.mod_0_l.
    split; [intro H; inversion H | discriminate].
  - rewrite firstn_cons, skipn_cons. cbn [length] in *.
    assert (IH' := IH (length (skipn (S k) l))
               ltac:(subst n; pose proof (length_skipn (S k) l); lia)
               _ eq_refl).
    rewrite length_skipn in IH'. subst n.
    rewrite Exists_cons, IH'. cbn [length]. rewrite length_firstn.
    destruct (Nat.le_gt_cases (S (S k)) (S (length l))) as [Hge | Hlt].
    + assert (E : (S (length l) mod S (S k) =
                   (length l - S k) mod S (S k))%nat).
      { replace (S (length l))
          with ((length l - S k) + 1 * S (S k))%nat by lia.
        apply Nat.Div0.mod_add. }
      rewrite E. lia.
    + replace (length l - S k)%nat with 0%nat by lia.
      rewrite Nat.Div0.mod_0_l, (Nat.mod_small (S (length l))) by lia. lia.
Qed.

Lemma single_batch_one {A : Type} (l : list A) :
  Exists (fun c => length c = 1%nat) (batches 1 l) <-> l <> [].
Proof.
  rewrite batches_step. destruct l as [|x l]; cbn [Z.to_nat Pos.to_nat
    Pos.iter_op Nat.add firstn].
  - split; [intro H; inversion H | congruence].
  - split; [discriminate | intros _; now left].
Qed.

(** X11.  In a run without errors [fetchWithCustomCursor] returns exactly
    when no batch it is given has a single row.  With a batch size of 2 or
    more that is: when the number of rows it selects (keys above 0 and up
    to the limit) does not leave a remainder of 1 on division by the batch
    size; with batch size 1: when it selects no row.  Otherwise it stays in
    its loop for ever.  ([aid] being the primary key of the table.) *)
Theorem X11_custom_cursor_returns_iff (env : Env) (tbl : Table)
    (limit batchSize : Z)
    (Hcalm : calm env) (Hcreate : create_err env = None)
    (Hpk : primary_key tbl) (Hb : 1 <= batchSize) :
  let sel := select_between 0 limit tbl in
  (exists fuel run,
      fetchWithCustomCursor env tbl limit batchSize fuel = inr run) <->
  (if batchSize =? 1 then sel = []
   else (length sel mod Z.to_nat batchSize <> 1)%nat).
Proof.
  intro sel.
  assert (Hiff : (exists fuel run,
                     fetchWithCustomCursor env tbl limit batchSize fuel =
                     inr run) <->
                 ~ Exists (fun c => length c = 1%nat) (batches batchSize sel)).
  { unfold fetchWithCustomCursor. rewrite Hcreate. split.
    - intros (fuel & run & H) Hex.
      destruct (custom_loop_spins env tbl limit batchSize Hcalm Hpk fuel
                  {| k_n := 0; k_lastId := 0; k_out := [] |} Hex) as [st' H'].
      congruence.
    - intro Hno. destruct (single_or_none (batches batchSize sel))
        as [Hall | Hex]; [|contradiction].
      exists (S (length (batches batchSize sel))).
      apply (custom_loop_returns env tbl limit batchSize Hcalm Hpk _
               {| k_n := 0; k_lastId := 0; k_out := [] |});
        cbn [k_lastId]; [assumption | unfold sel; lia]. }
  rewrite Hiff. destruct (Z.eqb_spec batchSize 1) as [-> | Hne].
  - rewrite single_batch_one. destruct sel; [tauto|].
    split; [intro H; exfalso; apply H; discriminate | discriminate].
  - rewrite single_batch_mod by lia. tauto.
Qed.

(** Four rows two at a time: the custom cursor returns. *)
Lemma X11_witness :
  calm (quiet "0.01") /\ create_err (quiet "0.01") = None /\
  primary_key (pgbench 4) /\ 1 <= 2 /\
  exists fuel run,
    fetchWithCustomCursor (quiet "0.01") (pgbench 4) 4 2 fuel = inr run.
Proof.
  assert (Hc : calm (quiet "0.01")) by apply calm_quiet.
  assert (Hpk : primary_key (pgbench 4)) by distinct_keys.
  assert (Hb : 1 <= 2) by lia.
  split; [exact Hc|]. split; [reflexivity|]. split; [exact Hpk|].
  split; [exact Hb|].
  apply (proj2 (X11_custom_cursor_returns_iff (quiet "0.01") (pgbench 4) 4 2
                  Hc eq_refl Hpk Hb)).
  vm_compute. discriminate.
Defined.

(* ================================================================== *)
(** * The custom cursor's [lastId] *)

Lemma last_app (l1 l2 : list Z) (d : Z) :
  last (l1 ++ l2) d = last l2 (last l1 d).
Proof.
  revert d. induction l1 as [|x l1 IH]; intro d; [reflexivity|].
  cbn [app]. now rewrite !last_cons, IH.
Qed.

Lemma last_map_Some (l : list Z) (d : Z) :
  last (map Some l) (Some d) = Some (last l d).
Proof.
  induction l as [|x l IH]; [reflexivity|].
  destruct l as [|y l]; [reflexivity|].
  change (last (map Some (x :: y :: l)) (Some d))
    with (last (map Some (y :: l)) (Some d)).
  now rewrite IH.
Qed.

Lemma custom_body_lastId (env : Env) (tbl : Table) (limit batchSize : Z)
    (st : CustomSt) :
  (exists ws, k_out st = map record_of ws /\
              k_lastId st = last (map aid ws) 0) ->
  match custom_body env tbl limit batchSize st with
  | inl st' =>
      exists ws, k_out st' = map record_of ws /\
                 k_lastId st' = last (map aid ws) 0
  | inr _ => True
  end.
Proof.
  intros (ws & Hout & Hl). unfold custom_body.
  destruct (query_err env (k_n st)); [exact I|].
  pose proof (batch_spec env (Errorf "error writing record to CSV: %v\n")
                (k_n st)
                (sql_limit batchSize (select_between (k_lastId st) limit tbl))
                (k_out st) (k_lastId st)) as H.
  cbv zeta in H.
  destruct (batch _ _ _ _ _ _) as [[out' lastId'] [|e|]]; try exact I.
  destruct H as [[_ H] | (r & p & q & _ & Ho & Hl' & _)]; [discriminate|].
  cbn [fst snd] in Ho, Hl'. exists (ws ++ p). cbn [k_out k_lastId].
  rewrite Ho, Hout, Hl', Hl, !map_app, last_app. auto.
Qed.

(** X12.  While [fetchWithCustomCursor] is in its loop, [lastId] is the key
    of the last record of its file, and 0 while the file is empty,
    whatever has failed. *)
Theorem X12_lastId_is_last_key_written (env : Env) (tbl : Table)
    (limit batchSize : Z) (fuel : nat) (st : CustomSt)
    (Hst : fetchWithCustomCursor env tbl limit batchSize fuel = inl st) :
  last (map record_key (k_out st)) (Some 0) = Some (k_lastId st).
Proof.
  revert Hst. unfold fetchWithCustomCursor.
  destruct (create_err env); [discriminate|]. intro Hst.
  pose proof (loop_invariant _ _ (fun _ => True)
                (custom_body_lastId env tbl limit batchSize) fuel
                {| k_n := 0; k_lastId := 0; k_out := [] |}) as L.
  rewrite Hst in L. destruct L as (ws & Ho & Hl); [now exists []|].
  rewrite Ho, Hl, map_record_key. apply last_map_Some.
Qed.

(** After two rounds on six rows two at a time. *)
Lemma X12_witness :
  fetchWithCustomCursor (quiet "0.01") (pgbench 6) 6 2 2 =
  inl {| k_n := 2; k_lastId := 4;
         k_out := [record_of (mkRow 2 1 0); record_of (mkRow 4 1 0)] |} /\
  last (map record_key [record_of (mkRow 2 1 0); record_of (mkRow 4 1 0)])
       (Some 0) = Some 4.
Proof.
  split; [reflexivity|].
  exact (X12_lastId_is_last_key_written (quiet "0.01") (pgbench 6) 6 2 2
           {| k_n := 2; k_lastId := 4;
              k_out := [record_of (mkRow 2 1 0); record_of (mkRow 4 1 0)] |}
           eq_refl).
Defined.


(* ================================================================== *)
(** * The harness to its end *)

(** X13.  When [fetchWithCustomCursor] returns, the range loop of main
    comes to its end whatever the three strategies have met and however the
    goroutines are scheduled: in every state that can be reached somebody
    can move until main has left its range loop (no deadlock on the channel
    or the WaitGroup), no schedule has more than 14 moves on the channel
    and the WaitGroup, and where none is left main has left its loop, the
    channel has been closed once, and main has received three Results, one
    of each strategy.  (What main does after the loop, the deferred
    [pool.Close()], is not covered.) *)
Theorem X13_range_loop_ends_with_three_results (ec eo ek : Env) (tbl : Table)
    (limit batchSize : Z) (fuel : nat) (rk : Run)
    (Hfuel : (length (select_le limit tbl) < fuel)%nat)
    (Hk : fetchWithCustomCursor ek tbl limit batchSize fuel = inr rk) :
  let s0 := main ec eo ek tbl limit batchSize fuel in
  (forall s, reachable s0 s -> main_done s = false ->
             exists a s', exec a s = Some s') /\
  (forall sched s, run_schedule sched s0 = Some s ->
                   (length sched <= 14)%nat) /\
  (forall s, reachable s0 s -> stuck s ->
     main_done s = true /\ closed s = 1%nat /\
     Permutation (map Type_ (received s))
       ["cursor"; "offset_limit"; "custom_cursor"]%string).
Proof.
  intro s0.
  destruct (fetchWithCursor_returns ec tbl limit batchSize fuel Hfuel)
    as [rc Hc].
  destruct (fetchWithOffsetLimit_returns eo tbl limit batchSize fuel Hfuel)
    as [ro Ho].
  destruct (main_completes ec eo ek tbl limit batchSize fuel rc ro rk
              Hc Ho Hk) as [Hbound Hstuck].
  fold s0 in Hbound, Hstuck.
  pose proof (main_inv ec eo ek tbl limit batchSize fuel) as Hinv.
  fold s0 in Hinv.
  assert (Hns : Forall (fun g => g <> [Spin]) (gs s0)).
  { unfold s0, main, launch. cbn [gs]. rewrite Hc, Ho, Hk.
    repeat apply Forall_cons; try apply Forall_nil;
      cbn [goroutine_of];
      match goal with |- context [sent ?r] => destruct (sent r) end;
      cbn; congruence. }
  split; [|split].
  - intros s Hr Hd.
    exact (progress _ s (reachable_inv _ s0 s Hinv Hr)
             (reachable_no_spin _ s0 s Hinv Hns Hr) Hd).
  - exact Hbound.
  - intros s Hr Hs. destruct (Hstuck s Hr Hs) as (Hd & Hcl & Hperm & _).
    split; [assumption|]. split; [assumption|].
    apply (Permutation_map Type_) in Hperm. rewrite Hperm.
    destruct (fetchWithCursor_ends _ _ _ _ _ _ Hc) as [Ec _].
    destruct (fetchWithOffsetLimit_ends _ _ _ _ _ _ Ho) as [Eo _].
    destruct (fetchWithCustomCursor_ends _ _ _ _ _ _ Hk) as [Ek _].
    destruct Ec as [(e1 & [-> _] & _) | ->];
      destruct Eo as [(e2 & [-> _] & _) | ->];
      destruct Ek as [(e3 & [-> _] & _) | ->]; reflexivity.
Qed.

(** A run without errors on four rows fetched two at a time. *)
Lemma X13_witness :
  (length (select_le 4 (pgbench 4)) < 5)%nat /\
  (exists rk, fetchWithCustomCursor (quiet "0.03") (pgbench 4) 4 2 5 = inr rk)
  /\
  forall sched s,
    run_schedule sched
      (main (quiet "0.01") (quiet "0.02") (quiet "0.03") (pgbench 4) 4 2 5)
    = Some s -> (length sched <= 14)%nat.
Proof.
  assert (Hf : (length (select_le 4 (pgbench 4)) < 5)%nat)
    by (vm_compute; lia).
  split; [exact Hf|]. split; [eexists; reflexivity|].
  exact (proj1 (proj2 (X13_range_loop_ends_with_three_results
                         (quiet "0.01") (quiet "0.02") (quiet "0.03")
                         (pgbench 4) 4 2 5 _ Hf eq_refl))).
Defined.

(** X14.  However the goroutines are scheduled and whatever the strategies
    meet, the process never panics (no send on a closed channel, no
    negative WaitGroup counter, no second close), the channel never holds
    more than one Result, and it is closed at most once and only when every
    strategy goroutine has sent its Result and run its [wg.Done()]. *)
Theorem X14_channel_closed_once_after_all_done (ec eo ek : Env)
    (tbl : Table) (limit batchSize : Z) (fuel : nat) (s : HState)
    (Hreach : reachable (main ec eo ek tbl limit batchSize fuel) s) :
  panicked s = false /\
  (length (errorChan s) <= 1)%nat /\
  0 <= wg s /\
  (closed s <= 1)%nat /\
  (closed s = 1%nat ->
   wg s = 0 /\ Forall (fun g => g = []) (gs s) /\ to_send s = []).
Proof.
  pose proof (reachable_inv _ _ s
                (main_inv ec eo ek tbl limit batchSize fuel) Hreach)
    as (Hwf & Hwg & Hcap & Hcl & Hwd & Hp & Hmd & Hperm).
  split; [assumption|]. split; [exact Hcap|].
  split; [rewrite Hwg; apply lives_nonneg|].
  split; [destruct (waiter_done s); lia|].
  intro Hc. destruct (waiter_done s); [|lia]. specialize (Hwd eq_refl).
  rewrite Hwg in Hwd. pose proof (lives_zero _ Hwd) as Hfin.
  split; [now rewrite Hwg|]. split; [assumption|].
  now apply unsent_finished.
Qed.

(** The state after the three strategies have finished and the channel has
    been closed. *)
Lemma X14_witness :
  exists s,
    reachable (main (quiet "0.01") (quiet "0.02") (quiet "0.03")
                    (pgbench 4) 4 2 5) s /\
    closed s = 1%nat /\ panicked s = false /\ wg s = 0.
Proof.
  assert (R : { s | run_schedule one_by_one
                      (main (quiet "0.01") (quiet "0.02") (quiet "0.03")
                            (pgbench 4) 4 2 5) = Some s
                    /\ closed s = 1%nat }).
  { eexists. split; [vm_compute; reflexivity | reflexivity]. }
  destruct R as (s & Hrun & Hcl). exists s.
  pose proof (run_schedule_reachable _ _ _ Hrun) as Hreach.
  destruct (X14_channel_closed_once_after_all_done
              (quiet "0.01") (quiet "0.02") (quiet "0.03")
              (pgbench 4) 4 2 5 s Hreach) as (Hp & _ & _ & _ & Hall).
  split; [exact Hreach|]. split; [exact Hcl|]. split; [exact Hp|].
  exact (proj1 (Hall Hcl)).
Defined.

(* ================================================================== *)
(** * Nothing to fetch *)

Lemma batch_nothing (env : Env) (w : error -> error) (n : nat)
    (out : Sink) (lastId : Z) :
  batch env w n (open_rows env n []) out lastId = (out, lastId, Break).
Proof.
  unfold batch, rows_Next, open_rows.
  destruct (stream_err env n) as [[k e]|]; cbn [pending];
    [rewrite firstn_nil|]; reflexivity.
Qed.

Lemma select_le_none (limit : Z) (tbl : Table) :
  (forall r, In r tbl -> limit < aid r) -> select_le limit tbl = [].
Proof.
  intro H. unfold select_le. rewrite filter_none; [reflexivity|].
  intros r Hr. apply Z.leb_gt. now apply H.
Qed.

Lemma select_between_none (lastId limit : Z) (tbl : Table) :
  (forall r, In r tbl -> limit < aid r) ->
  select_between lastId limit tbl = [].
Proof.
  intro H. unfold select_between. rewrite filter_none; [reflexivity|].
  intros r Hr. apply andb_false_iff. right. apply Z.leb_gt. now apply H.
Qed.

(** X15.  When no row of the table has a key within the limit, each
    strategy, if it gets as far as its first query and that query does not
    fail, leaves its loop at once: it returns after that one query with an
    empty file and a Result of success (the cursor strategy provided the
    cursor closes). *)
Theorem X15_empty_range (env : Env) (tbl : Table) (limit batchSize : Z)
    (fuel : nat)
    (Hopen : opens env) (Hquery : query_err env 0 = None)
    (Hnone : forall r, In r tbl -> limit < aid r) :
  fetchWithCursor env tbl limit batchSize (S fuel) =
  inr (cursor_finish env []) /\
  fetchWithOffsetLimit env tbl limit batchSize (S fuel) =
  inr (offset_finish env []) /\
  fetchWithCustomCursor env tbl limit batchSize (S fuel) =
  inr (custom_finish env []).
Proof.
  destruct Hopen as (H1 & H2 & H3).
  unfold fetchWithCursor, fetchWithOffsetLimit, fetchWithCustomCursor.
  rewrite H1, H2, H3. cbn [loop].
  unfold cursor_body, offset_body, custom_body, fetch, sql_limit, sql_offset.
  cbn [c_n c_cur c_out o_n o_offset o_out k_n k_lastId k_out].
  rewrite Hquery, (select_le_none limit tbl Hnone),
    (select_between_none 0 limit tbl Hnone).
  rewrite skipn_nil, !firstn_nil, !batch_nothing. auto.
Qed.

(** Limit 0 on a table keyed from 1. *)
Lemma X15_witness :
  opens (quiet "0.01") /\ query_err (quiet "0.01") 0 = None /\
  (forall r, In r (pgbench 3) -> 0 < aid r) /\
  fetchWithCursor (quiet "0.01") (pgbench 3) 0 2 1 =
  inr (cursor_finish (quiet "0.01") []).
Proof.
  assert (Ho : opens (quiet "0.01")) by (repeat split).
  assert (Hn : forall r, In r (pgbench 3) -> 0 < aid r)
    by apply accounts_positive.
  split; [exact Ho|]. split; [reflexivity|]. split; [exact Hn|].
  exact (proj1 (X15_empty_range (quiet "0.01") (pgbench 3) 0 2 0
                  Ho eq_refl Hn)).
Defined.

(** X16.  With a batch size that is not positive no strategy writes a
    record: every strategy returns after at most one query, whatever the
    table and whatever fails, and its file is empty. *)
Theorem X16_batch_size_not_positive (env : Env) (tbl : Table)
    (limit batchSize : Z) (fuel : nat) (Hb : batchSize <= 0) :
  (exists run, fetchWithCursor env tbl limit batchSize (S fuel) = inr run /\
               file run = []) /\
  (exists run, fetchWithOffsetLimit env tbl limit batchSize (S fuel) = inr run
               /\ file run = []) /\
  (exists run, fetchWithCustomCursor env tbl limit batchSize (S fuel)
               = inr run /\ file run = []).
Proof.
  assert (Hk : Z.to_nat batchSize = 0%nat) by lia.
  unfold fetchWithCursor, fetchWithOffsetLimit, fetchWithCustomCursor.
  split; [|split].
  - destruct (create_err env); [eexists; split; reflexivity|].
    destruct (begin_err env); [eexists; split; reflexivity|].
    destruct (declare_err env); [eexists; split; reflexivity|].
    cbn [loop]. unfold cursor_body, fetch. cbn [c_n c_cur c_out].
    destruct (query_err env 0); [eexists; split; reflexivity|].
    rewrite Hk. cbn [firstn]. rewrite batch_nothing.
    eexists. split; [reflexivity | apply file_cursor_finish].
  - destruct (create_err env); [eexists; split; reflexivity|].
    cbn [loop]. unfold offset_body, sql_limit. cbn [o_n o_offset o_out].
    destruct (query_err env 0); [eexists; split; reflexivity|].
    rewrite Hk. cbn [firstn]. rewrite batch_nothing.
    eexists. split; reflexivity.
  - destruct (create_err env); [eexists; split; reflexivity|].
    cbn [loop]. unfold custom_body, sql_limit. cbn [k_n k_lastId k_out].
    destruct (query_err env 0); [eexists; split; reflexivity|].
    rewrite Hk. cbn [firstn]. rewrite batch_nothing.
    eexists. split; reflexivity.
Qed.

(** Batch size 0 on a table of three rows. *)
Lemma X16_witness :
  0 <= 0 /\
  exists run,
    fetchWithCursor (quiet "0.01") (pgbench 3) 3 0 1 = inr run /\
    file run = [].
Proof.
  split; [lia|].
  exact (proj1 (X16_batch_size_not_positive (quiet "0.01") (pgbench 3) 3 0 0
                  ltac:(lia))).
Defined.

(* ================================================================== *)
(** * Records *)

(** X17.  A record of the file gives its row back: it has three fields,
    reading them as decimal numbers gives the [aid], [bid] and [abalance]
    written (negative numbers and 0 included), so two different rows are
    never written as the same record. *)
Theorem X17_record_round_trip (r r' : Row) :
  length (record_of r) = 3%nat /\
  row_of_record (record_of r) = Some r /\
  record_key (record_of r) = Some (aid r) /\
  (record_of r = record_of r' <-> r = r').
Proof.
  split; [reflexivity|]. split; [apply row_of_record_of|].
  split; [apply record_key_of|].
  split; [apply record_of_inj | now intros ->].
Qed.


(* ================================================================== *)
(** * Keys the custom cursor does not reach *)

Lemma custom_body_positive (env : Env) (tbl : Table) (limit batchSize : Z)
    (st : CustomSt) :
  (0 <= k_lastId st /\
   exists ws, k_out st = map record_of ws /\
              forall r, In r ws -> In r tbl /\ 0 < aid r) ->
  match custom_body env tbl limit batchSize st with
  | inl st' =>
      0 <= k_lastId st' /\
      exists ws, k_out st' = map record_of ws /\
                 forall r, In r ws -> In r tbl /\ 0 < aid r
  | inr run =>
      exists ws, file run = map record_of ws /\
                 forall r, In r ws -> In r tbl /\ 0 < aid r
  end.
Proof.
  intros (Hl & ws & Hout & Hpos). unfold custom_body.
  destruct (query_err env (k_n st)); [now exists ws|].
  set (sel := select_between (k_lastId st) limit tbl).
  unfold sql_limit.
  pose proof (batch_spec env (Errorf "error writing record to CSV: %v\n")
                (k_n st) (firstn (Z.to_nat batchSize) sel)
                (k_out st) (k_lastId st)) as H.
  cbv zeta in H.
  destruct (batch _ _ _ _ _ _) as [[out' lastId'] be].
  destruct H as [[_ H] | (r & p & q & Hgot & Ho & Hl' & _)].
  - injection H as -> _ ->. now exists ws.
  - cbn [fst snd] in Ho, Hl'.
    assert (Hp : forall x, In x p -> In x tbl /\ k_lastId st < aid x).
    { intros x Hx.
      assert (Hin : In x sel).
      { rewrite <- (firstn_skipn (Z.to_nat batchSize) sel), Hgot.
        apply in_or_app. left. right. apply in_or_app. now left. }
      apply select_between_In in Hin. split; [tauto | lia]. }
    assert (Hws : exists ws', out' = map record_of ws' /\
                    forall x, In x ws' -> In x tbl /\ 0 < aid x).
    { exists (ws ++ p). split; [now rewrite Ho, Hout, map_app|].
      intros x Hx. apply in_app_or in Hx as [Hx | Hx]; [now apply Hpos|].
      destruct (Hp x Hx). split; [assumption | lia]. }
    destruct be; try exact Hws. cbn [k_lastId k_out]. split; [|exact Hws].
    rewrite Hl'. pose proof (last_In (map aid p) (k_lastId st)) as Hin.
    destruct Hin as [<- | Hin]; [assumption|].
    apply in_map_iff in Hin as (x & <- & Hx). destruct (Hp x Hx). lia.
Qed.

(** X18.  [fetchWithCustomCursor] never writes a row whose key is 0 or
    negative: [lastId] starts at 0 and every query asks for keys above
    [lastId].  (The other two strategies select such rows.) *)
Theorem X18_custom_cursor_writes_positive_keys_only (env : Env)
    (tbl : Table) (limit batchSize : Z) (fuel : nat) :
  Forall (fun rec => exists r, In r tbl /\ rec = record_of r /\ 0 < aid r)
    (custom_file (fetchWithCustomCursor env tbl limit batchSize fuel)).
Proof.
  assert (K : exists ws,
             custom_file (fetchWithCustomCursor env tbl limit batchSize fuel)
             = map record_of ws /\
             forall r, In r ws -> In r tbl /\ 0 < aid r).
  { unfold fetchWithCustomCursor.
    destruct (create_err env); [exists []; split; [reflexivity | intros r []]|].
    pose proof (loop_invariant _ _ _
                  (custom_body_positive env tbl limit batchSize) fuel
                  {| k_n := 0; k_lastId := 0; k_out := [] |}) as L.
    destruct (loop _ _ _) as [st|run]; cbn [custom_file]; apply L;
      (split; [cbn; lia | exists []; split; [reflexivity | intros r []]]). }
  destruct K as (ws & -> & Hws). apply Forall_forall. intros rec Hrec.
  apply in_map_iff in Hrec as (r & <- & Hr). destruct (Hws r Hr).
  now exists r.
Qed.


(* ================================================================== *)
(** * The order of the keys when the table changes during the run *)

Lemma custom_body_order (env : Env) (tbl : Table) (limit batchSize : Z)
    (st : CustomSt) :
  primary_key tbl ->
  custom_order_inv st ->
  match custom_body env tbl limit batchSize st with
  | inl st' => k_n st' = S (k_n st) /\ custom_order_inv st'
  | inr run => exists ws, file run = map record_of ws /\ ascending ws
  end.
Proof.
  intros Hpk (ws & Hout & Hasc & Hle). unfold custom_body.
  destruct (query_err env (k_n st)) as [e|]; [now exists ws|].
  set (sel := select_between (k_lastId st) limit tbl).
  unfold sql_limit.
  pose proof (batch_spec env (Errorf "error writing record to CSV: %v\n")
                (k_n st) (firstn (Z.to_nat batchSize) sel)
                (k_out st) (k_lastId st)) as H.
  cbv zeta in H.
  destruct (batch _ _ _ _ _ _) as [[out' lastId'] be].
  destruct H as [[_ H] | (r & p & q & Hgot & Ho & Hl & Hbe & Hq)].
  - injection H as -> _ ->. now exists ws.
  - cbn [fst snd] in Ho, Hl, Hbe, Hq.
    assert (Hp : forall x, In x p -> k_lastId st < aid x).
    { intros x Hx.
      assert (Hin : In x sel).
      { rewrite <- (firstn_skipn (Z.to_nat batchSize) sel), Hgot.
        apply in_or_app. left. right. apply in_or_app. now left. }
      apply select_between_In in Hin. lia. }
    assert (Hpasc : ascending p).
    { pose proof (ascending_firstn (Z.to_nat batchSize) sel
                    (select_between_ascending _ _ _ Hpk)) as Ha.
      rewrite Hgot in Ha. change (r :: p ++ q) with ([r] ++ p ++ q) in Ha.
      exact (ascending_app_l _ _ (ascending_app_r _ _ Ha)). }
    destruct (last_ascending p (k_lastId st) Hpasc Hp) as [H1 H2].
    rewrite <- Hl in H1, H2.
    assert (Hasc' : ascending (ws ++ p)).
    { apply ascending_app. repeat split; auto.
      intros x y Hx Hy. specialize (Hle x Hx). specialize (Hp y Hy). lia. }
    assert (Hout' : out' = map record_of (ws ++ p))
      by now rewrite Ho, Hout, map_app.
    destruct be as [|e|]; [congruence | now exists (ws ++ p) |].
    cbn [k_n]. split; [reflexivity|]. exists (ws ++ p).
    cbn [k_out k_lastId]. split; [assumption|]. split; [assumption|].
    intros x Hx. apply in_app_or in Hx as [Hx | Hx].
    + specialize (Hle x Hx). lia.
    + now apply H2.
Qed.

Lemma custom_file_on_ascending (env : Env) (tbls : nat -> Table)
    (limit batchSize : Z) (fuel : nat) :
  (forall n, primary_key (tbls n)) ->
  keys_ascending
    (custom_file (fetchWithCustomCursorOn env tbls limit batchSize fuel)).
Proof.
  intro Hpk.
  assert (K : exists ws,
             custom_file
               (fetchWithCustomCursorOn env tbls limit batchSize fuel) =
             map record_of ws /\ ascending ws).
  { unfold fetchWithCustomCursorOn.
    destruct (create_err env);
      [exists []; split; [reflexivity | apply ascending_nil]|].
    assert (Hbody : forall st, custom_order_inv st ->
              match custom_body_on env tbls limit batchSize st with
              | inl st' => custom_order_inv st'
              | inr run => exists ws, file run = map record_of ws /\
                                      ascending ws
              end).
    { intros st Hst. unfold custom_body_on.
      pose proof (custom_body_order env (tbls (k_n st)) limit batchSize st
                    (Hpk (k_n st)) Hst) as B.
      destruct (custom_body _ _ _ _ _); [apply B | exact B]. }
    pose proof (loop_invariant _ _ _ Hbody fuel
                  {| k_n := 0; k_lastId := 0; k_out := [] |}) as L.
    assert (H0 : custom_order_inv {| k_n := 0; k_lastId := 0; k_out := [] |}).
    { exists []. split; [reflexivity|].
      split; [apply ascending_nil | intros r []]. }
    specialize (L H0).
    destruct (loop _ _ _) as [st|run]; cbn [custom_file]; [|exact L].
    destruct L as (ws & Ho & Ha & _). now exists ws. }
  destruct K as (ws & -> & Hasc). exists (map aid ws).
  split; [apply map_record_key | exact Hasc].
Qed.

Lemma map_Some_inj (l l' : list Z) : map Some l = map Some l' -> l = l'.
Proof.
  revert l'. induction l as [|x l IH]; intros [|y l'] H; try discriminate;
    [reflexivity|].
  cbn [map] in H. injection H as -> H. f_equal. now apply IH.
Qed.

(** C9, as the claim states it, fails: [fetchWithOffsetLimit] sends every
    page as a query of its own, and when another session inserts the rows
    of keys -1 and 0 after the first page (keys 1..6, limit 6, batch size
    3), the second page starts at the row of key 2 again: the run ends
    without error and the keys written are 2, 3, 3, 4, 6. *)
Lemma C9_offset_repeats_a_key_when_table_grows :
  (forall n, primary_key (grown n)) /\
  exists run,
    fetchWithOffsetLimitOn (quiet "0.00") grown 6 3 5 = inr run /\
    Err (hd offset_result (sent run)) = None /\
    map record_key (file run) = map Some [2; 3; 3; 4; 6] /\
    ~ keys_ascending (file run).
Proof.
  split; [intros [|n]; distinct_keys|].
  eexists. split; [vm_compute; reflexivity|].
  cbn [sent file hd Err set_Message offset_result].
  split; [reflexivity|].
  assert (E : map record_key
                [["2"; "1"; "0"]; ["3"; "1"; "0"]; ["3"; "1"; "0"];
                 ["4"; "1"; "0"]; ["6"; "1"; "0"]]%string =
              map Some [2; 3; 3; 4; 6]) by reflexivity.
  split; [exact E|].
  intros (ks & Hks & Hs).
  assert (Hks' : map Some [2; 3; 3; 4; 6] = map Some ks) by exact Hks.
  apply map_Some_inj in Hks'. subst ks. inversion Hs as [|? ? Hs1 _]; subst.
  inversion Hs1 as [|? ? _ Hf]; subst.
  inversion Hf as [|? ? Hlt _]; subst. lia.
Qed.

(** C9, amended.  The sequence of primary keys written is strictly
    ascending, whatever fails and at every point of the run: in every run
    of the cursor strategy; in every run of the custom cursor, even when
    the table changes between its queries; and in every run of
    offset/limit during which the table does not change.  ([aid] being the
    primary key of the table, at every query.)  On a table that does not
    change the runs of the custom cursor and of offset/limit are the runs
    of [fetchWithCustomCursor] and [fetchWithOffsetLimit]. *)
Theorem C9_keys_ascending_unless_pages_shift (ec eo ek : Env) (tbl : Table)
    (tbls : nat -> Table) (limit batchSize : Z) (fuel : nat)
    (Hpk : primary_key tbl) (Hpks : forall n, primary_key (tbls n)) :
  keys_ascending (cursor_file (fetchWithCursor ec tbl limit batchSize fuel)) /\
  keys_ascending
    (custom_file (fetchWithCustomCursorOn ek tbls limit batchSize fuel)) /\
  keys_ascending
    (offset_file (fetchWithOffsetLimit eo tbl limit batchSize fuel)) /\
  fetchWithCustomCursorOn ek (fun _ => tbl) limit batchSize fuel =
  fetchWithCustomCursor ek tbl limit batchSize fuel /\
  fetchWithOffsetLimitOn eo (fun _ => tbl) limit batchSize fuel =
  fetchWithOffsetLimit eo tbl limit batchSize fuel.
Proof.
  split; [|split; [|split; [|split]]]; try reflexivity.
  - apply (sound_file_ascending limit tbl _ Hpk), cursor_file_sound.
  - now apply custom_file_on_ascending.
  - apply (sound_file_ascending limit tbl _ Hpk), offset_file_sound.
Qed.

(** The custom cursor on the table that grows after the first query, the
    other two on a table of seven rows. *)
Lemma C9_witness :
  primary_key (pgbench 7) /\ (forall n, primary_key (grown n)) /\
  custom_file (fetchWithCustomCursorOn (quiet "0.03") grown 6 3 5) =
  [record_of (mkRow 2 1 0); record_of (mkRow 3 1 0);
   record_of (mkRow 5 1 0); record_of (mkRow 6 1 0)] /\
  keys_ascending
    (custom_file (fetchWithCustomCursorOn (quiet "0.03") grown 6 3 5)) /\
  keys_ascending
    (offset_file (fetchWithOffsetLimit (quiet "0.02") (pgbench 7) 6 3 9)).
Proof.
  assert (Hpk : primary_key (pgbench 7)) by distinct_keys.
  assert (Hpks : forall n, primary_key (grown n))
    by (intros [|n]; distinct_keys).
  pose proof (C9_keys_ascending_unless_pages_shift
                (quiet "0.01") (quiet "0.02") (quiet "0.03")
                (pgbench 7) grown 6 3 5 Hpk Hpks) as (_ & Hk & _).
  pose proof (C9_keys_ascending_unless_pages_shift
                (quiet "0.01") (quiet "0.02") (quiet "0.03")
                (pgbench 7) grown 6 3 9 Hpk Hpks) as (_ & _ & Ho & _).
  split; [exact Hpk|]. split; [exact Hpks|]. split; [reflexivity|].
  split; [exact Hk | exact Ho].
Defined.


(* ================================================================== *)
(** * A write that fails, at any row *)

Lemma scan_write_fails_at (env : Env) (w : error -> error) (n i : nat)
    (c : error) :
  (forall j, scan_err env n j = None) ->
  write_err env n i = Some c ->
  (forall j, j <> i -> write_err env n j = None) ->
  forall (pend : list Row) (j : nat) (out : Sink) (lastId : Z),
    (j <= i)%nat -> (i - j < length pend)%nat ->
    scan_write env w n j pend out lastId =
    (out ++ map record_of (firstn (i - j) pend),
     last (map aid (firstn (i - j) pend)) lastId, Some (w c)).
Proof.
  intros Hs Hw Ho. induction pend as [|r pend IH];
    intros j out lastId Hj Hlen; cbn [length] in Hlen; [lia|].
  cbn [scan_write]. rewrite Hs. destruct (Nat.eq_dec j i) as [-> | Hne].
  - rewrite Hw, Nat.sub_diag. cbn [firstn map last]. now rewrite app_nil_r.
  - rewrite (Ho j Hne), IH by lia.
    replace (i - j)%nat with (S (i - S j)) by lia.
    cbn [firstn map]. now rewrite <- app_assoc, last_cons.
Qed.

Lemma batch_fails_at (env : Env) (w : error -> error) (n i : nat)
    (c : error) (got : list Row) (out : Sink) (lastId : Z) :
  stream_err env n = None ->
  (forall j, scan_err env n j = None) ->
  write_err env n i = Some c ->
  (forall j, j <> i -> write_err env n j = None) ->
  (1 <= i)%nat -> (i < length got)%nat ->
  batch env w n (open_rows env n got) out lastId =
  (out ++ map record_of (firstn (i - 1) (tl got)),
   last (map aid (firstn (i - 1) (tl got))) lastId, Abort (w c)).
Proof.
  intros Hst Hs Hw Ho Hi Hlen. unfold batch, rows_Next, open_rows.
  rewrite Hst. destruct got as [|r p]; cbn [length] in Hlen; [lia|].
  cbn [pending rows_Err tl].
  rewrite (scan_write_fails_at env w n i c Hs Hw Ho) by lia. reflexivity.
Qed.

Lemma write_fails_here (secs : string) (n i : nat) (c : error) :
  write_err (write_fails secs n i c) n i = Some c.
Proof. cbn [write_err write_fails]. now rewrite !Nat.eqb_refl. Qed.

Lemma write_fails_other_row (secs : string) (n i : nat) (c : error)
    (m j : nat) :
  j <> i -> write_err (write_fails secs n i c) m j = None.
Proof.
  intro H. cbn [write_err write_fails].
  destruct (Nat.eqb_spec j i); [contradiction|]. now rewrite andb_false_r.
Qed.

Lemma write_fails_other_result (secs : string) (n i : nat) (c : error)
    (m j : nat) :
  m <> n -> write_err (write_fails secs n i c) m j = None.
Proof.
  intro H. cbn [write_err write_fails].
  destruct (Nat.eqb_spec m n); [contradiction | reflexivity].
Qed.

Lemma nth_batches_first {A : Type} (b : Z) (l : list A) (k : nat) :
  nth k (batches b l) [] <> [] ->
  exists x c,
    firstn (Z.to_nat b) l = x :: c /\
    batches b l = (x :: c) :: batches b (skipn (Z.to_nat b) l).
Proof.
  intro H. rewrite batches_step in H |- *.
  destruct (firstn (Z.to_nat b) l) as [|x c]; [|now exists x, c].
  destruct k; cbn in H; congruence.
Qed.

Lemma batches_length {A : Type} (b : Z) (l : list A) :
  Forall (fun c => (length c <= Z.to_nat b)%nat) (batches b l).
Proof.
  remember (length l) as n eqn:Hn. revert l Hn.
  induction n as [n IH] using lt_wf_ind. intros l Hn.
  rewrite batches_step.
  destruct (firstn (Z.to_nat b) l) as [|x c] eqn:E; constructor.
  - rewrite <- E. apply firstn_le_length.
  - apply (IH (length (skipn (Z.to_nat b) l))); [|reflexivity].
    subst n. apply skipn_shorter. rewrite E. discriminate.
Qed.

Lemma nth_batches_length {A : Type} (b : Z) (l : list A) (k : nat) :
  (length (nth k (batches b l) []) <= Z.to_nat b)%nat.
Proof.
  destruct (nth_in_or_default k (batches b l) []) as [H | ->];
    [|cbn; lia].
  exact (proj1 (Forall_forall _ _) (batches_length b l) _ H).
Qed.

Lemma written_until_S {A : Type} (k i : nat) (c : list A)
    (bs : list (list A)) :
  written_until (S k) i (c :: bs) = tl c ++ written_until k i bs.
Proof.
  unfold written_until. cbn [firstn nth]. now rewrite tails_cons, app_assoc.
Qed.

Lemma cursor_loop_write_fails (secs : string) (n i : nat) (c : error)
    (batchSize : Z) :
  (1 <= i)%nat ->
  forall (k fuel : nat) (st : CursorSt),
    (c_n st + k = n)%nat ->
    (i < length (nth k (batches batchSize (c_cur st)) []))%nat ->
    (k < fuel)%nat ->
    loop (cursor_body (write_fails secs n i c) batchSize) fuel st =
    inr (fail cursor_result (Errorf "error writing record to CSV: %v" c)
           (c_out st ++
            map record_of
              (written_until k i (batches batchSize (c_cur st))))).
Proof.
  intro Hi. induction k as [|k IH]; intros fuel [m cur out] Hn Hrow Hf;
    (destruct fuel as [|fuel]; [lia|]); cbn [c_n c_cur c_out] in *;
    (destruct (nth_batches_first batchSize cur _
                 ltac:(intro E; rewrite E in Hrow; cbn in Hrow; lia))
      as (x & c0 & E & Eb)); rewrite Eb in Hrow |- *; cbn [nth] in Hrow;
    cbn [loop]; unfold cursor_body at 1; cbn [c_n c_cur c_out];
    change (query_err (write_fails secs n i c) m) with (@None error);
    unfold fetch; rewrite E.
  - replace m with n by lia.
    rewrite (batch_fails_at _ _ n i c);
      auto using write_fails_here, write_fails_other_row.
  - rewrite batch_quiet;
      [|reflexivity | reflexivity
       |intro j; apply write_fails_other_result; lia].
    rewrite (IH fuel) by (cbn [c_n c_cur c_out]; (assumption || lia)).
    cbn [c_out]. now rewrite written_until_S, map_app, app_assoc.
Qed.

Lemma offset_loop_write_fails (secs : string) (n i : nat) (c : error)
    (tbl : Table) (limit batchSize : Z) :
  (1 <= i)%nat ->
  forall (k fuel : nat) (st : OffsetSt),
    0 <= o_offset st ->
    (o_n st + k = n)%nat ->
    (i < length
           (nth k (batches batchSize
                     (skipn (Z.to_nat (o_offset st)) (select_le limit tbl)))
              []))%nat ->
    (k < fuel)%nat ->
    loop (offset_body (write_fails secs n i c) tbl limit batchSize) fuel st =
    inr (fail offset_result c
           (o_out st ++
            map record_of
              (written_until k i
                 (batches batchSize
                    (skipn (Z.to_nat (o_offset st))
                       (select_le limit tbl)))))).
Proof.
  intro Hi. induction k as [|k IH]; intros fuel [m off out] Hoff Hn Hrow Hf;
    (destruct fuel as [|fuel]; [lia|]); cbn [o_n o_offset o_out] in *;
    (destruct (nth_batches_first batchSize
                 (skipn (Z.to_nat off) (select_le limit tbl)) _
                 ltac:(intro E; rewrite E in Hrow; cbn in Hrow; lia))
      as (x & c0 & E & Eb)); rewrite Eb in Hrow |- *; cbn [nth] in Hrow;
    cbn [loop]; unfold offset_body at 1; cbn [o_n o_offset o_out];
    change (query_err (write_fails secs n i c) m) with (@None error);
    unfold sql_limit, sql_offset; rewrite E.
  - replace m with n by lia.
    rewrite (batch_fails_at _ _ n i c);
      auto using write_fails_here, write_fails_other_row.
  - assert (Hb : 0 < batchSize).
    { destruct (Z.to_nat batchSize) eqn:Eb0; [discriminate E | lia]. }
    assert (Esk : skipn (Z.to_nat (off + batchSize)) (select_le limit tbl) =
                  skipn (Z.to_nat batchSize)
                    (skipn (Z.to_nat off) (select_le limit tbl))).
    { rewrite skipn_skipn, Z2Nat.inj_add by lia. f_equal. lia. }
    rewrite batch_quiet;
      [|reflexivity | reflexivity
       |intro j; apply write_fails_other_result; lia].
    rewrite (IH fuel);
      cbn [o_n o_offset o_out]; rewrite ?Esk; try (assumption || lia).
    now rewrite written_until_S, map_app, app_assoc.
Qed.

Lemma custom_loop_write_fails (secs : string) (n i : nat) (c : error)
    (tbl : Table) (limit batchSize : Z) :
  primary_key tbl ->
  (1 <= i)%nat ->
  forall (k fuel : nat) (st : CustomSt),
    (k_n st + k = n)%nat ->
    (i < length
           (nth k (batches batchSize
                     (select_between (k_lastId st) limit tbl)) []))%nat ->
    (k < fuel)%nat ->
    loop (custom_body (write_fails secs n i c) tbl limit batchSize) fuel st =
    inr (fail custom_result (Errorf "error writing record to CSV: %v\n" c)
           (k_out st ++
            map record_of
              (written_until k i
                 (batches batchSize
                    (select_between (k_lastId st) limit tbl))))).
Proof.
  intros Hpk Hi.
  induction k as [|k IH]; intros fuel [m w out] Hn Hrow Hf;
    (destruct fuel as [|fuel]; [lia|]); cbn [k_n k_lastId k_out] in *;
    (destruct (nth_batches_first batchSize
                 (select_between w limit tbl) _
                 ltac:(intro E; rewrite E in Hrow; cbn in Hrow; lia))
      as (x & c0 & E & Eb)); rewrite Eb in Hrow |- *; cbn [nth] in Hrow;
    cbn [loop]; unfold custom_body at 1; cbn [k_n k_lastId k_out];
    change (query_err (write_fails secs n i c) m) with (@None error);
    unfold sql_limit; rewrite E.
  - replace m with n by lia.
    rewrite (batch_fails_at _ _ n i c);
      auto using write_fails_here, write_fails_other_row.
  - set (suf := select_between w limit tbl) in *.
    pose proof (nth_batches_length batchSize
                  (skipn (Z.to_nat batchSize) suf) k) as Hle.
    assert (Hlong : (Z.to_nat batchSize < length suf)%nat).
    { destruct (Nat.lt_ge_cases (Z.to_nat batchSize) (length suf)) as [|Hs];
        [assumption|].
      rewrite (skipn_all2 suf Hs), batches_step, firstn_nil in Hrow.
      destruct k; cbn in Hrow; lia. }
    assert (Hc0 : c0 <> []).
    { intros ->. apply (f_equal (@length Row)) in E.
      rewrite firstn_length_le in E by lia. cbn in E. lia. }
    rewrite batch_quiet;
      [|reflexivity | reflexivity
       |intro j; apply write_fails_other_result; lia].
    pose proof (select_between_advance tbl limit w _ x c0 Hpk E Hc0) as Eadv.
    fold suf in Eadv.
    rewrite (IH fuel);
      cbn [k_n k_lastId k_out]; rewrite ?Eadv; try (assumption || lia).
    now rewrite written_until_S, map_app, app_assoc.
Qed.

(** C7.  [fetchWithOffsetLimit] does not wrap the error of a failed
    [writer.Write].  Let [writer.Write] fail, with the error [Raw c], on a
    row the strategies write: row [i] of result [n], [i] counted from 0 and
    at least 1 (row 0 of a result is taken by the emptiness check).  Then
    offset/limit returns, and puts [Raw c] itself in its Result: the value
    of its [fmt.Errorf] is not assigned.  The cursor strategy, and on a
    table of positive keys the custom cursor, return with the value of
    their [fmt.Errorf] in the Result.  In each the records handed to
    [writer.Write] before the failing one are those of the rows written
    until then. *)
Theorem C7_offset_write_error_not_wrapped (secs : string) (c : nat)
    (tbl : Table) (limit batchSize : Z) (n i fuel : nat)
    (Hi : (1 <= i)%nat)
    (Hrow : (i < length (nth n (batches batchSize (select_le limit tbl))
                           []))%nat)
    (Hfuel : (n < fuel)%nat) :
  let env := write_fails secs n i (Raw c) in
  let out :=
    map record_of
      (written_until n i (batches batchSize (select_le limit tbl))) in
  fetchWithOffsetLimit env tbl limit batchSize fuel =
  inr {| sent := [{| Type_ := "offset_limit"; Err := Some (Raw c);
                     Message := "" |}];
         ret := Some (Raw c); file := out |} /\
  ~ wrapped (Raw c) /\
  fetchWithCursor env tbl limit batchSize fuel =
  inr {| sent := [{| Type_ := "cursor";
                     Err := Some (Errorf "error writing record to CSV: %v"
                                    (Raw c));
                     Message := "" |}];
         ret := Some (Errorf "error writing record to CSV: %v" (Raw c));
         file := out |} /\
  (primary_key tbl -> (forall r, In r tbl -> 0 < aid r) ->
   fetchWithCustomCursor env tbl limit batchSize fuel =
   inr {| sent := [{| Type_ := "custom_cursor";
                      Err := Some (Errorf "error writing record to CSV: %v\n"
                                     (Raw c));
                      Message := "" |}];
          ret := Some (Errorf "error writing record to CSV: %v\n" (Raw c));
          file := out |}).
Proof.
  cbv zeta. split; [|split; [intros [] | split]].
  - unfold fetchWithOffsetLimit.
    change (create_err (write_fails secs n i (Raw c))) with (@None error).
    cbv iota.
    rewrite (offset_loop_write_fails secs n i (Raw c) tbl limit batchSize
               Hi n fuel);
      cbn [o_n o_offset o_out Z.to_nat skipn]; try (assumption || lia).
    reflexivity.
  - unfold fetchWithCursor.
    change (create_err (write_fails secs n i (Raw c))) with (@None error).
    change (begin_err (write_fails secs n i (Raw c))) with (@None error).
    change (declare_err (write_fails secs n i (Raw c))) with (@None error).
    cbv iota.
    rewrite (cursor_loop_write_fails secs n i (Raw c) batchSize Hi n fuel);
      cbn [c_n c_cur c_out]; try (assumption || lia).
    reflexivity.
  - intros Hpk Hpos. unfold fetchWithCustomCursor.
    change (create_err (write_fails secs n i (Raw c))) with (@None error).
    cbv iota.
    rewrite (custom_loop_write_fails secs n i (Raw c) tbl limit batchSize
               Hpk Hi n fuel);
      cbn [k_n k_lastId k_out]; rewrite ?(select_between_0 limit tbl Hpos);
      try (assumption || lia).
    reflexivity.
Qed.

(** The first thousand rows in batches of 500, [writer.Write] failing on
    row 27 of result 1, the row of key 528: the 3886 bytes of the rows of
    keys 2 to 500 and the 208 bytes of the 26 rows of keys 502 to 527 fit
    the 4096 bytes of the writer's buffer, the row of key 528 does not, and
    its [Write] is the first to reach the file (error 28, no space left on
    the device). *)
Lemma C7_witness :
  (27 < length (nth 1 (batches 500
                         (select_le 1000 (pgbench (Z.to_nat 1000)))) []))%nat /\
  Datatypes.length
    (written_until 1 27
       (batches 500 (select_le 1000 (pgbench (Z.to_nat 1000))))) = 525%nat /\
  let env := write_fails "0.01" 1 27 (Raw 28) in
  let out :=
    map record_of
      (written_until 1 27
         (batches 500 (select_le 1000 (pgbench (Z.to_nat 1000))))) in
  fetchWithOffsetLimit env (pgbench (Z.to_nat 1000)) 1000 500 3 =
  inr {| sent := [{| Type_ := "offset_limit"; Err := Some (Raw 28);
                     Message := "" |}];
         ret := Some (Raw 28); file := out |} /\
  fetchWithCursor env (pgbench (Z.to_nat 1000)) 1000 500 3 =
  inr {| sent := [{| Type_ := "cursor";
                     Err := Some (Errorf "error writing record to CSV: %v"
                                    (Raw 28));
                     Message := "" |}];
         ret := Some (Errorf "error writing record to CSV: %v" (Raw 28));
         file := out |} /\
  fetchWithCustomCursor env (pgbench (Z.to_nat 1000)) 1000 500 3 =
  inr {| sent := [{| Type_ := "custom_cursor";
                     Err := Some (Errorf "error writing record to CSV: %v\n"
                                    (Raw 28));
                     Message := "" |}];
         ret := Some (Errorf "error writing record to CSV: %v\n" (Raw 28));
         file := out |}.
Proof.
  assert (Hi : (1 <= 27)%nat) by lia.
  assert (Hrow : (27 < length (nth 1 (batches 500
                    (select_le 1000 (pgbench (Z.to_nat 1000)))) []))%nat)
    by (vm_compute; lia).
  assert (Hfuel : (1 < 3)%nat) by lia.
  split; [exact Hrow|]. split; [vm_compute; reflexivity|].
  pose proof (C7_offset_write_error_not_wrapped "0.01" 28
                (pgbench (Z.to_nat 1000)) 1000 500 1 27 3 Hi Hrow Hfuel)
    as (Ho & _ & Hc & Hk).
  cbv zeta. split; [exact Ho|]. split; [exact Hc|].
  apply Hk; [apply accounts_primary_key | apply accounts_positive].
Defined.
